(** * Movie-Game: the prefetch queue (src/utils/prefetchQueue.ts)

    A shallow embedding of the [PrefetchQueue] class and of the cooperative
    scheduling it runs under.  JavaScript is single threaded: the code
    between two [await]s is one atomic step, so the class is modelled as a
    deterministic step function on a [World] (the fields of the object, the
    suspended coroutines, and what else of the heap matters), driven by a
    list of [Event]s chosen by the environment: method calls of the
    consumer, settlements of the Supplier promise, timers that fire, with
    the clock readings taken during the step.  The environment is not
    constrained: any suspended Supplier call may settle in any way at any
    time, cancelled or not.

    JavaScript numbers are modelled as integers ([Z]), so neither [NaN] nor
    fractional sizes occur; the back-off delay, which is not an integer, is
    computed over the rationals ([Q]).  A [Set] is modelled as a [gset]:
    its iteration order is not kept. *)

From Stdlib Require Import ZArith QArith Qround Qminmax Qpower Lia Lqa Ascii.
From stdpp Require Import base decidable option list gmap strings pretty.

Local Open Scope Z_scope.

(** ** Data *)

(** [MovieResult] of src/api/tmdb.ts. *)
Record MovieResult := mkMovie {
  movie_title : string;
  movie_id : Z;
  release_year : string;
  imdb_rating : option string;
  trailer_link : string;
}.

Record PrefetchStats := mkStats {
  queued : Z;
  servedImmediate : Z;
  servedAfterWait : Z;
  timeouts : Z;
  inFlightMax : Z;
}.

(** An optional property that is absent reads as [undefined]: [None]. *)
Record PrefetchFilters := mkFilters {
  startYear : option Z;
  endYear : option Z;
  language : option string;
}.

(** The private fields of the class.  An [AbortController] is an object
    compared by identity; it is modelled by the number of its allocation. *)
Record PrefetchQueue := mkQueue {
  size : Z;
  concurrency : Z;
  queue : list MovieResult;
  seenIds : gset Z;
  inFlight : gset nat;
  filling : bool;
  stats : PrefetchStats;
  filters : PrefetchFilters;
}.

(** Where a [fillOne] coroutine is suspended: at
    [await getRandomMovieWithTrailer(..)] or at [await this.backoff(attempt)]. *)
Inductive FillPhase := AwaitSupplier | AwaitBackoff.

(** The locals of a suspended [fillOne]: [controller], [attempt]. *)
Record FillTask := mkFill {
  controller : nat;
  attempt : nat;
  phase : FillPhase;
}.

(** The locals of a [next] suspended at [await new Promise(r => setTimeout(r, 50))].
    [call] identifies the promise that [next] returned. *)
Record NextTask := mkNext {
  call : nat;
  start : Z;
  timeoutMs : Z;
}.

(** The object together with the rest of the heap and the event loop:
    the suspended coroutines, the pending [setTimeout(() => this.fill(), 10)]
    timers, the controllers on which [abort()] was called, and the allocation
    counters. *)
Record World := mkWorld {
  this : PrefetchQueue;
  tasks : list FillTask;
  waiters : list NextTask;
  timers : nat;
  aborted : gset nat;
  nextController : nat;
  nextCall : nat;
}.

(** What a step does to the outside, in program order. *)
Inductive Obs :=
  | ObsCall (c : nat) (f : PrefetchFilters)
      (* getRandomMovieWithTrailer({signal: c.signal, ...this.filters}) *)
  | ObsAbort (c : nat)
      (* c.abort() *)
  | ObsQueued (c : nat) (m : MovieResult)
      (* this.queue.push(candidate); this.log('queued', ..) in the fillOne of c *)
  | ObsSetFilters (f : PrefetchFilters)
      (* this.log('setFilters', this.filters): the filters were replaced *)
  | ObsReturn (k : nat) (r : option MovieResult).
      (* the promise of the k-th call of next resolves with r *)

(** How the Supplier promise settles: a candidate, [null], or a rejection. *)
Inductive Response :=
  | Candidate (m : MovieResult)
  | NoCandidate
  | Throws.

(** [opts] of the constructor and of [setConfig]. *)
Record ConfigOpts := mkOpts {
  opt_size : option Z;
  opt_concurrency : option Z;
}.

(** What the environment does next.  Clock arguments are the values that
    [Date.now()] returns during the step. *)
Inductive Event :=
  | EvSetConfig (opts : ConfigOpts)
  | EvSetFilters (f : PrefetchFilters)
  | EvFill
  | EvNext (timeout : option Z) (t0 t1 : Z)
  | EvCancel (clearQueue : option bool)
  | EvResetStats
  | EvSupplier (c : nat) (r : Response)
  | EvBackoffDone (c : nat)
  | EvPoll (k : nat) (now : Z)
  | EvFillTimer.

(** ** Field updates *)

Definition set_size (v : Z) (q : PrefetchQueue) : PrefetchQueue :=
  mkQueue v (concurrency q) (queue q) (seenIds q) (inFlight q) (filling q) (stats q) (filters q).
Definition set_concurrency (v : Z) (q : PrefetchQueue) : PrefetchQueue :=
  mkQueue (size q) v (queue q) (seenIds q) (inFlight q) (filling q) (stats q) (filters q).
Definition set_queue (v : list MovieResult) (q : PrefetchQueue) : PrefetchQueue :=
  mkQueue (size q) (concurrency q) v (seenIds q) (inFlight q) (filling q) (stats q) (filters q).
Definition set_seenIds (v : gset Z) (q : PrefetchQueue) : PrefetchQueue :=
  mkQueue (size q) (concurrency q) (queue q) v (inFlight q) (filling q) (stats q) (filters q).
Definition set_inFlight (v : gset nat) (q : PrefetchQueue) : PrefetchQueue :=
  mkQueue (size q) (concurrency q) (queue q) (seenIds q) v (filling q) (stats q) (filters q).
Definition set_filling (v : bool) (q : PrefetchQueue) : PrefetchQueue :=
  mkQueue (size q) (concurrency q) (queue q) (seenIds q) (inFlight q) v (stats q) (filters q).
Definition set_stats (v : PrefetchStats) (q : PrefetchQueue) : PrefetchQueue :=
  mkQueue (size q) (concurrency q) (queue q) (seenIds q) (inFlight q) (filling q) v (filters q).
Definition set_filters (v : PrefetchFilters) (q : PrefetchQueue) : PrefetchQueue :=
  mkQueue (size q) (concurrency q) (queue q) (seenIds q) (inFlight q) (filling q) (stats q) v.

Definition set_this (q : PrefetchQueue) (w : World) : World :=
  mkWorld q (tasks w) (waiters w) (timers w) (aborted w) (nextController w) (nextCall w).
Definition set_tasks (v : list FillTask) (w : World) : World :=
  mkWorld (this w) v (waiters w) (timers w) (aborted w) (nextController w) (nextCall w).
Definition set_waiters (v : list NextTask) (w : World) : World :=
  mkWorld (this w) (tasks w) v (timers w) (aborted w) (nextController w) (nextCall w).
Definition set_timers (v : nat) (w : World) : World :=
  mkWorld (this w) (tasks w) (waiters w) v (aborted w) (nextController w) (nextCall w).
Definition set_aborted (v : gset nat) (w : World) : World :=
  mkWorld (this w) (tasks w) (waiters w) (timers w) v (nextController w) (nextCall w).
Definition set_nextController (v : nat) (w : World) : World :=
  mkWorld (this w) (tasks w) (waiters w) (timers w) (aborted w) v (nextCall w).
Definition set_nextCall (v : nat) (w : World) : World :=
  mkWorld (this w) (tasks w) (waiters w) (timers w) (aborted w) (nextController w) v.

(** [f] applied to the object inside the world. *)
Definition on_this (f : PrefetchQueue -> PrefetchQueue) (w : World) : World :=
  set_this (f (this w)) w.

(** ** The class *)

Definition zeroStats : PrefetchStats := mkStats 0 0 0 0 0.

(** [this.stats.queued++] and the like. *)
Definition count_queued (q : PrefetchQueue) : PrefetchQueue :=
  let s := stats q in
  set_stats (mkStats (queued s + 1) (servedImmediate s) (servedAfterWait s)
                     (timeouts s) (inFlightMax s)) q.
Definition count_servedImmediate (q : PrefetchQueue) : PrefetchQueue :=
  let s := stats q in
  set_stats (mkStats (queued s) (servedImmediate s + 1) (servedAfterWait s)
                     (timeouts s) (inFlightMax s)) q.
Definition count_servedAfterWait (q : PrefetchQueue) : PrefetchQueue :=
  let s := stats q in
  set_stats (mkStats (queued s) (servedImmediate s) (servedAfterWait s + 1)
                     (timeouts s) (inFlightMax s)) q.
Definition count_timeout (q : PrefetchQueue) : PrefetchQueue :=
  let s := stats q in
  set_stats (mkStats (queued s) (servedImmediate s) (servedAfterWait s)
                     (timeouts s + 1) (inFlightMax s)) q.

(** [this.stats.inFlightMax = Math.max(this.stats.inFlightMax, this.inFlight.size)] *)
Definition note_inFlight (q : PrefetchQueue) : PrefetchQueue :=
  let s := stats q in
  set_stats (mkStats (queued s) (servedImmediate s) (servedAfterWait s) (timeouts s)
                     (Z.max (inFlightMax s) (Z.of_nat (base.size (inFlight q))))) q.

(** [readNumber(key, def)]: [stored] is [Number(localStorage.getItem(key))]
    when the item exists and parses to a finite number. *)
Definition readNumber (stored : option Z) (def : Z) : Z :=
  match stored with
  | Some n => if 0 <? n then n else def
  | None => def
  end.

(** [constructor(opts)]; [ls_size] and [ls_concurrency] are what localStorage
    holds under 'prefetchSize' and 'prefetchConcurrency'. *)
Definition constructor (opts : ConfigOpts) (ls_size ls_concurrency : option Z) : PrefetchQueue :=
  mkQueue
    (default (readNumber ls_size 3) (opt_size opts))
    (Z.max 1 (default (readNumber ls_concurrency 2) (opt_concurrency opts)))
    [] ∅ ∅ false zeroStats (mkFilters None None None).

(** [export const prefetchQueue = new PrefetchQueue({ size: 3, concurrency: 2 })] *)
Definition prefetchQueue : PrefetchQueue :=
  constructor (mkOpts (Some 3) (Some 2)) None None.

(** A world in which nothing has run yet. *)
Definition boot (q : PrefetchQueue) : World := mkWorld q [] [] 0%nat ∅ 0%nat 0%nat.

(** [get length()] *)
Definition queue_length (q : PrefetchQueue) : Z := Z.of_nat (length (queue q)).

(** [getStats()] *)
Definition getStats (q : PrefetchQueue) : PrefetchStats := stats q.

(** [resetStats()] *)
Definition resetStats (q : PrefetchQueue) : PrefetchQueue := set_stats zeroStats q.

Definition maxAttempts : nat := 6.

Definition find_task (c : nat) (ts : list FillTask) : option FillTask :=
  List.find (fun t => Nat.eqb (controller t) c) ts.

Definition drop_task (c : nat) (ts : list FillTask) : list FillTask :=
  List.filter (fun t => negb (Nat.eqb (controller t) c)) ts.

Definition find_waiter (k : nat) (ns : list NextTask) : option NextTask :=
  List.find (fun n => Nat.eqb (call n) k) ns.

Definition drop_waiter (k : nat) (ns : list NextTask) : list NextTask :=
  List.filter (fun n => negb (Nat.eqb (call n) k)) ns.

(** The [finally] block of [fillOne]: [this.inFlight.delete(controller)];
    the coroutine is over. *)
Definition fillOne_finally (c : nat) (w : World) : World :=
  on_this (fun q => set_inFlight (inFlight q ∖ {[c]}) q) w.

(** The head of the retry loop of [fillOne], reached at the start, after a
    back-off and after a duplicate:
    [while (attempt < maxAttempts && this.queue.length < this.size)], then
    [attempt++] and the Supplier call, at whose [await] the coroutine is
    suspended. *)
Definition fillOne_loop (c : nat) (att : nat) (w : World) : World * list Obs :=
  if (att <? maxAttempts)%nat && (queue_length (this w) <? size (this w))
  then (set_tasks (mkFill c (S att) AwaitSupplier :: tasks w) w,
        [ObsCall c (filters (this w))])
  else (fillOne_finally c w, []).

(** [fillOne()] up to its first [await]. *)
Definition fillOne (w : World) : World * list Obs :=
  let c := nextController w in
  let w := set_nextController (S c) w in
  let w := on_this (fun q => set_inFlight (inFlight q ∪ {[c]}) q) w in
  fillOne_loop c 0 w.

(** [fillOne] resumed with the Supplier's answer; the task has already been
    taken off the list of suspended ones. *)
Definition fillOne_resume (t : FillTask) (r : Response) (w : World) : World * list Obs :=
  let c := controller t in
  match r with
  | NoCandidate =>
      (set_tasks (mkFill c (attempt t) AwaitBackoff :: tasks w) w, [])
  | Candidate m =>
      if bool_decide (movie_id m ∈ seenIds (this w))
      then fillOne_loop c (attempt t) w
      else
        let w := on_this (fun q =>
                  let q := set_seenIds (seenIds q ∪ {[movie_id m]}) q in
                  let q := set_queue (queue q ++ [m]) q in
                  count_queued q) w in
        (fillOne_finally c w, [ObsQueued c m])
  | Throws => (fillOne_finally c w, [])
  end.

(** The condition shared by the loop of [tick] and by its [finally]. *)
Definition wants_more (q : PrefetchQueue) : bool :=
  (queue_length q <? size q) && (Z.of_nat (base.size (inFlight q)) <? concurrency q).

(** One turn of the loop of [tick]: launch a [fillOne], record the peak. *)
Definition tick_turn (w : World) : World * list Obs :=
  let '(w, o) := fillOne w in (on_this note_inFlight w, o).

(** The [while] loop of [tick]. *)
Fixpoint tick_loop (fuel : nat) (w : World) : World * list Obs :=
  match fuel with
  | O => (w, [])
  | S fuel =>
      if wants_more (this w) then
        let '(w, o1) := tick_turn w in
        let '(w, o2) := tick_loop fuel w in
        (w, o1 ++ o2)
      else (w, [])
  end.

(** Every turn of the loop of [tick] adds one controller to [inFlight], so
    the loop turns at most [concurrency - inFlight.size] times. *)
Definition tick_fuel (q : PrefetchQueue) : nat :=
  Z.to_nat (concurrency q - Z.of_nat (base.size (inFlight q))).

(** [fill()].  [tick] has no [await]: it runs to its end inside the call. *)
Definition fill (w : World) : World * list Obs :=
  if filling (this w) then (w, [])
  else
    let w := on_this (set_filling true) w in
    let '(w, o) := tick_loop (tick_fuel (this w)) w in
    let w := on_this (set_filling false) w in
    let w := if wants_more (this w) then set_timers (S (timers w)) w else w in
    (w, o).

(** [cancel(clearQueue = false)] *)
Definition cancel (clearQueue : option bool) (w : World) : World * list Obs :=
  let cs := inFlight (this w) in
  let w := set_aborted (aborted w ∪ cs) w in
  let w := on_this (set_inFlight ∅) w in
  let w := if default false clearQueue then on_this (set_queue []) w else w in
  (w, ObsAbort <$> elements cs).

(** [setConfig(opts)]: [opts.size && opts.size > 0]. *)
Definition setConfig (opts : ConfigOpts) (w : World) : World * list Obs :=
  let w := match opt_size opts with
           | Some n => if 0 <? n then on_this (set_size n) w else w
           | None => w
           end in
  let w := match opt_concurrency opts with
           | Some n => if 0 <? n then on_this (set_concurrency n) w else w
           | None => w
           end in
  fill w.

(** The three [===] of [setFilters]. *)
Definition same_filters (a b : PrefetchFilters) : bool :=
  bool_decide (startYear a = startYear b) &&
  bool_decide (endYear a = endYear b) &&
  bool_decide (language a = language b).

Definition setFilters (f : PrefetchFilters) (w : World) : World * list Obs :=
  if same_filters (filters (this w)) f then (w, [])
  else
    let w := on_this (set_filters f) w in
    let w := on_this (set_seenIds ∅) w in
    let '(w, o1) := cancel (Some true) w in
    let '(w, o2) := fill w in
    (w, o1 ++ o2 ++ [ObsSetFilters (filters (this w))]).

(** The loop of [next], entered at its head with the clock reading [now]. *)
Definition next_loop (k : nat) (st tmo now : Z) (w : World) : World * list Obs :=
  if now - st <? tmo then
    match queue (this w) with
    | item :: rest =>
        let w := on_this (fun q => count_servedAfterWait (set_queue rest q)) w in
        let '(w, o) := fill w in
        (w, o ++ [ObsReturn k (Some item)])
    | [] => (set_waiters (mkNext k st tmo :: waiters w) w, [])
    end
  else (on_this count_timeout w, [ObsReturn k None]).

(** [next(timeoutMs = 8000)] up to its first [await]; [t0] is the reading
    taken for [start], [t1] the one of the first loop test. *)
Definition next (timeout : option Z) (t0 t1 : Z) (w : World) : World * list Obs :=
  let k := nextCall w in
  let w := set_nextCall (S k) w in
  match queue (this w) with
  | item :: rest =>
      let w := on_this (fun q => count_servedImmediate (set_queue rest q)) w in
      let '(w, o) := fill w in
      (w, o ++ [ObsReturn k (Some item)])
  | [] =>
      let '(w, o1) := fill w in
      let '(w, o2) := next_loop k t0 (default 8000 timeout) t1 w in
      (w, o1 ++ o2)
  end.

(** ** The event loop *)

(** One atomic step.  An event that has no addressee (a resolution for a
    coroutine that is not suspended there, a timer that was never set)
    changes nothing. *)
Definition step (w : World) (ev : Event) : World * list Obs :=
  match ev with
  | EvSetConfig opts => setConfig opts w
  | EvSetFilters f => setFilters f w
  | EvFill => fill w
  | EvNext tmo t0 t1 => next tmo t0 t1 w
  | EvCancel b => cancel b w
  | EvResetStats => (on_this resetStats w, [])
  | EvSupplier c r =>
      match find_task c (tasks w) with
      | Some t =>
          match phase t with
          | AwaitSupplier => fillOne_resume t r (set_tasks (drop_task c (tasks w)) w)
          | AwaitBackoff => (w, [])
          end
      | None => (w, [])
      end
  | EvBackoffDone c =>
      match find_task c (tasks w) with
      | Some t =>
          match phase t with
          | AwaitBackoff => fillOne_loop c (attempt t) (set_tasks (drop_task c (tasks w)) w)
          | AwaitSupplier => (w, [])
          end
      | None => (w, [])
      end
  | EvPoll k now =>
      match find_waiter k (waiters w) with
      | Some n => next_loop k (start n) (timeoutMs n) now (set_waiters (drop_waiter k (waiters w)) w)
      | None => (w, [])
      end
  | EvFillTimer =>
      match timers w with
      | S n => fill (set_timers n w)
      | O => (w, [])
      end
  end.

(** A run: the final world and everything observed, in order. *)
Fixpoint run (w : World) (evs : list Event) : World * list Obs :=
  match evs with
  | [] => (w, [])
  | ev :: evs =>
      let '(w, o1) := step w ev in
      let '(w, o2) := run w evs in
      (w, o1 ++ o2)
  end.

Definition final (w : World) (evs : list Event) : World := fst (run w evs).
Definition trace (w : World) (evs : list Event) : list Obs := snd (run w evs).

(** * Specification vocabulary *)

(** ** What a fill cycle does *)

(** Everything but the peak is left alone. *)
Definition same_counts (s s' : PrefetchStats) : Prop :=
  queued s' = queued s /\ servedImmediate s' = servedImmediate s /\
  servedAfterWait s' = servedAfterWait s /\ timeouts s' = timeouts s /\
  inFlightMax s <= inFlightMax s'.

(** Every controller of [inFlight] was allocated before [nextController]. *)
Definition allocated (w : World) : Prop :=
  forall c, c ∈ inFlight (this w) -> (c < nextController w)%nat.

Definition launched_at (w w' : World) (t : FillTask) : Prop :=
  (nextController w <= controller t < nextController w')%nat /\
  attempt t = 1%nat /\ phase t = AwaitSupplier.

(** [launches w w' new o]: [w'] is [w] after the coroutines [new] were
    started (most recent first), with [o] observed. *)
Record launches (w w' : World) (new : list FillTask) (o : list Obs) : Prop := {
  l_size : size (this w') = size (this w);
  l_concurrency : concurrency (this w') = concurrency (this w);
  l_queue : queue (this w') = queue (this w);
  l_seenIds : seenIds (this w') = seenIds (this w);
  l_filters : filters (this w') = filters (this w);
  l_filling : filling (this w') = filling (this w);
  l_stats : same_counts (stats (this w)) (stats (this w'));
  l_waiters : waiters w' = waiters w;
  l_aborted : aborted w' = aborted w;
  l_nextCall : nextCall w' = nextCall w;
  l_tasks : tasks w' = new ++ tasks w;
  l_inFlight : inFlight (this w') = inFlight (this w) ∪ list_to_set (controller <$> new);
  l_new : Forall (launched_at w w') new;
  l_nodup : NoDup (controller <$> new);
  l_next : (nextController w <= nextController w')%nat;
  l_room : new <> [] ->
           queue_length (this w) < size (this w) /\
           (allocated w -> Z.of_nat (base.size (inFlight (this w'))) <= concurrency (this w));
  l_obs : o = (fun t => ObsCall (controller t) (filters (this w))) <$> reverse new;
}.

(** ** Well-formed worlds *)

(** What holds of the coroutines whatever the environment does: each holds
    a controller of its own, allocated in the past; the handles of
    [inFlight] belong to coroutines that are still running; a coroutine is
    suspended only after its first [attempt++] and never past the sixth;
    no fill cycle is left open between two steps. *)
Record wf (w : World) : Prop := {
  wf_alloc : Forall (fun t => (controller t < nextController w)%nat) (tasks w);
  wf_nodup : NoDup (controller <$> tasks w);
  wf_inFlight : forall c, c ∈ inFlight (this w) -> c ∈ controller <$> tasks w;
  wf_attempt : Forall (fun t => (1 <= attempt t <= maxAttempts)%nat) (tasks w);
  wf_filling : filling (this w) = false;
}.

(** [running c w]: the world while the coroutine of [c] runs, between its
    resumption and its next suspension or its end; it is then on no list, and
    its handle may still be in [inFlight]. *)
Record running (c : nat) (w : World) : Prop := {
  r_alloc : Forall (fun t => (controller t < nextController w)%nat) (tasks w);
  r_nodup : NoDup (controller <$> tasks w);
  r_inFlight : forall c', c' ∈ inFlight (this w) -> c' = c \/ c' ∈ controller <$> tasks w;
  r_attempt : Forall (fun t => (1 <= attempt t <= maxAttempts)%nat) (tasks w);
  r_filling : filling (this w) = false;
  r_self : c ∉ controller <$> tasks w;
  r_self_alloc : (c < nextController w)%nat;
}.

(** ** Reading a trace *)

(** The items pushed into the queue, in order. *)
Fixpoint queued_items (tr : list Obs) : list MovieResult :=
  match tr with
  | [] => []
  | ObsQueued _ m :: tr => m :: queued_items tr
  | _ :: tr => queued_items tr
  end.

Definition queued_ids (tr : list Obs) : list Z := movie_id <$> queued_items tr.

(** What the calls of [next] returned, in order. *)
Fixpoint returns (tr : list Obs) : list (nat * option MovieResult) :=
  match tr with
  | [] => []
  | ObsReturn k r :: tr => (k, r) :: returns tr
  | _ :: tr => returns tr
  end.

(** The controllers on which [abort()] was called. *)
Fixpoint aborts (tr : list Obs) : list nat :=
  match tr with
  | [] => []
  | ObsAbort c :: tr => c :: aborts tr
  | _ :: tr => aborts tr
  end.

(** The Supplier calls made with the signal of [c]. *)
Fixpoint calls_of (c : nat) (tr : list Obs) : nat :=
  match tr with
  | [] => 0
  | ObsCall c' _ :: tr => (if Nat.eqb c' c then 1 else 0) + calls_of c tr
  | _ :: tr => calls_of c tr
  end.

(** The items pushed by the [fillOne] of [c]. *)
Fixpoint queued_by (c : nat) (tr : list Obs) : list MovieResult :=
  match tr with
  | [] => []
  | ObsQueued c' m :: tr => if Nat.eqb c' c then m :: queued_by c tr else queued_by c tr
  | _ :: tr => queued_by c tr
  end.

Definition is_setFilters (o : Obs) : bool :=
  match o with ObsSetFilters _ => true | _ => false end.

(** A trace agrees with a dedup history [seen]: an item is pushed only if
    its identifier is not in the history, which it then joins, and the
    history is emptied where the filters are replaced. *)
Fixpoint dedup_ok (seen : gset Z) (tr : list Obs) : Prop :=
  match tr with
  | [] => True
  | ObsQueued _ m :: tr => (movie_id m ∉ seen) /\ dedup_ok (seen ∪ {[movie_id m]}) tr
  | ObsSetFilters _ :: tr => dedup_ok ∅ tr
  | _ :: tr => dedup_ok seen tr
  end.

(** Observations that neither push nor replace the filters. *)
Definition quiet (o : Obs) : Prop :=
  match o with
  | ObsQueued _ _ | ObsSetFilters _ => False
  | _ => True
  end.

(** Events of the producer side: none of them takes an item out of the
    queue. *)
Definition produces (ev : Event) : Prop :=
  match ev with
  | EvNext _ _ _ | EvPoll _ _ | EvCancel _ | EvSetFilters _ => False
  | _ => True
  end.

(** Sample data. *)
Definition film (i : Z) : MovieResult := mkMovie "t" i "2000" (Some "7.0") "yt".

(** [one_epoch w evs]: no event of the run [evs] from [w] is a [setFilters]
    that changes the filters. *)
Fixpoint one_epoch (w : World) (evs : list Event) : bool :=
  match evs with
  | [] => true
  | ev :: evs =>
      match ev with
      | EvSetFilters f => same_filters (filters (this w)) f
      | _ => true
      end && one_epoch (fst (step w ev)) evs
  end.

Definition unmarked (tr : list Obs) : bool := forallb (fun o => negb (is_setFilters o)) tr.

(** The events of the call of [next] that the world numbers [k], when the
    tests of its loop read the clock as [readings]: the call itself, then
    one wake-up of its 50 ms sleep for each further reading. *)
Definition next_call (k : nat) (tmo : option Z) (t0 : Z) (readings : list Z) : list Event :=
  match readings with
  | [] => []
  | t1 :: later => EvNext tmo t0 t1 :: (EvPoll k <$> later)
  end.


(** ** One fetch attempt *)

(** What the [fillOne] that holds controller [c] may still do: [Some n], it
    runs (or is yet to be launched) and may call the Supplier [n] more
    times; [None], it has ended. *)
Definition status (c : nat) (w : World) : option nat :=
  match find_task c (tasks w) with
  | Some t => Some (maxAttempts - attempt t)%nat
  | None => if (c <? nextController w)%nat then None else Some maxAttempts
  end.

(** A trace keeps within what is left to [c]: each Supplier call made with
    the signal of [c] uses up one of the calls left, and a push by [c] ends
    the attempt. *)
Fixpoint attempt_ok (c : nat) (st : option nat) (tr : list Obs) : Prop :=
  match tr with
  | [] => True
  | ObsCall c' _ :: tr =>
      if Nat.eqb c' c then
        match st with
        | Some (S n) => attempt_ok c (Some n) tr
        | _ => False
        end
      else attempt_ok c st tr
  | ObsQueued c' _ :: tr =>
      if Nat.eqb c' c then
        match st with
        | Some _ => attempt_ok c None tr
        | None => False
        end
      else attempt_ok c st tr
  | _ :: tr => attempt_ok c st tr
  end.

(** [a] leaves no more than [b]. *)
Definition le_status (a b : option nat) : Prop :=
  match a, b with
  | None, _ => True
  | Some n, Some m => (n <= m)%nat
  | Some _, None => False
  end.

(** A Supplier that answers the attempt of [c] with the candidates [ms]. *)
Definition answers (c : nat) (ms : list MovieResult) : list Event :=
  (fun m => EvSupplier c (Candidate m)) <$> ms.

(** ** The concurrency ceiling *)

(** [inFlight.size <= concurrency] *)
Definition capped (w : World) : Prop :=
  Z.of_nat (base.size (inFlight (this w))) <= concurrency (this w).

(** No step of the run [evs] from [w] lowers [concurrency]. *)
Fixpoint keeps_limit (w : World) (evs : list Event) : bool :=
  match evs with
  | [] => true
  | ev :: evs =>
      (concurrency (this w) <=? concurrency (this (fst (step w ev))))
      && keeps_limit (fst (step w ev)) evs
  end.

(** No step of the run [evs] from [w] cancels: none is a [cancel], none a
    [setFilters] that changes the filters. *)
Fixpoint never_cancels (w : World) (evs : list Event) : bool :=
  match evs with
  | [] => true
  | ev :: evs =>
      match ev with
      | EvCancel _ => false
      | EvSetFilters f => same_filters (filters (this w)) f
      | _ => true
      end && never_cancels (fst (step w ev)) evs
  end.

(** ** Capacity *)

Definition awaits_supplier (t : FillTask) : bool :=
  match phase t with AwaitSupplier => true | AwaitBackoff => false end.

(** The attempts whose Supplier call is outstanding. *)
Definition awaiting (ts : list FillTask) : nat := length (List.filter awaits_supplier ts).

(** Every suspended attempt still has its handle in [inFlight]: none was
    cancelled. *)
Definition attached (w : World) : Prop :=
  forall t, t ∈ tasks w -> controller t ∈ inFlight (this w).

(** The queue and the outstanding calls together stay below
    [size + concurrency]. *)
Definition bounded (w : World) : Prop :=
  queue_length (this w) + Z.of_nat (awaiting (tasks w))
  <= Z.max 0 (size (this w) + concurrency (this w) - 1).

(** Events that neither reconfigure nor cancel. *)
Definition steady (ev : Event) : Prop :=
  match ev with
  | EvSetConfig _ | EvSetFilters _ | EvCancel _ => False
  | _ => True
  end.

(** Invocations of [fill] and answers of the Supplier. *)
Definition fill_or_answer (ev : Event) : bool :=
  match ev with
  | EvFill | EvSupplier _ _ => true
  | _ => false
  end.

(** No fill cycle is open, no attempt is suspended, nothing is in flight. *)
Definition at_rest (w : World) : Prop :=
  filling (this w) = false /\ tasks w = [] /\ inFlight (this w) = ∅.

(** The invariant of the steady runs. *)
Record settled (w : World) : Prop := {
  s_wf : wf w;
  s_attached : attached w;
  s_capped : capped w;
  s_bounded : bounded w;
}.

(** ** Back-off *)

(** [Math.floor(Math.random() * 80)]; [rnd] is what [Math.random()] returns. *)
Definition jitter (rnd : Q) : Z := Qfloor (rnd * 80).

(** [base * Math.pow(1.6, attempt)] *)
Definition backoff_base (attempt : nat) : Q := (120 * (8 # 5) ^ Z.of_nat attempt)%Q.

(** [base * Math.pow(1.6, attempt) + jitter] *)
Definition backoff_uncapped (attempt : nat) (rnd : Q) : Q :=
  (backoff_base attempt + inject_Z (jitter rnd))%Q.

(** The [delay] of [backoff(attempt)], in milliseconds. *)
Definition backoff (attempt : nat) (rnd : Q) : Q :=
  Qmin 1500 (backoff_uncapped attempt rnd).

(** * Further vocabulary *)

(** ** More of the prefetch queue *)

(** The items that calls of [next] returned, in order. *)
Fixpoint served_items (tr : list Obs) : list MovieResult :=
  match tr with
  | [] => []
  | ObsReturn _ (Some m) :: tr => m :: served_items tr
  | _ :: tr => served_items tr
  end.

(** How many calls of [next] returned [null]. *)
Fixpoint nulls (tr : list Obs) : nat :=
  match tr with
  | [] => 0
  | ObsReturn _ None :: tr => S (nulls tr)
  | _ :: tr => nulls tr
  end.

(** How many Supplier calls were started. *)
Fixpoint calls (tr : list Obs) : nat :=
  match tr with
  | [] => 0
  | ObsCall _ _ :: tr => S (calls tr)
  | _ :: tr => calls tr
  end.

Definition is_resetStats (ev : Event) : bool :=
  match ev with EvResetStats => true | _ => false end.

Definition is_setConfig (ev : Event) : bool :=
  match ev with EvSetConfig _ => true | _ => false end.

(** No step of the run [evs] from [w] empties the queue: no
    [cancel(true)], no [setFilters] that changes the filters. *)
Fixpoint keeps_queue (w : World) (evs : list Event) : bool :=
  match evs with
  | [] => true
  | ev :: evs =>
      match ev with
      | EvSetFilters f => same_filters (filters (this w)) f
      | EvCancel (Some true) => false
      | _ => true
      end && keeps_queue (fst (step w ev)) evs
  end.

(** A Supplier that answers the attempt of [c] with [null], [n] times, each
    back-off running to its end. *)
Fixpoint null_answers (c : nat) (n : nat) : list Event :=
  match n with
  | O => []
  | S n => EvSupplier c NoCandidate :: EvBackoffDone c :: null_answers c n
  end.

(** What a step adds to the counters is what it is observed to do. *)
Definition accounts (w w' : World) (o : list Obs) : Prop :=
  queued (stats (this w')) = queued (stats (this w)) + Z.of_nat (length (queued_items o)) /\
  servedImmediate (stats (this w')) + servedAfterWait (stats (this w'))
    = servedImmediate (stats (this w)) + servedAfterWait (stats (this w))
      + Z.of_nat (length (served_items o)) /\
  timeouts (stats (this w')) = timeouts (stats (this w)) + Z.of_nat (nulls o).

(** The queue before a step, with what the step pushes, is what the step
    serves followed by the queue after it. *)
Definition conserves (w w' : World) (o : list Obs) : Prop :=
  queue (this w) ++ queued_items o = served_items o ++ queue (this w').

(** [stats.inFlightMax] is at least the present size of the in-flight set. *)
Definition peaks (w : World) : Prop :=
  Z.of_nat (base.size (inFlight (this w))) <= inFlightMax (stats (this w)).

(** [stats.inFlightMax] is within the limit. *)
Definition under (w : World) : Prop :=
  0 <= concurrency (this w) /\ inFlightMax (stats (this w)) <= concurrency (this w).

(** [w'] is [w] after a step that observed [o]: the dedup history has
    grown by the identifiers of the items pushed, and by nothing else. *)
Definition remembers (w w' : World) (o : list Obs) : Prop :=
  seenIds (this w') = seenIds (this w) ∪ list_to_set (queued_ids o).

(** ** The rate limiter (src/utils/rateLimit.ts)

    The clock readings, the interval and the counts are integers.  The
    module holds one [Map], [limitMap]: it is passed to each function and
    returned by it. *)

Record RateLimitEntry := mkEntry {
  count : Z;
  resetAt : Z;
}.

Record RateLimitConfig := mkConfig {
  interval : Z;
  maxRequests : Z;
}.

Record RateLimitResult := mkResult {
  success : bool;
  limit : Z;
  remaining : Z;
  reset : Z;
}.

(** The default of the [config] parameter. *)
Definition defaultConfig : RateLimitConfig := mkConfig 60000 30.

(** [checkRateLimit(identifier, config)]; [now] is what [Date.now()]
    returns, [m] is [limitMap] before the call; the result comes with
    [limitMap] after the call. *)
Definition checkRateLimit (identifier : string) (config : RateLimitConfig) (now : Z)
    (m : gmap string RateLimitEntry) : RateLimitResult * gmap string RateLimitEntry :=
  let opened :=
    let newEntry := mkEntry 1 (now + interval config) in
    (mkResult true (maxRequests config) (maxRequests config - 1) (resetAt newEntry),
     <[identifier := newEntry]> m) in
  match m !! identifier with
  | None => opened
  | Some entry =>
      if resetAt entry <? now then opened
      else if maxRequests config <=? count entry then
        (mkResult false (maxRequests config) 0 (resetAt entry), m)
      else
        let entry := mkEntry (count entry + 1) (resetAt entry) in
        (mkResult true (maxRequests config) (maxRequests config - count entry) (resetAt entry),
         <[identifier := entry]> m)
  end.

(** The callback of the [setInterval]: entries whose window is over are
    deleted. *)
Definition cleanup (now : Z) (m : gmap string RateLimitEntry) : gmap string RateLimitEntry :=
  filter (fun kv => ~ resetAt kv.2 < now) m.

(** What happens to the limiter: a request, or a run of the cleanup. *)
Inductive LimiterEvent :=
  | Request (identifier : string) (config : RateLimitConfig) (now : Z)
  | Cleanup (now : Z).

Definition event_time (e : LimiterEvent) : Z :=
  match e with Request _ _ now => now | Cleanup now => now end.

Definition is_request (e : LimiterEvent) : bool :=
  match e with Request _ _ _ => true | Cleanup _ => false end.

Definition request_of (a : string) (e : LimiterEvent) : bool :=
  match e with Request id _ _ => bool_decide (id = a) | Cleanup _ => false end.

(** The answers to the requests of a sequence of events, each with its
    identifier, and the map left. *)
Fixpoint serve (es : list LimiterEvent) (m : gmap string RateLimitEntry)
    : list (string * RateLimitResult) * gmap string RateLimitEntry :=
  match es with
  | [] => ([], m)
  | Request id config now :: es =>
      let '(r, m) := checkRateLimit id config now m in
      let '(rs, m) := serve es m in
      ((id, r) :: rs, m)
  | Cleanup now :: es => serve es (cleanup now m)
  end.

(** Clock readings that do not go back. *)
Fixpoint ascending (t : Z) (es : list LimiterEvent) : Prop :=
  match es with
  | [] => True
  | e :: es => t <= event_time e /\ ascending (event_time e) es
  end.

(** The answers to [n] requests of one client, the first of which opens
    a window at [t0]: request number [i], from 0. *)
Definition window_answer (config : RateLimitConfig) (t0 : Z) (i : nat) : RateLimitResult :=
  if Z.of_nat i <? Z.max 1 (maxRequests config)
  then mkResult true (maxRequests config) (maxRequests config - (Z.of_nat i + 1))
                (t0 + interval config)
  else mkResult false (maxRequests config) 0 (t0 + interval config).

(** Two maps that answer alike from time [t] on: at every key they hold
    the same entry, or each holds none or one whose window was over
    before [t]. *)
Definition over_at (t : Z) (e : option RateLimitEntry) : Prop :=
  match e with None => True | Some e => resetAt e < t end.

Definition alike (t : Z) (m1 m2 : gmap string RateLimitEntry) : Prop :=
  forall k, m1 !! k = m2 !! k \/ (over_at t (m1 !! k) /\ over_at t (m2 !! k)).

(** Every counter is between 1 and [M]. *)
Definition counts_within (M : Z) (m : gmap string RateLimitEntry) : Prop :=
  forall k e, m !! k = Some e -> 1 <= count e <= M.

(** The identifiers of the requests of a sequence of events. *)
Definition identifiers (es : list LimiterEvent) : list string :=
  omap (fun e => match e with Request id _ _ => Some id | Cleanup _ => None end) es.

(** The requests of a sequence all use a configuration with the limit [M]. *)
Definition limit_is (M : Z) (e : LimiterEvent) : Prop :=
  match e with Request _ config _ => maxRequests config = M | Cleanup _ => True end.

(** The number of requests of [a] that were allowed. *)
Definition allowed (a : string) (rs : list (string * RateLimitResult)) : Z :=
  Z.of_nat (length (filter (fun r => r.1 = a /\ success r.2 = true) rs)).

(** What an entry still allows between [u] and [u + I]: the rest of its
    window, and a whole new window if its own ends before [u + I]. *)
Definition budget (M I u : Z) (o : option RateLimitEntry) : Z :=
  match o with
  | None => M
  | Some e =>
      if u + I <=? resetAt e then Z.max 0 (M - count e)
      else Z.max 0 (M - count e) + M
  end.

(** The requests of [a] use the configuration [config]. *)
Definition config_of (a : string) (config : RateLimitConfig) (e : LimiterEvent) : Prop :=
  match e with
  | Request id c _ => id = a -> c = config
  | Cleanup _ => True
  end.

Definition counted (o : option RateLimitEntry) : Prop :=
  match o with None => True | Some e => 1 <= count e end.

(** ** Strings of the platform

    A string is the sequence of its code units, each below 256 here: an
    HTTP header value holds no other, and the dates and language tags that
    the regular expressions accept hold only ASCII. *)

(** The white space and line terminators that [String.prototype.trim]
    removes, among the code units below 256: TAB, LF, VT, FF, CR, SP and
    NBSP. *)
Definition is_white (c : Ascii.ascii) : bool :=
  match Ascii.nat_of_ascii c with
  | 9 | 10 | 11 | 12 | 13 | 32 | 160 => true
  | _ => false
  end%nat.

Fixpoint trimStart (s : string) : string :=
  match s with
  | String c s' => if is_white c then trimStart s' else s
  | EmptyString => EmptyString
  end.

Definition trimEnd (s : string) : string := String.rev (trimStart (String.rev s)).

Definition trim (s : string) : string := trimEnd (trimStart s).

(** [s.split(',')[0]]: what comes before the first comma. *)
Fixpoint split_head (s : string) : string :=
  match s with
  | String c s' => if Ascii.eqb c ","%char then EmptyString else String c (split_head s')
  | EmptyString => EmptyString
  end.

Fixpoint comma_free (s : string) : bool :=
  match s with
  | String c s' => negb (Ascii.eqb c ","%char) && comma_free s'
  | EmptyString => true
  end.

(** The truth value of a string that may be [null] or [undefined]. *)
Definition truthy (v : option string) : bool :=
  match v with
  | Some s => negb (String.eqb s "")
  | None => false
  end.

(** [v || d]. *)
Definition or_else (v : option string) (d : string) : string :=
  match v with
  | Some s => if String.eqb s "" then d else s
  | None => d
  end.

Definition is_digit (c : Ascii.ascii) : bool :=
  ((48 <=? Ascii.nat_of_ascii c) && (Ascii.nat_of_ascii c <=? 57))%nat.

Definition is_lower (c : Ascii.ascii) : bool :=
  ((97 <=? Ascii.nat_of_ascii c) && (Ascii.nat_of_ascii c <=? 122))%nat.

Definition is_upper (c : Ascii.ascii) : bool :=
  ((65 <=? Ascii.nat_of_ascii c) && (Ascii.nat_of_ascii c <=? 90))%nat.

Definition is_dash (c : Ascii.ascii) : bool := Ascii.eqb c "-"%char.

(** [/^\d{4}-\d{2}-\d{2}$/.test(s)] *)
Definition date_re (s : string) : bool :=
  match String.list_ascii_of_string s with
  | [y1; y2; y3; y4; d1; m1; m2; d2; a1; a2] =>
      is_digit y1 && is_digit y2 && is_digit y3 && is_digit y4 && is_dash d1 &&
      is_digit m1 && is_digit m2 && is_dash d2 && is_digit a1 && is_digit a2
  | _ => false
  end.

(** [/^[a-z]{2,3}-[A-Z]{2}$/.test(s)] *)
Definition language_re (s : string) : bool :=
  match String.list_ascii_of_string s with
  | [l1; l2; d; r1; r2] =>
      is_lower l1 && is_lower l2 && is_dash d && is_upper r1 && is_upper r2
  | [l1; l2; l3; d; r1; r2] =>
      is_lower l1 && is_lower l2 && is_lower l3 && is_dash d && is_upper r1 && is_upper r2
  | _ => false
  end.

(** ** The identifier of a client (src/utils/rateLimit.ts)

    [headers.get(name)] is the lookup in a map from the lower-case header
    names. *)
Definition getClientIdentifier (headers : gmap string string) : string :=
  let forwarded := headers !! "x-forwarded-for" in
  if truthy forwarded then trim (split_head (default "" forwarded))
  else
    let realIp := headers !! "x-real-ip" in
    if truthy realIp then default "" realIp
    else "unknown".

(** ** The environment (src/utils/env.ts) *)

Inductive EnvKey := TMDB_TOKEN | TMDB_API_KEY | OMDB_API_KEY.

(** [process.env], read at the keys of [EnvConfig]. *)
Definition ProcessEnv := EnvKey -> option string.

Record ValidationResult := mkValidation {
  isValid : bool;
  errors : list string;
  warnings : list string;
}.

Definition nl : string := String (Ascii.ascii_of_nat 10) "".

Definition validateEnv (env : ProcessEnv) : ValidationResult :=
  let errors : list string := [] in
  let warnings : list string := [] in
  let '(errors, warnings) :=
    if negb (truthy (env TMDB_TOKEN)) && negb (truthy (env TMDB_API_KEY)) then
      (errors ++ ["Missing TMDB authentication: Either TMDB_TOKEN or TMDB_API_KEY must be set."
                  +:+ nl +:+ "Get your API key at: https://www.themoviedb.org/settings/api"],
       warnings)
    else if negb (truthy (env TMDB_TOKEN)) && truthy (env TMDB_API_KEY) then
      (errors,
       warnings ++ ["Using TMDB_API_KEY (v3). Consider using TMDB_TOKEN (v4) for better performance."
                    +:+ nl +:+ "Get your v4 token at: https://www.themoviedb.org/settings/api"])
    else (errors, warnings) in
  let errors :=
    if negb (truthy (env OMDB_API_KEY)) then
      errors ++ ["Missing OMDB_API_KEY: Required for fetching IMDb ratings."
                 +:+ nl +:+ "Get your free API key at: https://www.omdbapi.com/apikey.aspx"]
    else errors in
  let warnings :=
    if truthy (env OMDB_API_KEY)
       && (String.length (default "" (env OMDB_API_KEY)) <? 6)%nat then
      warnings ++ ["OMDB_API_KEY looks too short. Make sure you copied the full key."]
    else warnings in
  let warnings :=
    if truthy (env TMDB_TOKEN)
       && negb (String.prefix "eyJ" (default "" (env TMDB_TOKEN))) then
      warnings ++ ["TMDB_TOKEN doesn't look like a JWT token. Make sure you're using the v4 Read Access Token, not the API key."]
    else warnings in
  mkValidation (length errors =? 0)%nat errors warnings.

Definition key_name (key : EnvKey) : string :=
  match key with
  | TMDB_TOKEN => "TMDB_TOKEN"
  | TMDB_API_KEY => "TMDB_API_KEY"
  | OMDB_API_KEY => "OMDB_API_KEY"
  end.

(** [getEnvVar(key)]: the value, or the message of the error thrown. *)
Definition getEnvVar (env : ProcessEnv) (key : EnvKey) : string + string :=
  let value := env key in
  if negb (truthy value) then
    inr ("Missing required environment variable: " +:+ key_name key +:+ nl +:+
         "Please check your .env.local file and ensure all required variables are set."
         +:+ nl +:+ "Run the validation utility for more details.")
  else inl (default "" value).

Fixpoint getEnvWithFallback (env : ProcessEnv) (keys : list EnvKey) : option string :=
  match keys with
  | [] => None
  | key :: keys =>
      let value := env key in
      if truthy value then value else getEnvWithFallback env keys
  end.

(** ** The route (app/api/random-movie/route.ts) *)

(** The state of the module: [envValidated], and the [limitMap] of the
    rate limiter it imports. *)
Record Server := mkServer {
  envValidated : bool;
  limitMap : gmap string RateLimitEntry;
}.

Definition started : Server := mkServer false ∅.

(** [ensureEnvValid()]: the message of the error thrown, if any, and
    [envValidated] afterwards. *)
Definition ensureEnvValid (env : ProcessEnv) (validated : bool) : option string * bool :=
  if negb validated then
    let result := validateEnv env in
    if negb (isValid result) then
      (Some ("Environment validation failed:" +:+ nl +:+ String.concat nl (errors result)),
       validated)
    else (None, true)
  else (None, validated).

(** What a request brings, and what the platform tells while [GET] runs
    up to its first [await]: the environment, the clock, the year. *)
Record Req := mkReq {
  req_env : ProcessEnv;
  req_headers : gmap string string;
  req_now : Z;
  req_year : string;
  req_startYear : option string;
  req_endYear : option string;
  req_language : option string;
}.

(** How [GET] goes on after its synchronous part: it answers at once, or it
    enters the loop of attempts with the checked parameters. *)
Inductive Reply :=
  | Unexpected
  | TooManyRequests (rateLimit : RateLimitResult)
  | NotConfigured (rateLimit : RateLimitResult)
  | Proceed (rateLimit : RateLimitResult) (startYear endYear language : string)
           (authorization api_key : option string).

(** [GET(req)] from line 36 to line 107, where the loop of attempts with
    its first [await] begins.  The headers of the rate limit are kept as
    the [RateLimitResult] they are written from.  An error thrown by
    [ensureEnvValid] is caught at the end of [GET]; nothing else throws
    here.  [req_year q] is the text of [new Date().getFullYear()], which
    is read twice, in lines 75 and 77: the two readings are taken to
    agree. *)
Definition GET (q : Req) (s : Server) : Reply * Server :=
  match ensureEnvValid (req_env q) (envValidated s) with
  | (Some _, validated) => (Unexpected, mkServer validated (limitMap s))
  | (None, validated) =>
      let clientId := getClientIdentifier (req_headers q) in
      let '(rateLimit, m) := checkRateLimit clientId (mkConfig 60000 30) (req_now q) (limitMap s) in
      let s := mkServer validated m in
      if negb (success rateLimit) then (TooManyRequests rateLimit, s)
      else
        let token := req_env q TMDB_TOKEN in
        let tmdbApiKey := req_env q TMDB_API_KEY in
        let omdbKey := req_env q OMDB_API_KEY in
        if (negb (truthy token) && negb (truthy tmdbApiKey)) || negb (truthy omdbKey) then
          (NotConfigured rateLimit, s)
        else
          let startYearRaw := or_else (req_startYear q) "1990-01-01" in
          let endYearRaw := or_else (req_endYear q) (req_year q +:+ "-12-31") in
          let startYear := if date_re startYearRaw then startYearRaw else "1990-01-01" in
          let endYear := if date_re endYearRaw then endYearRaw else req_year q +:+ "-12-31" in
          let languageRaw := or_else (req_language q) "en-US" in
          let language := if language_re languageRaw then languageRaw else "en-US" in
          (Proceed rateLimit startYear endYear language
             (if truthy token then Some ("Bearer " +:+ default "" token) else None)
             (if truthy tmdbApiKey then tmdbApiKey else None),
           s)
  end.

(** The replies to a sequence of requests. *)
Fixpoint GETs (qs : list Req) (s : Server) : list Reply * Server :=
  match qs with
  | [] => ([], s)
  | q :: qs =>
      let '(r, s) := GET q s in
      let '(rs, s) := GETs qs s in
      (r :: rs, s)
  end.

Definition refused (r : Reply) : bool :=
  match r with TooManyRequests _ => true | _ => false end.

Definition searching (r : Reply) : bool :=
  match r with Proceed _ _ _ _ _ _ => true | _ => false end.

Definition configured (env : ProcessEnv) : bool :=
  (truthy (env TMDB_TOKEN) || truthy (env TMDB_API_KEY)) && truthy (env OMDB_API_KEY).

(** ** The client of the route (src/api/tmdb.ts) *)

Inductive Boundary := YearStart | YearEnd.

(** [Math.trunc] of a finite number. *)
Definition trunc (x : Q) : Z := Z.quot (Qnum x) (Zpos (Qden x)).

Definition suffix_of (boundary : Boundary) : string :=
  match boundary with YearStart => "-01-01" | YearEnd => "-12-31" end.

(** [normalizeYear(year, boundary)].  [None] is a [year] that is not a
    finite number: [undefined], [NaN], an infinity. *)
Definition normalizeYear (year : option Q) (boundary : Boundary) : option string :=
  match year with
  | None => None
  | Some year =>
      let safeYear := trunc year in
      if safeYear <? 1900 then
        Some (match boundary with YearStart => "1900-01-01" | YearEnd => "1900-12-31" end)
      else if 2100 <? safeYear then
        Some (match boundary with YearStart => "2100-01-01" | YearEnd => "2100-12-31" end)
      else
        Some (match boundary with
              | YearStart => pretty safeYear +:+ "-01-01"
              | YearEnd => pretty safeYear +:+ "-12-31"
              end)
  end.

Definition normalizeLanguage (language : option string) : option string :=
  if negb (truthy language) then None
  else
    let trimmed := trim (default "" language) in
    if language_re trimmed then Some trimmed else None.

(** The year between the bounds the client keeps. *)
Definition clamp_year (y : Z) : Z := Z.max 1900 (Z.min 2100 y).

(** What the route asks of the rate limiter for a request. *)
Definition limiter_event (q : Req) : LimiterEvent :=
  Request (getClientIdentifier (req_headers q)) (mkConfig 60000 30) (req_now q).

(** ** The address the client asks (src/api/tmdb.ts)

    [URLSearchParams] as the list of its pairs; [toString] is the
    serializer of [application/x-www-form-urlencoded]: letters, digits and
    [*-._] stay, a space becomes [+], any other code unit becomes the
    percent escapes of its UTF-8 bytes. *)

Definition form_safe (c : Ascii.ascii) : bool :=
  is_digit c || is_lower c || is_upper c ||
  Ascii.eqb c "*"%char || Ascii.eqb c "-"%char || Ascii.eqb c "."%char || Ascii.eqb c "_"%char.

Definition hex (n : nat) : Ascii.ascii :=
  nth n (String.list_ascii_of_string "0123456789ABCDEF") "0"%char.

Definition percent (n : nat) : string :=
  String "%"%char (String (hex (n / 16)) (String (hex (n mod 16)) "")).

Definition form_encode_unit (c : Ascii.ascii) : string :=
  if form_safe c then String c ""
  else if Ascii.eqb c " "%char then "+"
  else
    let n := Ascii.nat_of_ascii c in
    if (n <? 128)%nat then percent n
    else percent (192 + n / 64) +:+ percent (128 + n mod 64).

Fixpoint form_encode (s : string) : string :=
  match s with
  | String c s' => form_encode_unit c +:+ form_encode s'
  | EmptyString => EmptyString
  end.

Fixpoint params_set (name value : string) (params : list (string * string))
    : list (string * string) :=
  match params with
  | [] => [(name, value)]
  | (k, v) :: params =>
      if String.eqb k name
      then (k, value) :: List.filter (fun p => negb (String.eqb p.1 name)) params
      else (k, v) :: params_set name value params
  end.

Definition params_toString (params : list (string * string)) : string :=
  String.concat "&" ((fun p => form_encode p.1 +:+ "=" +:+ form_encode p.2) <$> params).

(** The options that [buildRandomMovieUrl] reads. *)
Record FetchOptions := mkFetch {
  opts_startYear : option Q;
  opts_endYear : option Q;
  opts_language : option string;
}.

Definition buildRandomMovieUrl (opts : FetchOptions) : string :=
  let params : list (string * string) := [] in
  let start := normalizeYear (opts_startYear opts) YearStart in
  let end_ := normalizeYear (opts_endYear opts) YearEnd in
  let language := normalizeLanguage (opts_language opts) in
  let params := if truthy start then params_set "startYear" (default "" start) params
                else params in
  let params := if truthy end_ then params_set "endYear" (default "" end_) params
                else params in
  let params := if truthy language then params_set "language" (default "" language) params
                else params in
  let qs := params_toString params in
  if negb (String.eqb qs "") then "/api/random-movie?" +:+ qs else "/api/random-movie".

(** A parameter written without escapes. *)
Definition in_clear (name : string) (value : option string) : option string :=
  (fun v => name +:+ "=" +:+ v) <$> value.

(** * Properties *)

(** ** What a fill cycle does *)

Lemma same_counts_refl s : same_counts s s.
Proof. unfold same_counts; repeat split; lia. Qed.

Lemma same_counts_trans s1 s2 s3 :
  same_counts s1 s2 -> same_counts s2 s3 -> same_counts s1 s3.
Proof. unfold same_counts; intros; repeat split; lia. Qed.

Lemma launches_refl w : launches w w [] [].
Proof.
  split; try reflexivity; try apply same_counts_refl.
  - set_solver.
  - constructor.
  - constructor.
  - congruence.
Qed.

Lemma launched_at_mono w1 w1' w2 w2' t :
  (nextController w2 <= nextController w1)%nat ->
  (nextController w1' <= nextController w2')%nat ->
  launched_at w1 w1' t -> launched_at w2 w2' t.
Proof. unfold launched_at; intros; intuition lia. Qed.

Lemma launches_trans w w1 w2 n1 n2 o1 o2 :
  launches w w1 n1 o1 -> launches w1 w2 n2 o2 -> launches w w2 (n2 ++ n1) (o1 ++ o2).
Proof.
  intros A B.
  assert (Hal : allocated w -> allocated w1).
  { intros Hw c Hc. rewrite (l_inFlight _ _ _ _ A) in Hc.
    apply elem_of_union in Hc as [Hc|Hc].
    - pose proof (Hw c Hc). pose proof (l_next _ _ _ _ A). lia.
    - apply elem_of_list_to_set, list_elem_of_fmap in Hc as (t & -> & Ht).
      pose proof (l_new _ _ _ _ A) as F. rewrite Forall_forall in F.
      destruct (F t Ht) as [? _]. lia. }
  split.
  - rewrite (l_size _ _ _ _ B). apply A.
  - rewrite (l_concurrency _ _ _ _ B). apply A.
  - rewrite (l_queue _ _ _ _ B). apply A.
  - rewrite (l_seenIds _ _ _ _ B). apply A.
  - rewrite (l_filters _ _ _ _ B). apply A.
  - rewrite (l_filling _ _ _ _ B). apply A.
  - eapply same_counts_trans; [apply A | apply B].
  - rewrite (l_waiters _ _ _ _ B). apply A.
  - rewrite (l_aborted _ _ _ _ B). apply A.
  - rewrite (l_nextCall _ _ _ _ B). apply A.
  - rewrite (l_tasks _ _ _ _ B), (l_tasks _ _ _ _ A). by rewrite app_assoc.
  - rewrite (l_inFlight _ _ _ _ B), (l_inFlight _ _ _ _ A), fmap_app, list_to_set_app_L.
    set_solver.
  - apply Forall_app; split.
    + eapply Forall_impl; [apply B|]. intros t. apply launched_at_mono; [apply A | lia].
    + eapply Forall_impl; [apply A|]. intros t. apply launched_at_mono; [lia | apply B].
  - rewrite fmap_app. apply NoDup_app. split; [apply B|]. split; [|apply A].
    intros c H2 H1.
    apply list_elem_of_fmap in H2 as (t2 & -> & H2), H1 as (t1 & E & H1).
    pose proof (l_new _ _ _ _ A) as F1. pose proof (l_new _ _ _ _ B) as F2.
    rewrite Forall_forall in F1, F2.
    destruct (F1 t1 H1) as [? _], (F2 t2 H2) as [? _]. lia.
  - pose proof (l_next _ _ _ _ A). pose proof (l_next _ _ _ _ B). lia.
  - intros Hne. destruct n2 as [|t2 n2'].
    + destruct (l_room _ _ _ _ A) as [Hq Hc]; [by destruct n1|].
      split; [exact Hq|]. intros Hw.
      rewrite (l_inFlight _ _ _ _ B). cbn. rewrite union_empty_r_L.
      by apply Hc.
    + destruct (l_room _ _ _ _ B) as [Hq Hc]; [done|].
      split.
      * unfold queue_length in *. rewrite <- (l_queue _ _ _ _ A), <- (l_size _ _ _ _ A). exact Hq.
      * intros Hw. rewrite <- (l_concurrency _ _ _ _ A). apply Hc, Hal, Hw.
  - rewrite (l_obs _ _ _ _ A), (l_obs _ _ _ _ B), reverse_app, fmap_app.
    by rewrite (l_filters _ _ _ _ A).
Qed.

Lemma tick_turn_launches w :
  wants_more (this w) = true ->
  launches w (fst (tick_turn w))
    [mkFill (nextController w) 1 AwaitSupplier] (snd (tick_turn w)).
Proof.
  intros Hm. unfold wants_more in Hm. apply andb_true_iff in Hm as [Hq Hc].
  unfold tick_turn, fillOne, fillOne_loop. cbn [this on_this set_this set_nextController].
  unfold queue_length in *. cbn. rewrite Hq. cbn.
  apply Z.ltb_lt in Hq, Hc.
  split; cbn; try reflexivity.
  - unfold same_counts; cbn; repeat split; lia.
  - set_solver.
  - repeat constructor; cbn; lia.
  - apply NoDup_singleton.
  - lia.
  - intros _. split; [unfold queue_length; lia|]. intros Hw.
    rewrite size_union, size_singleton; [lia|].
    intros c Hc1 Hc2. apply elem_of_singleton in Hc2 as ->.
    specialize (Hw _ Hc1). lia.
Qed.

Lemma tick_loop_unfold fuel w :
  tick_loop (S fuel) w =
    if wants_more (this w) then
      let '(w1, o1) := tick_turn w in
      let '(w2, o2) := tick_loop fuel w1 in (w2, o1 ++ o2)
    else (w, []).
Proof. reflexivity. Qed.

Lemma tick_loop_launches fuel : forall w,
  exists new, launches w (fst (tick_loop fuel w)) new (snd (tick_loop fuel w)).
Proof.
  induction fuel as [|fuel IH]; intros w.
  - exists []. apply launches_refl.
  - rewrite tick_loop_unfold. destruct (wants_more (this w)) eqn:Hm.
    + pose proof (tick_turn_launches w Hm) as A.
      destruct (tick_turn w) as [w1 o1]. cbn [fst snd] in A.
      destruct (IH w1) as [new B]. destruct (tick_loop fuel w1) as [w2 o2]. cbn [fst snd] in *.
      eexists. eapply launches_trans; eassumption.
    + exists []. apply launches_refl.
Qed.

Lemma tick_loop_timers fuel : forall w, timers (fst (tick_loop fuel w)) = timers w.
Proof.
  induction fuel as [|fuel IH]; intros w; [reflexivity|].
  rewrite tick_loop_unfold. destruct (wants_more (this w)); [|reflexivity].
  assert (T : timers (fst (tick_turn w)) = timers w).
  { unfold tick_turn, fillOne, fillOne_loop. cbn.
    destruct (queue_length _ <? _); reflexivity. }
  destruct (tick_turn w) as [w1 o1]. specialize (IH w1).
  destruct (tick_loop fuel w1) as [w2 o2]. cbn [fst] in *. congruence.
Qed.

(** The fuel given to the loop is enough: when it stops, its condition is
    false, as at the exit of the [while]. *)
Lemma tick_loop_done fuel : forall w,
  allocated w ->
  (Z.to_nat (concurrency (this w) - Z.of_nat (base.size (inFlight (this w)))) <= fuel)%nat ->
  wants_more (this (fst (tick_loop fuel w))) = false.
Proof.
  induction fuel as [|fuel IH]; intros w Hw Hf.
  - cbn. unfold wants_more. apply andb_false_iff. right. apply Z.ltb_ge. lia.
  - rewrite tick_loop_unfold. destruct (wants_more (this w)) eqn:Hm; [|exact Hm].
    pose proof (tick_turn_launches w Hm) as A.
    destruct (tick_turn w) as [w1 o1]. cbn [fst snd] in A.
    specialize (IH w1). destruct (tick_loop fuel w1) as [w2 o2]. cbn [fst snd] in *.
    apply IH.
    + intros c Hc. rewrite (l_inFlight _ _ _ _ A) in Hc.
      pose proof (l_new _ _ _ _ A) as F. apply Forall_singleton in F as [F _]. cbn in F.
      apply elem_of_union in Hc as [Hc|Hc]; [specialize (Hw _ Hc); lia|].
      cbn in Hc. set_solver by lia.
    + rewrite (l_concurrency _ _ _ _ A), (l_inFlight _ _ _ _ A). cbn.
      rewrite size_union, size_union, size_singleton, size_empty.
      * lia.
      * set_solver.
      * intros c Hc1 Hc2. specialize (Hw _ Hc1). set_solver by lia.
Qed.

Lemma fill_launches w :
  exists new, launches w (fst (fill w)) new (snd (fill w)).
Proof.
  unfold fill. destruct (filling (this w)) eqn:Hf.
  - exists []. apply launches_refl.
  - set (w0 := on_this (set_filling true) w).
    destruct (tick_loop_launches (tick_fuel (this w0)) w0) as [new A].
    destruct (tick_loop _ w0) as [w1 o1]. cbn [fst snd] in *.
    exists new.
    assert (B : launches w (on_this (set_filling false) w1) new o1).
    { destruct A. split; cbn in *; try assumption; congruence. }
    destruct (wants_more (this (on_this (set_filling false) w1))); cbn [fst snd]; [|exact B].
    destruct B. split; cbn in *; assumption.
Qed.

(** A fill cycle that ran leaves nothing to launch, so it never arms the
    [setTimeout(() => this.fill(), 10)] of its [finally]. *)
Lemma fill_done w :
  allocated w -> filling (this w) = false ->
  wants_more (this (fst (fill w))) = false /\ timers (fst (fill w)) = timers w.
Proof.
  intros Hw Hf. unfold fill. rewrite Hf.
  set (w0 := on_this (set_filling true) w).
  pose proof (tick_loop_done (tick_fuel (this w0)) w0) as D.
  destruct (tick_loop (tick_fuel (this w0)) w0) as [w1 o1] eqn:Hl. cbn [fst snd] in *.
  assert (E : wants_more (this (on_this (set_filling false) w1)) = false).
  { unfold wants_more, queue_length in *. cbn. apply D; [exact Hw | unfold tick_fuel; lia]. }
  rewrite E. cbn [fst]. split; [exact E|].
  pose proof (tick_loop_timers (tick_fuel (this w0)) w0) as T.
  rewrite Hl in T. cbn in T. exact T.
Qed.

(** ** Suspended coroutines *)

Lemma find_task_Some c ts t :
  find_task c ts = Some t -> t ∈ ts /\ controller t = c.
Proof.
  unfold find_task. intros H. apply List.find_some in H as [H1 H2].
  split; [by apply list_elem_of_In | by apply Nat.eqb_eq].
Qed.

Lemma find_task_None c ts :
  find_task c ts = None -> c ∉ controller <$> ts.
Proof.
  unfold find_task. intros H Hc. apply list_elem_of_fmap in Hc as (t & -> & Ht).
  apply list_elem_of_In in Ht.
  pose proof (List.find_none _ _ H t Ht) as E. cbn in E.
  by rewrite Nat.eqb_refl in E.
Qed.

Lemma elem_of_drop_task c ts t :
  t ∈ drop_task c ts <-> t ∈ ts /\ controller t <> c.
Proof.
  unfold drop_task. rewrite !list_elem_of_In, List.filter_In, negb_true_iff, Nat.eqb_neq.
  reflexivity.
Qed.

Lemma drop_task_NoDup c ts :
  NoDup (controller <$> ts) -> NoDup (controller <$> drop_task c ts).
Proof.
  induction ts as [|t ts IH]; cbn; [done|].
  intros H. apply NoDup_cons in H as [H1 H2].
  destruct (negb (controller t =? c)%nat); cbn; [|by apply IH].
  apply NoDup_cons. split; [|by apply IH].
  intros Hc. apply H1. apply list_elem_of_fmap in Hc as (t' & E & Ht').
  apply elem_of_drop_task in Ht' as [Ht' _]. apply list_elem_of_fmap. eauto.
Qed.

Lemma not_elem_of_drop_task c ts : c ∉ controller <$> drop_task c ts.
Proof.
  intros Hc. apply list_elem_of_fmap in Hc as (t & E & Ht).
  apply elem_of_drop_task in Ht as [_ Ht]. congruence.
Qed.

Lemma drop_task_Forall (P : FillTask -> Prop) c ts :
  Forall P ts -> Forall P (drop_task c ts).
Proof.
  rewrite !Forall_forall. intros H t Ht. apply elem_of_drop_task in Ht as [Ht _]. auto.
Qed.

Lemma drop_task_length c ts t :
  NoDup (controller <$> ts) -> t ∈ ts -> controller t = c ->
  length ts = S (length (drop_task c ts)).
Proof.
  induction ts as [|t' ts IH]; cbn; intros Hn Ht Hc; [by apply elem_of_nil in Ht|].
  apply NoDup_cons in Hn as [Hn1 Hn2].
  destruct (Nat.eqb_spec (controller t') c) as [E|E]; cbn.
  - f_equal. unfold drop_task. symmetry. f_equal.
    apply List.forallb_filter_id, List.forallb_forall. intros x Hx.
    apply negb_true_iff, Nat.eqb_neq. intros Ex. apply Hn1. rewrite E, <- Ex.
    apply list_elem_of_fmap. exists x. split; [done|by apply list_elem_of_In].
  - f_equal. apply elem_of_cons in Ht as [->|Ht]; [congruence|]. by apply IH.
Qed.

Lemma wf_allocated w : wf w -> allocated w.
Proof.
  intros H c Hc. apply (wf_inFlight _ H), list_elem_of_fmap in Hc as (t & -> & Ht).
  pose proof (wf_alloc _ H) as F. rewrite Forall_forall in F. by apply F.
Qed.

Lemma wf_boot q : inFlight q = ∅ -> filling q = false -> wf (boot q).
Proof.
  intros H1 H2. split; cbn; try constructor; try done. rewrite H1. set_solver.
Qed.

Lemma wf_same w w' :
  tasks w' = tasks w -> inFlight (this w') ⊆ inFlight (this w) ->
  nextController w' = nextController w -> filling (this w') = filling (this w) ->
  wf w -> wf w'.
Proof.
  intros E1 E2 E3 E4 []. split; rewrite ?E1, ?E3, ?E4; try assumption.
  intros c Hc. apply wf_inFlight0. set_solver.
Qed.

Lemma launches_wf w w' new o : launches w w' new o -> wf w -> wf w'.
Proof.
  intros L H. destruct H.
  pose proof (l_new _ _ _ _ L) as F. rewrite Forall_forall in F.
  split.
  - rewrite (l_tasks _ _ _ _ L). apply Forall_app. split.
    + apply Forall_forall. intros t Ht. destruct (F t Ht) as [? _]. lia.
    + eapply Forall_impl; [exact wf_alloc0|]. cbn. intros t Ht.
      pose proof (l_next _ _ _ _ L). lia.
  - rewrite (l_tasks _ _ _ _ L), fmap_app. apply NoDup_app.
    split; [apply L|]. split; [|assumption].
    intros c H1 H2. apply list_elem_of_fmap in H1 as (t1 & -> & H1), H2 as (t2 & E & H2).
    destruct (F t1 H1) as [? _]. rewrite Forall_forall in wf_alloc0.
    specialize (wf_alloc0 t2 H2). lia.
  - intros c Hc. rewrite (l_inFlight _ _ _ _ L) in Hc. rewrite (l_tasks _ _ _ _ L), fmap_app.
    apply elem_of_app. apply elem_of_union in Hc as [Hc|Hc]; [right; auto|left].
    by apply elem_of_list_to_set in Hc.
  - rewrite (l_tasks _ _ _ _ L). apply Forall_app. split; [|assumption].
    apply Forall_forall. intros t Ht. destruct (F t Ht) as (_ & -> & _). unfold maxAttempts. lia.
  - rewrite (l_filling _ _ _ _ L). assumption.
Qed.

Lemma fill_wf w : wf w -> wf (fst (fill w)).
Proof. intros H. destruct (fill_launches w) as [new L]. eapply launches_wf; eassumption. Qed.

Lemma resume_running c t w :
  wf w -> find_task c (tasks w) = Some t ->
  running c (set_tasks (drop_task c (tasks w)) w) /\ (1 <= attempt t <= maxAttempts)%nat.
Proof.
  intros [] Hf. apply find_task_Some in Hf as [Ht Hc].
  rewrite Forall_forall in wf_alloc0, wf_attempt0.
  split; [split; cbn|]; try assumption.
  - apply drop_task_Forall, Forall_forall, wf_alloc0.
  - by apply drop_task_NoDup.
  - intros c' Hc'. destruct (decide (c' = c)) as [->|Hn]; [by left|right].
    apply wf_inFlight0, list_elem_of_fmap in Hc' as (t' & -> & Ht').
    apply list_elem_of_fmap. exists t'. split; [done|]. by apply elem_of_drop_task.
  - apply drop_task_Forall, Forall_forall, wf_attempt0.
  - apply not_elem_of_drop_task.
  - rewrite <- Hc. by apply wf_alloc0.
  - by apply wf_attempt0.
Qed.

Lemma running_same c w w' :
  tasks w' = tasks w -> inFlight (this w') = inFlight (this w) ->
  nextController w' = nextController w -> filling (this w') = filling (this w) ->
  running c w -> running c w'.
Proof. intros E1 E2 E3 E4 []. split; rewrite ?E1, ?E2, ?E3, ?E4; assumption. Qed.

(** The coroutine of [c] ends. *)
Lemma finally_wf c w : running c w -> wf (fillOne_finally c w).
Proof.
  intros []. split; cbn; try assumption.
  intros c' Hc'. apply elem_of_difference in Hc' as [H1 H2].
  destruct (r_inFlight0 c' H1); [set_solver|assumption].
Qed.

(** The coroutine of [c] is suspended again. *)
Lemma suspend_wf c a ph w :
  running c w -> (1 <= a <= maxAttempts)%nat ->
  wf (set_tasks (mkFill c a ph :: tasks w) w).
Proof.
  intros [] Ha. split; cbn; try assumption.
  - by constructor.
  - by apply NoDup_cons.
  - intros c' Hc'. apply elem_of_cons. destruct (r_inFlight0 c' Hc'); auto.
  - by constructor.
Qed.

Lemma fillOne_loop_wf c a w : running c w -> wf (fst (fillOne_loop c a w)).
Proof.
  intros H. unfold fillOne_loop.
  destruct (Nat.ltb_spec a maxAttempts); cbn [andb];
    [destruct (queue_length (this w) <? size (this w))|]; cbn [fst];
    try by apply finally_wf.
  apply suspend_wf; [assumption | lia].
Qed.

Lemma fillOne_resume_wf t r w :
  running (controller t) w -> (1 <= attempt t <= maxAttempts)%nat ->
  wf (fst (fillOne_resume t r w)).
Proof.
  intros H Ha. unfold fillOne_resume. destruct r as [m| |]; cbn [fst].
  - case_bool_decide; [by apply fillOne_loop_wf|]. cbn [fst].
    apply finally_wf. eapply running_same; [..|exact H]; reflexivity.
  - by apply suspend_wf.
  - by apply finally_wf.
Qed.

Lemma cancel_wf b w : wf w -> wf (fst (cancel b w)).
Proof.
  intros H. unfold cancel. cbn [fst].
  destruct (default false b); (eapply wf_same; [..|exact H]; [reflexivity|cbn; set_solver|reflexivity|reflexivity]).
Qed.

Lemma next_loop_wf k st tmo now w : wf w -> wf (fst (next_loop k st tmo now w)).
Proof.
  intros H. unfold next_loop. destruct (now - st <? tmo).
  - destruct (queue (this w)) as [|item rest] eqn:Hq.
    + cbn [fst]. eapply wf_same; [..|exact H]; reflexivity.
    + match goal with |- context [fill ?x] => pose proof (fill_wf x) as F; destruct (fill x) end.
      cbn [fst] in *. apply F. eapply wf_same; [..|exact H]; reflexivity.
  - cbn [fst]. eapply wf_same; [..|exact H]; reflexivity.
Qed.

Ltac wf_frame H := eapply wf_same; [..|exact H]; cbn; solve [reflexivity | set_solver].

Lemma setConfig_wf opts w : wf w -> wf (fst (setConfig opts w)).
Proof.
  intros H. unfold setConfig. apply fill_wf.
  destruct (opt_size opts) as [n|], (opt_concurrency opts) as [n'|];
    repeat match goal with |- context [if ?b then _ else _] => destruct b end;
    first [exact H | wf_frame H].
Qed.

Lemma setFilters_wf f w : wf w -> wf (fst (setFilters f w)).
Proof.
  intros H. unfold setFilters. destruct (same_filters _ f); [exact H|].
  unfold cancel. cbn [default].
  match goal with |- context [fill ?x] => pose proof (fill_wf x) as F; destruct (fill x) end.
  cbn [fst] in *. apply F. wf_frame H.
Qed.

Lemma next_wf tmo t0 t1 w : wf w -> wf (fst (next tmo t0 t1 w)).
Proof.
  intros H. unfold next. cbn [this set_nextCall].
  destruct (queue (this w)) as [|item rest].
  - match goal with |- context [fill ?x] => pose proof (fill_wf x) as F; destruct (fill x) as [w1 o1] end.
    pose proof (next_loop_wf (nextCall w) t0 (default 8000 tmo) t1 w1) as N.
    destruct (next_loop _ _ _ _ w1). cbn [fst] in *. apply N, F. wf_frame H.
  - match goal with |- context [fill ?x] => pose proof (fill_wf x) as F; destruct (fill x) end.
    cbn [fst] in *. apply F. wf_frame H.
Qed.

(** Well-formedness is an invariant of the event loop. *)
Lemma step_wf w ev : wf w -> wf (fst (step w ev)).
Proof.
  intros H. destruct ev; cbn [step].
  - by apply setConfig_wf.
  - by apply setFilters_wf.
  - by apply fill_wf.
  - by apply next_wf.
  - by apply cancel_wf.
  - cbn [fst]. wf_frame H.
  - destruct (find_task c (tasks w)) as [t|] eqn:Hf; [|exact H].
    destruct (phase t); [|exact H].
    destruct (resume_running c t w H Hf) as [R A].
    apply find_task_Some in Hf as [_ <-]. by apply fillOne_resume_wf.
  - destruct (find_task c (tasks w)) as [t|] eqn:Hf; [|exact H].
    destruct (phase t); [exact H|].
    destruct (resume_running c t w H Hf) as [R A]. by apply fillOne_loop_wf.
  - destruct (find_waiter k (waiters w)) as [n|]; [|exact H].
    apply next_loop_wf. wf_frame H.
  - destruct (timers w) as [|n]; [exact H|]. apply fill_wf. wf_frame H.
Qed.

Lemma run_cons w ev evs :
  run w (ev :: evs) = (fst (run (fst (step w ev)) evs), snd (step w ev) ++ snd (run (fst (step w ev)) evs)).
Proof. cbn [run]. destruct (step w ev) as [w1 o1]. cbn [fst snd]. by destruct (run w1 evs). Qed.

Lemma final_cons w ev evs : final w (ev :: evs) = final (fst (step w ev)) evs.
Proof. unfold final. by rewrite run_cons. Qed.

Lemma trace_cons w ev evs : trace w (ev :: evs) = snd (step w ev) ++ trace (fst (step w ev)) evs.
Proof. unfold trace. by rewrite run_cons. Qed.

Lemma run_wf evs : forall w, wf w -> wf (final w evs).
Proof.
  induction evs as [|ev evs IH]; intros w H; [exact H|].
  rewrite final_cons. by apply IH, step_wf.
Qed.

(** A freshly constructed instance, before anything has run. *)
Lemma constructor_capped opts ls_size ls_concurrency :
  wf (boot (constructor opts ls_size ls_concurrency)) /\
  capped (boot (constructor opts ls_size ls_concurrency)).
Proof.
  split; [by apply wf_boot|]. unfold capped. cbn. rewrite size_empty. lia.
Qed.

(** ** Frame properties of a fill cycle *)

Lemma fill_obs w : Forall (fun o => exists c f, o = ObsCall c f) (snd (fill w)).
Proof.
  destruct (fill_launches w) as [new L]. rewrite (l_obs _ _ _ _ L).
  apply Forall_fmap, Forall_forall. intros t _. cbn. eauto.
Qed.

Lemma calls_quiet o : Forall (fun o => exists c f, o = ObsCall c f) o -> Forall quiet o.
Proof. intros H. eapply Forall_impl; [exact H|]. intros ? (c & f & ->). exact I. Qed.

Lemma queued_items_app a b : queued_items (a ++ b) = queued_items a ++ queued_items b.
Proof. induction a as [|[] a IH]; cbn; congruence. Qed.

Lemma returns_app a b : returns (a ++ b) = returns a ++ returns b.
Proof. induction a as [|[] a IH]; cbn; congruence. Qed.

Lemma aborts_app a b : aborts (a ++ b) = aborts a ++ aborts b.
Proof. induction a as [|[] a IH]; cbn; congruence. Qed.

Lemma calls_of_app c a b : calls_of c (a ++ b) = (calls_of c a + calls_of c b)%nat.
Proof. induction a as [|[] a IH]; cbn; lia. Qed.

Lemma queued_by_app c a b : queued_by c (a ++ b) = queued_by c a ++ queued_by c b.
Proof.
  induction a as [|[] a IH]; cbn; try congruence.
  destruct (c0 =? c)%nat; cbn; congruence.
Qed.

Lemma calls_only o :
  Forall (fun o => exists c f, o = ObsCall c f) o ->
  queued_items o = [] /\ returns o = [] /\ aborts o = [] /\ forall c, queued_by c o = [].
Proof.
  induction 1 as [|x o (c & f & ->) _ IH]; cbn; [done|]. exact IH.
Qed.

Lemma fill_silent w :
  queued_items (snd (fill w)) = [] /\ returns (snd (fill w)) = [] /\
  aborts (snd (fill w)) = [] /\ forall c, queued_by c (snd (fill w)) = [].
Proof. apply calls_only, fill_obs. Qed.

Lemma dedup_ok_quiet seen o tr : Forall quiet o -> dedup_ok seen (o ++ tr) <-> dedup_ok seen tr.
Proof. induction 1 as [|[] o H _ IH]; cbn in *; tauto. Qed.

(** Replaces a fill cycle in the goal by what is known of its result. *)
Ltac open_fill :=
  match goal with
  | |- context [fill ?x] =>
      let new := fresh "new" in
      let L := fresh "L" in
      let O := fresh "O" in
      destruct (fill_launches x) as [new L];
      pose proof (fill_obs x) as O;
      destruct (fill x) as [? ?]; cbn [fst snd] in L, O |- *
  end.

(** ** The dedup history along a run *)

Lemma fill_dedup w tr :
  dedup_ok (seenIds (this (fst (fill w)))) tr -> dedup_ok (seenIds (this w)) (snd (fill w) ++ tr).
Proof.
  open_fill. rewrite (l_seenIds _ _ _ _ L). intros H.
  by apply dedup_ok_quiet; [apply calls_quiet|].
Qed.

Lemma fillOne_loop_dedup c a w tr :
  dedup_ok (seenIds (this (fst (fillOne_loop c a w)))) tr ->
  dedup_ok (seenIds (this w)) (snd (fillOne_loop c a w) ++ tr).
Proof. unfold fillOne_loop. destruct (_ && _); cbn; auto. Qed.

Lemma fillOne_resume_dedup t r w tr :
  dedup_ok (seenIds (this (fst (fillOne_resume t r w)))) tr ->
  dedup_ok (seenIds (this w)) (snd (fillOne_resume t r w) ++ tr).
Proof.
  unfold fillOne_resume. destruct r as [m| |]; cbn; auto.
  case_bool_decide; [apply fillOne_loop_dedup|]. cbn. auto.
Qed.

Lemma next_loop_dedup k st tmo now w tr :
  dedup_ok (seenIds (this (fst (next_loop k st tmo now w)))) tr ->
  dedup_ok (seenIds (this w)) (snd (next_loop k st tmo now w) ++ tr).
Proof.
  unfold next_loop. destruct (now - st <? tmo); [|cbn; auto].
  destruct (queue (this w)); [cbn; auto|].
  open_fill. rewrite (l_seenIds _ _ _ _ L). cbn. intros H.
  rewrite <- app_assoc. apply dedup_ok_quiet; [by apply calls_quiet|]. exact H.
Qed.

Lemma step_dedup w ev tr :
  dedup_ok (seenIds (this (fst (step w ev)))) tr ->
  dedup_ok (seenIds (this w)) (snd (step w ev) ++ tr).
Proof.
  destruct ev; cbn [step].
  - unfold setConfig. intros H. apply fill_dedup in H.
    destruct (opt_size opts) as [n|], (opt_concurrency opts) as [n'|];
      repeat match goal with H : context [if ?b then _ else _] |- _ => destruct b end;
      exact H.
  - unfold setFilters. destruct (same_filters _ f); [cbn; auto|].
    unfold cancel. cbn [default]. open_fill. intros H.
    rewrite <- !app_assoc. apply dedup_ok_quiet.
    { apply Forall_fmap, Forall_forall. intros ? _. exact I. }
    apply dedup_ok_quiet; [by apply calls_quiet|]. cbn.
    rewrite (l_seenIds _ _ _ _ L) in H. exact H.
  - apply fill_dedup.
  - unfold next. cbn [this set_nextCall]. destruct (queue (this w)).
    + open_fill.
      match goal with |- context [next_loop ?k ?a ?b ?c ?x] =>
        pose proof (next_loop_dedup k a b c x tr) as N; destruct (next_loop k a b c x) end.
      cbn [fst snd] in *. intros H. rewrite <- app_assoc.
      apply dedup_ok_quiet; [by apply calls_quiet|].
      rewrite (l_seenIds _ _ _ _ L) in N. by apply N.
    + open_fill. rewrite (l_seenIds _ _ _ _ L). cbn. intros H.
      rewrite <- app_assoc. apply dedup_ok_quiet; [by apply calls_quiet|]. exact H.
  - unfold cancel. cbn [fst snd]. intros H. apply dedup_ok_quiet.
    { apply Forall_fmap, Forall_forall. intros ? _. exact I. }
    by destruct (default false clearQueue).
  - cbn. auto.
  - destruct (find_task c (tasks w)) as [t|]; [|cbn; auto].
    destruct (phase t); [|cbn; auto]. apply fillOne_resume_dedup.
  - destruct (find_task c (tasks w)) as [t|]; [|cbn; auto].
    destruct (phase t); [cbn; auto|]. apply fillOne_loop_dedup.
  - destruct (find_waiter k (waiters w)) as [n|]; [|cbn; auto]. apply next_loop_dedup.
  - destruct (timers w); [cbn; auto|]. apply fill_dedup.
Qed.

(** Whatever the environment does, the trace agrees with [seenIds]. *)
Lemma run_dedup evs : forall w, dedup_ok (seenIds (this w)) (trace w evs).
Proof.
  induction evs as [|ev evs IH]; intros w; [exact I|].
  rewrite trace_cons. apply step_dedup, IH.
Qed.

Lemma dedup_ok_suffix a : forall seen b, dedup_ok seen (a ++ b) -> exists seen', dedup_ok seen' b.
Proof.
  induction a as [|[] a IH]; cbn; intros seen b H; eauto.
  destruct H as [_ H]. eauto.
Qed.

(** Inside one epoch the pushed identifiers are new and pairwise distinct. *)
Lemma dedup_ok_epoch seg : forall seen post,
  dedup_ok seen (seg ++ post) ->
  forallb (fun o => negb (is_setFilters o)) seg = true ->
  NoDup (queued_ids seg) /\ forall x, x ∈ queued_ids seg -> x ∉ seen.
Proof.
  unfold queued_ids.
  induction seg as [|o seg IH]; intros seen post H E.
  - cbn. split; [constructor | intros x Hx; by apply elem_of_nil in Hx].
  - cbn in E. apply andb_true_iff in E as [E1 E2].
    destruct o; cbn in *; try discriminate; try (by eapply IH).
    destruct H as [H1 H2]. destruct (IH _ _ H2 E2) as [N D].
    split.
    + apply NoDup_cons. split; [|exact N]. intros Hm. apply (D _ Hm). set_solver.
    + intros x Hx. apply elem_of_cons in Hx as [->|Hx]; [exact H1|].
      specialize (D _ Hx). set_solver.
Qed.

Lemma unmarked_app a b : unmarked (a ++ b) = unmarked a && unmarked b.
Proof. apply forallb_app. Qed.

Lemma calls_unmarked o : Forall (fun o => exists c f, o = ObsCall c f) o -> unmarked o = true.
Proof. induction 1 as [|x o (c & f & ->) _ IH]; cbn; [done|exact IH]. Qed.

Lemma fill_unmarked w : unmarked (snd (fill w)) = true.
Proof. apply calls_unmarked, fill_obs. Qed.

Lemma fillOne_loop_unmarked c a w : unmarked (snd (fillOne_loop c a w)) = true.
Proof. unfold fillOne_loop. by destruct (_ && _). Qed.

Lemma fillOne_resume_unmarked t r w : unmarked (snd (fillOne_resume t r w)) = true.
Proof.
  unfold fillOne_resume. destruct r; cbn; try done.
  case_bool_decide; [apply fillOne_loop_unmarked|done].
Qed.

Lemma next_loop_unmarked k st tmo now w : unmarked (snd (next_loop k st tmo now w)) = true.
Proof.
  unfold next_loop. destruct (now - st <? tmo); [|done].
  destruct (queue (this w)); [done|].
  open_fill. rewrite unmarked_app, (calls_unmarked _ O). done.
Qed.

Lemma cancel_unmarked b w : unmarked (snd (cancel b w)) = true.
Proof.
  unfold cancel. cbn [snd]. generalize (elements (inFlight (this w))).
  intros l. induction l; cbn; auto.
Qed.

(** Only a [setFilters] that changes the filters logs 'setFilters'. *)
Lemma step_unmarked w ev :
  match ev with
  | EvSetFilters f => same_filters (filters (this w)) f
  | _ => true
  end = true ->
  unmarked (snd (step w ev)) = true.
Proof.
  destruct ev; cbn [step]; intros E.
  - apply fill_unmarked.
  - unfold setFilters. by rewrite E.
  - apply fill_unmarked.
  - unfold next. cbn [this set_nextCall]. destruct (queue (this w)).
    + open_fill.
      match goal with |- context [next_loop ?k ?a ?b ?c ?x] =>
        pose proof (next_loop_unmarked k a b c x) as N; destruct (next_loop k a b c x) end.
      cbn [fst snd] in *. by rewrite unmarked_app, (calls_unmarked _ O), N.
    + open_fill. by rewrite unmarked_app, (calls_unmarked _ O).
  - apply cancel_unmarked.
  - done.
  - destruct (find_task c (tasks w)) as [t|]; [|done].
    destruct (phase t); [|done]. apply fillOne_resume_unmarked.
  - destruct (find_task c (tasks w)) as [t|]; [|done].
    destruct (phase t); [done|]. apply fillOne_loop_unmarked.
  - destruct (find_waiter k (waiters w)) as [n|]; [|done]. apply next_loop_unmarked.
  - destruct (timers w); [done|]. apply fill_unmarked.
Qed.

Lemma one_epoch_unmarked evs : forall w, one_epoch w evs = true -> unmarked (trace w evs) = true.
Proof.
  induction evs as [|ev evs IH]; intros w H; [done|].
  cbn [one_epoch] in H. apply andb_true_iff in H as [H1 H2].
  rewrite trace_cons, unmarked_app, (step_unmarked _ _ H1). cbn. by apply IH.
Qed.

(** Within an epoch, what is pushed is new with respect to the history at
    its start, and pushed once. *)
Lemma epoch_pushes w evs :
  one_epoch w evs = true ->
  NoDup (queued_ids (trace w evs)) /\
  forall x, x ∈ queued_ids (trace w evs) -> x ∉ seenIds (this w).
Proof.
  intros H. apply (dedup_ok_epoch _ _ []).
  - rewrite app_nil_r. apply run_dedup.
  - by apply one_epoch_unmarked.
Qed.

(** C3. Within one filter epoch (a run in which no [setFilters] changes the
    filters), the identifiers of the items pushed into the queue are
    pairwise distinct: for every identifier at most one item carrying it is
    pushed, whichever fetch attempts the Supplier answers with it, and
    none is pushed whose identifier the dedup history already held. *)
Theorem dedup_within_epoch (w : World) (evs : list Event) :
  one_epoch w evs = true ->
  NoDup (queued_ids (trace w evs)) /\
  (forall c1 c2 m1 m2 a b d,
     trace w evs = a ++ ObsQueued c1 m1 :: b ++ ObsQueued c2 m2 :: d ->
     movie_id m1 <> movie_id m2) /\
  (forall x, x ∈ queued_ids (trace w evs) -> x ∉ seenIds (this w)).
Proof.
  intros H. destruct (epoch_pushes w evs H) as [N D].
  split; [exact N|]. split; [|exact D].
  intros c1 c2 m1 m2 a b d E Hid. rewrite E in N. unfold queued_ids in N.
  rewrite queued_items_app in N. cbn in N. rewrite queued_items_app in N. cbn in N.
  rewrite fmap_app in N. apply NoDup_app in N as (_ & _ & N). cbn in N.
  apply NoDup_cons in N as [N _]. apply N. rewrite fmap_app, Hid.
  apply elem_of_app. right. cbn. apply elem_of_cons. by left.
Qed.

(** Two attempts launched by one fill cycle are both answered with the film
    of identifier 7: one item is queued. *)
Lemma dedup_within_epoch_witness :
  let evs := [EvFill; EvSupplier 0 (Candidate (film 7)); EvSupplier 1 (Candidate (film 7))] in
  one_epoch (boot prefetchQueue) evs = true /\
  queued_ids (trace (boot prefetchQueue) evs) = [7] /\
  NoDup (queued_ids (trace (boot prefetchQueue) evs)).
Proof.
  split; [reflexivity|]. split; [reflexivity|].
  apply (dedup_within_epoch (boot prefetchQueue)). reflexivity.
Defined.

Lemma same_filters_true a b : same_filters a b = true <-> a = b.
Proof.
  unfold same_filters. rewrite !andb_true_iff, !bool_decide_eq_true.
  destruct a, b; cbn. split; [intros [[-> ->] ->]; reflexivity | intros [= -> -> ->]; auto].
Qed.

(** C8. [setFilters] called with filters whose [startYear], [endYear] and
    [language] equal the current ones does nothing at all: the world after
    the call is the world before it (filters, dedup history, queue,
    in-flight set, statistics, aborted controllers, suspended coroutines and
    timers), and nothing is observed: no [abort()], no Supplier call, hence
    no fill cycle. *)
Theorem setFilters_same_noop (w : World) (f : PrefetchFilters) :
  startYear f = startYear (filters (this w)) ->
  endYear f = endYear (filters (this w)) ->
  language f = language (filters (this w)) ->
  step w (EvSetFilters f) = (w, []).
Proof.
  intros E1 E2 E3. cbn [step]. unfold setFilters.
  replace (same_filters (filters (this w)) f) with true; [reflexivity|].
  symmetry. apply same_filters_true. destruct f, (filters (this w)); cbn in *. congruence.
Qed.

(** The shared instance with two calls in flight and one item queued, its
    filters being the empty ones, is told again that the language is
    undefined. *)
Lemma setFilters_same_noop_witness :
  let w := final (boot prefetchQueue) [EvFill; EvSupplier 0 (Candidate (film 1)); EvFill] in
  step w (EvSetFilters (mkFilters None None None)) = (w, []).
Proof.
  cbv zeta. apply setFilters_same_noop; reflexivity.
Defined.

(** C1, as stated, fails: the shared instance holds one item; its filters
    are changed; the queue is empty afterwards. *)
Lemma setFilters_keeps_queue_fails :
  let w := final (boot prefetchQueue) [EvFill; EvSupplier 0 (Candidate (film 1))] in
  let f := mkFilters (Some 1990) None None in
  same_filters (filters (this w)) f = false /\
  queue (this w) = [film 1] /\
  queue (this (fst (step w (EvSetFilters f)))) = [] /\
  queue (this (fst (step w (EvSetFilters f)))) <> queue (this w).
Proof. cbv zeta. repeat split; vm_compute; congruence. Qed.

(** C1, amended. A [setFilters] that changes the filters replaces them,
    empties the dedup history, calls [abort()] on every controller that was
    in flight and takes them all out of the in-flight set (what is in flight
    afterwards was launched by the fill cycle that ends the call), and
    empties the queue: [cancel] is called with [clearQueue = true]. *)
Theorem setFilters_changed (w : World) (f : PrefetchFilters) :
  same_filters (filters (this w)) f = false ->
  let w' := fst (step w (EvSetFilters f)) in
  let o := snd (step w (EvSetFilters f)) in
  filters (this w') = f /\
  seenIds (this w') = ∅ /\
  aborted w' = aborted w ∪ inFlight (this w) /\
  aborts o = elements (inFlight (this w)) /\
  (allocated w -> inFlight (this w') ## inFlight (this w)) /\
  queue (this w') = [].
Proof.
  intros E. cbn [step]. unfold setFilters. rewrite E. unfold cancel. cbn [default].
  open_fill. cbn [fst snd].
  rewrite (l_filters _ _ _ _ L), (l_seenIds _ _ _ _ L), (l_aborted _ _ _ _ L),
    (l_queue _ _ _ _ L), (l_inFlight _ _ _ _ L). cbn.
  repeat split.
  - rewrite !aborts_app. destruct (calls_only _ O) as (_ & _ & -> & _). cbn.
    rewrite app_nil_r. generalize (elements (inFlight (this w))).
    intros cs. induction cs; cbn; congruence.
  - intros Hw c H1 H2. specialize (Hw _ H2).
    apply elem_of_union in H1 as [H1|H1]; [set_solver|].
    apply elem_of_list_to_set, list_elem_of_fmap in H1 as (t & -> & Ht).
    pose proof (l_new _ _ _ _ L) as F. rewrite Forall_forall in F.
    destruct (F t Ht) as [F1 _]. cbn in F1. lia.
Qed.

Lemma setFilters_changed_witness :
  let w := final (boot prefetchQueue) [EvFill; EvSupplier 0 (Candidate (film 1))] in
  let f := mkFilters (Some 1990) None None in
  same_filters (filters (this w)) f = false /\
  queue (this w) = [film 1] /\
  queue (this (fst (step w (EvSetFilters f)))) = [].
Proof.
  cbv zeta. split; [reflexivity|]. split; [reflexivity|].
  apply (setFilters_changed
           (final (boot prefetchQueue) [EvFill; EvSupplier 0 (Candidate (film 1))])
           (mkFilters (Some 1990) None None)).
  reflexivity.
Defined.

(** C10. [cancel(clearQueue)] leaves the dedup history, the filters and the
    five counters as they are, leaves the queue as it is unless
    [clearQueue] is true, and empties the in-flight set.  The history being
    kept, no identifier it holds is pushed again for as long as the filters
    are not changed. *)
Theorem cancel_frame (w : World) (clearQueue : option bool) :
  let w' := fst (step w (EvCancel clearQueue)) in
  seenIds (this w') = seenIds (this w) /\
  filters (this w') = filters (this w) /\
  stats (this w') = stats (this w) /\
  (clearQueue <> Some true -> queue (this w') = queue (this w)) /\
  (clearQueue = Some true -> queue (this w') = []) /\
  inFlight (this w') = ∅ /\
  (forall evs x, one_epoch w' evs = true -> x ∈ seenIds (this w) ->
                 x ∉ queued_ids (trace w' evs)).
Proof.
  cbn [step]. unfold cancel. cbn [fst].
  assert (E : forall w0 : World,
             seenIds (this (if default false clearQueue then on_this (set_queue []) w0 else w0))
             = seenIds (this w0)) by (intros; by destruct (default false clearQueue)).
  repeat split.
  - by rewrite E.
  - by destruct (default false clearQueue).
  - by destruct (default false clearQueue).
  - intros H. destruct clearQueue as [[]|]; cbn; congruence.
  - intros ->. reflexivity.
  - by destruct (default false clearQueue).
  - intros evs x He Hx Hq. destruct (epoch_pushes _ _ He) as [_ D].
    apply (D x Hq). by rewrite E.
Qed.

(** ** First in, first out *)

Lemma fillOne_loop_queue c a w :
  queue (this (fst (fillOne_loop c a w))) = queue (this w) /\
  queued_items (snd (fillOne_loop c a w)) = [].
Proof. unfold fillOne_loop. by destruct (_ && _). Qed.

Lemma fill_queue w :
  queue (this (fst (fill w))) = queue (this w) /\ queued_items (snd (fill w)) = [].
Proof.
  destruct (fill_launches w) as [new L]. split; [apply L | apply fill_silent].
Qed.

(** A producer step appends what it pushes at the back of the queue. *)
Lemma step_appends w ev :
  produces ev ->
  queue (this (fst (step w ev))) = queue (this w) ++ queued_items (snd (step w ev)).
Proof.
  destruct ev; cbn [produces step]; intros P; try done.
  - unfold setConfig.
    match goal with |- context [fill ?x] => destruct (fill_queue x) as [-> ->] end.
    rewrite app_nil_r.
    destruct (opt_size opts) as [n|], (opt_concurrency opts) as [n'|];
      repeat match goal with |- context [if ?b then _ else _] => destruct b end; reflexivity.
  - destruct (fill_queue w) as [-> ->]. by rewrite app_nil_r.
  - cbn. by rewrite app_nil_r.
  - destruct (find_task c (tasks w)) as [t|]; [|cbn; by rewrite app_nil_r].
    destruct (phase t); [|cbn; by rewrite app_nil_r].
    unfold fillOne_resume. destruct r as [m| |]; cbn; try by rewrite app_nil_r.
    case_bool_decide; [|reflexivity].
    match goal with |- context [fillOne_loop ?c ?a ?x] =>
      destruct (fillOne_loop_queue c a x) as [-> ->] end.
    cbn. by rewrite app_nil_r.
  - destruct (find_task c (tasks w)) as [t|]; [|cbn; by rewrite app_nil_r].
    destruct (phase t); [cbn; by rewrite app_nil_r|].
    match goal with |- context [fillOne_loop ?c ?a ?x] =>
      destruct (fillOne_loop_queue c a x) as [-> ->] end.
    cbn. by rewrite app_nil_r.
  - destruct (timers w); [cbn; by rewrite app_nil_r|].
    match goal with |- context [fill ?x] => destruct (fill_queue x) as [-> ->] end.
    cbn. by rewrite app_nil_r.
Qed.

Lemma run_appends evs : forall w,
  Forall produces evs ->
  queue (this (final w evs)) = queue (this w) ++ queued_items (trace w evs).
Proof.
  induction evs as [|ev evs IH]; intros w F.
  - cbn. by rewrite app_nil_r.
  - apply Forall_cons in F as [F1 F2].
    rewrite final_cons, trace_cons, queued_items_app, IH, step_appends by assumption.
    by rewrite app_assoc.
Qed.

(** [next] on a queue that is not empty takes its front item. *)
Lemma next_pop w tmo t0 t1 item rest :
  queue (this w) = item :: rest ->
  queue (this (fst (step w (EvNext tmo t0 t1)))) = rest /\
  returns (snd (step w (EvNext tmo t0 t1))) = [(nextCall w, Some item)] /\
  nextCall (fst (step w (EvNext tmo t0 t1))) = S (nextCall w) /\
  servedImmediate (stats (this (fst (step w (EvNext tmo t0 t1)))))
    = servedImmediate (stats (this w)) + 1.
Proof.
  intros E. cbn [step]. unfold next. cbn [this set_nextCall]. rewrite E.
  open_fill. rewrite (l_queue _ _ _ _ L), (l_nextCall _ _ _ _ L), returns_app.
  destruct (calls_only _ O) as (_ & -> & _).
  destruct (l_stats _ _ _ _ L) as (_ & -> & _). done.
Qed.

(** C6. First in, first out.  Starting from an empty queue, let the
    producer side run (fill cycles, Supplier answers, back-off and fill
    timers, configuration) and push A, then B, then C.  Three calls of
    [next] that follow return A, then B, then C, each at once. *)
Theorem fifo_order (w : World) (evs : list Event) (A B C : MovieResult)
    (ta tb tc : option Z * Z * Z) :
  queue (this w) = [] ->
  Forall produces evs ->
  queued_items (trace w evs) = [A; B; C] ->
  let w' := final w evs in
  let call '(tmo, t0, t1) := EvNext tmo t0 t1 in
  queue (this w') = [A; B; C] /\
  returns (trace w' [call ta; call tb; call tc])
    = [(nextCall w', Some A); (S (nextCall w'), Some B); (S (S (nextCall w')), Some C)].
Proof.
  intros Hq F Hp w' call.
  assert (Q : queue (this w') = [A; B; C]).
  { subst w'. by rewrite run_appends, Hq, Hp. }
  split; [exact Q|].
  destruct ta as [[ta ta0] ta1], tb as [[tb tb0] tb1], tc as [[tc tc0] tc1]. cbn [call].
  rewrite trace_cons, returns_app.
  destruct (next_pop w' ta ta0 ta1 _ _ Q) as (Q1 & -> & N1 & _).
  set (w1 := fst (step w' (EvNext ta ta0 ta1))) in *.
  rewrite trace_cons, returns_app.
  destruct (next_pop w1 tb tb0 tb1 _ _ Q1) as (Q2 & -> & N2 & _).
  set (w2 := fst (step w1 (EvNext tb tb0 tb1))) in *.
  rewrite trace_cons, returns_app.
  destruct (next_pop w2 tc tc0 tc1 _ _ Q2) as (Q3 & -> & N3 & _).
  cbn. by rewrite N2, N1.
Qed.

Lemma fifo_order_witness :
  let evs := [EvFill; EvSupplier 1 (Candidate (film 10)); EvSupplier 0 (Candidate (film 20));
              EvFill; EvSupplier 2 (Candidate (film 30))] in
  let w' := final (boot prefetchQueue) evs in
  returns (trace w' [EvNext None 0 0; EvNext (Some 100) 5 5; EvNext None 9 9])
    = [(0%nat, Some (film 10)); (1%nat, Some (film 20)); (2%nat, Some (film 30))].
Proof.
  cbv zeta.
  apply (fifo_order (boot prefetchQueue)
           [EvFill; EvSupplier 1 (Candidate (film 10)); EvSupplier 0 (Candidate (film 20));
            EvFill; EvSupplier 2 (Candidate (film 30))]
           (film 10) (film 20) (film 30) (None, 0, 0) (Some 100, 5, 5) (None, 9, 9)).
  - reflexivity.
  - repeat constructor.
  - reflexivity.
Defined.

(** ** Waiting for an item *)

(** With nothing to launch, a fill cycle launches nothing. *)
Lemma fill_idle w :
  wants_more (this w) = false ->
  inFlight (this (fst (fill w))) = inFlight (this w) /\
  tasks (fst (fill w)) = tasks w /\ snd (fill w) = [].
Proof.
  intros M. unfold fill. destruct (filling (this w)); [done|].
  set (w0 := on_this (set_filling true) w).
  assert (T : tick_loop (tick_fuel (this w0)) w0 = (w0, [])).
  { destruct (tick_fuel (this w0)) as [|fuel]; [reflexivity|].
    rewrite tick_loop_unfold. by replace (wants_more (this w0)) with false. }
  rewrite T. by destruct (wants_more (this (on_this (set_filling false) w0))).
Qed.


Lemma find_waiter_head k st tmo ns : find_waiter k (mkNext k st tmo :: ns) = Some (mkNext k st tmo).
Proof. unfold find_waiter. cbn. by rewrite Nat.eqb_refl. Qed.

(** A wake-up that finds the queue empty before the deadline: the
    coroutine goes back to sleep and nothing else happens. *)
Lemma poll_early w k n now :
  find_waiter k (waiters w) = Some n -> queue (this w) = [] ->
  now - start n < timeoutMs n ->
  step w (EvPoll k now)
    = (set_waiters (mkNext k (start n) (timeoutMs n) :: drop_waiter k (waiters w)) w, []).
Proof.
  intros F Q T. cbn [step]. rewrite F. unfold next_loop. cbn [this set_waiters].
  rewrite Q. apply Z.ltb_lt in T. by rewrite T.
Qed.

(** A wake-up at or past the deadline: [next] counts a timeout and
    returns [null]; this is all it does. *)
Lemma poll_late w k n now :
  find_waiter k (waiters w) = Some n ->
  timeoutMs n <= now - start n ->
  step w (EvPoll k now)
    = (on_this count_timeout (set_waiters (drop_waiter k (waiters w)) w), [ObsReturn k None]).
Proof.
  intros F T. cbn [step]. rewrite F. unfold next_loop.
  apply Z.ltb_ge in T. by rewrite T.
Qed.

(** [null] is returned by a wake-up only at or past the deadline. *)
Lemma poll_null_late w k now :
  (k, None) ∈ returns (snd (step w (EvPoll k now))) ->
  exists n, find_waiter k (waiters w) = Some n /\ timeoutMs n <= now - start n.
Proof.
  cbn [step]. destruct (find_waiter k (waiters w)) as [n|]; [|cbn; by rewrite elem_of_nil].
  unfold next_loop. destruct (Z.ltb_spec (now - start n) (timeoutMs n)) as [T|T].
  - destruct (queue _); [cbn; by rewrite elem_of_nil|].
    open_fill. rewrite returns_app. destruct (calls_only _ O) as (_ & -> & _). cbn.
    rewrite list_elem_of_singleton. discriminate.
  - intros _. eauto.
Qed.

Lemma polls_timeout k st tmo late early : forall w,
  find_waiter k (waiters w) = Some (mkNext k st tmo) -> queue (this w) = [] ->
  Forall (fun t => t - st < tmo) early -> tmo <= late - st ->
  this (final w (EvPoll k <$> early ++ [late])) = count_timeout (this w) /\
  tasks (final w (EvPoll k <$> early ++ [late])) = tasks w /\
  aborted (final w (EvPoll k <$> early ++ [late])) = aborted w /\
  trace w (EvPoll k <$> early ++ [late]) = [ObsReturn k None] /\
  trace w (EvPoll k <$> early) = [].
Proof.
  induction early as [|t early IH]; intros w F Q E L.
  - cbn [app fmap list_fmap]. rewrite final_cons, trace_cons.
    rewrite (poll_late w k _ late F L). cbn. done.
  - apply Forall_cons in E as [E1 E2]. cbn [app fmap list_fmap].
    rewrite !final_cons, !trace_cons. rewrite (poll_early w k _ t F Q E1). cbn [fst snd start timeoutMs].
    match goal with |- context [final ?x _] => set (w1 := x) end.
    destruct (IH w1) as (P1 & P2 & P3 & P4 & P5); try assumption.
    { apply find_waiter_head. }
    rewrite P1, P2, P3, P4, P5. done.
Qed.

(** A call of [next] that finds the queue empty at every test of its loop,
    the last of which is the first at or past the deadline. *)
Lemma next_times_out (w : World) (tmo : option Z) (t0 : Z) (early : list Z) (late : Z) :
  queue (this w) = [] ->
  Forall (fun t => t - t0 < default 8000 tmo) early ->
  default 8000 tmo <= late - t0 ->
  let k := nextCall w in
  let w' := final w (next_call k tmo t0 (early ++ [late])) in
  let tr := trace w (next_call k tmo t0 (early ++ [late])) in
  returns tr = [(k, None)] /\
  returns (trace w (next_call k tmo t0 early)) = [] /\
  timeouts (stats (this w')) = timeouts (stats (this w)) + 1 /\
  queued (stats (this w')) = queued (stats (this w)) /\
  servedImmediate (stats (this w')) = servedImmediate (stats (this w)) /\
  servedAfterWait (stats (this w')) = servedAfterWait (stats (this w)) /\
  aborts tr = [] /\ aborted w' = aborted w /\
  inFlight (this w) ⊆ inFlight (this w') /\
  (wants_more (this w) = false -> inFlight (this w') = inFlight (this w)) /\
  (early <> [] -> this w' = count_timeout (this (final w (next_call k tmo t0 early)))) /\
  (exists new, tasks w' = new ++ tasks w) /\
  queue (this w') = [].
Proof.
  intros Q E L k w' tr.
  set (w0 := set_nextCall (S k) w).
  destruct (fill_launches w0) as [new La]. pose proof (fill_obs w0) as O.
  destruct (calls_only _ O) as (Oq & Or & Oa & _).
  destruct (l_stats _ _ _ _ La) as (S1 & S2 & S3 & S4 & _).
  assert (St : step w (EvNext tmo t0 late)
               = (on_this count_timeout (fst (fill w0)), snd (fill w0) ++ [ObsReturn k None])).
  { cbn [step]. unfold next. cbn [this set_nextCall]. rewrite Q. fold k. fold w0.
    destruct (fill w0) as [w1 o1]. unfold next_loop. apply Z.ltb_ge in L. by rewrite L. }
  assert (Se : forall t1, t1 - t0 < default 8000 tmo ->
               step w (EvNext tmo t0 t1)
               = (set_waiters (mkNext k t0 (default 8000 tmo) :: waiters (fst (fill w0)))
                    (fst (fill w0)), snd (fill w0) ++ [])).
  { intros t1 T1. cbn [step]. unfold next. cbn [this set_nextCall]. rewrite Q. fold k. fold w0.
    pose proof (l_queue _ _ _ _ La) as Q1.
    destruct (fill w0) as [w1 o1]. unfold next_loop. apply Z.ltb_lt in T1. rewrite T1.
    cbn [fst] in Q1. rewrite Q1. cbn [this set_nextCall w0]. by rewrite Q. }
  destruct early as [|t1 early].
  - subst w' tr. cbn [app next_call fmap list_fmap].
    rewrite final_cons, trace_cons, St. cbn [fst snd final trace run].
    rewrite app_nil_r, returns_app, aborts_app, Or, Oa. cbn.
    rewrite (l_aborted _ _ _ _ La), (l_tasks _ _ _ _ La),
      (l_queue _ _ _ _ La), S1, S2, S3, S4. cbn.
    repeat split; try done; [rewrite (l_inFlight _ _ _ _ La); set_solver | | eauto].
    intros M. by destruct (fill_idle w0 M) as (-> & _).
  - apply Forall_cons in E as [E1 E2].
    subst w' tr. cbn [app next_call]. rewrite !final_cons, !trace_cons, (Se t1 E1).
    cbn [fst snd]. rewrite app_nil_r.
    match goal with |- context [final ?x _] => set (w1 := x) end.
    destruct (polls_timeout k t0 (default 8000 tmo) late early w1) as (P1 & P2 & P3 & P4 & P5);
      try assumption.
    { apply find_waiter_head. }
    { subst w1. cbn. by rewrite (l_queue _ _ _ _ La). }
    assert (P6 : this (final w1 (EvPoll k <$> early)) = this w1).
    { clear -E2 Q La. assert (F : find_waiter k (waiters w1)
                                   = Some (mkNext k t0 (default 8000 tmo)))
        by apply find_waiter_head.
      assert (Q1 : queue (this w1) = []) by (subst w1; cbn; by rewrite (l_queue _ _ _ _ La)).
      clearbody w1. revert w1 F Q1.
      induction early as [|t early IH]; intros w1 F Q1; [reflexivity|].
      apply Forall_cons in E2 as [E1 E2]. cbn [fmap list_fmap].
      rewrite final_cons, (poll_early w1 k _ t F Q1 E1). cbn [fst start timeoutMs].
      rewrite IH; try done. apply find_waiter_head. }
    unfold final, trace in *. rewrite P1, P2, P3, P4, P5, P6.
    rewrite !returns_app, !aborts_app, Or, Oa. subst w1. cbn.
    rewrite (l_aborted _ _ _ _ La), (l_tasks _ _ _ _ La),
      (l_queue _ _ _ _ La), S1, S2, S3, S4. cbn.
    repeat split; try done; [rewrite (l_inFlight _ _ _ _ La); set_solver | | eauto].
    intros M. by destruct (fill_idle w0 M) as (-> & _).
Qed.

(** C5. [next(timeoutMs)] is called on an empty queue and finds it empty at
    every test of its loop; the clock readings of all tests but the last
    are before the deadline, the last is at or past it.  Then [next] returns
    once, and what it returns is [null] (no rejection: every step ends in a
    world and an observation); it does not return while the readings are
    before the deadline, the reading at which it does is no less than
    [timeoutMs] after the start; [stats.timeouts] has grown by exactly one
    and the other counts of served and queued items are unchanged;
    [abort()] is called on no controller, no controller leaves the in-flight
    set (the fill cycle that [next] starts with may add some; the wake-up
    that times out changes nothing but the counter) and no fetch attempt is
    ended.  Whatever else has run in between, a wake-up of a waiting [next]
    at or past its deadline counts one timeout and returns [null], and a
    wake-up returns [null] only at or past the deadline. *)
Theorem next_timeout (w : World) (tmo : option Z) (t0 : Z) (early : list Z) (late : Z) :
  queue (this w) = [] ->
  Forall (fun t => t - t0 < default 8000 tmo) early ->
  default 8000 tmo <= late - t0 ->
  let k := nextCall w in
  let w' := final w (next_call k tmo t0 (early ++ [late])) in
  let tr := trace w (next_call k tmo t0 (early ++ [late])) in
  returns tr = [(k, None)] /\
  returns (trace w (next_call k tmo t0 early)) = [] /\
  timeouts (stats (this w')) = timeouts (stats (this w)) + 1 /\
  queued (stats (this w')) = queued (stats (this w)) /\
  servedImmediate (stats (this w')) = servedImmediate (stats (this w)) /\
  servedAfterWait (stats (this w')) = servedAfterWait (stats (this w)) /\
  aborts tr = [] /\ aborted w' = aborted w /\
  inFlight (this w) ⊆ inFlight (this w') /\
  (wants_more (this w) = false -> inFlight (this w') = inFlight (this w)) /\
  (early <> [] -> this w' = count_timeout (this (final w (next_call k tmo t0 early)))) /\
  (exists new, tasks w' = new ++ tasks w) /\
  queue (this w') = [] /\
  (forall w2 j n now,
     find_waiter j (waiters w2) = Some n -> timeoutMs n <= now - start n ->
     step w2 (EvPoll j now)
     = (on_this count_timeout (set_waiters (drop_waiter j (waiters w2)) w2),
        [ObsReturn j None])) /\
  (forall w2 j now,
     (j, None) ∈ returns (snd (step w2 (EvPoll j now))) ->
     exists n, find_waiter j (waiters w2) = Some n /\ timeoutMs n <= now - start n).
Proof.
  intros Q E L k w' tr.
  destruct (next_times_out w tmo t0 early late Q E L)
    as (A1 & A2 & A3 & A4 & A5 & A6 & A7 & A8 & A9 & A10 & A11 & A12 & A13).
  do 12 (split; [assumption|]). split; [assumption|]. split.
  - intros w2 j n now. apply poll_late.
  - intros w2 j now. apply poll_null_late.
Qed.

(** The test of the specification: with a Supplier that never resolves,
    [next(100)] called at time 1000 and woken at 1050, 1099 and 1101 returns
    [null] at 1101 and counts one timeout. *)
Lemma next_timeout_witness :
  let w := boot prefetchQueue in
  let evs := next_call 0 (Some 100) 1000 ([1000; 1050; 1099] ++ [1101]) in
  returns (trace w evs) = [(0%nat, None)] /\
  timeouts (stats (this (final w evs))) = 1.
Proof.
  cbv zeta.
  destruct (next_timeout (boot prefetchQueue) (Some 100) 1000 [1000; 1050; 1099] 1101)
    as (R & _ & T & _).
  - reflexivity.
  - repeat constructor.
  - cbn. lia.
  - split; [exact R | exact T].
Defined.

(** ** One fetch attempt *)

Lemma attempt_ok_mono c tr : forall a b, le_status a b -> attempt_ok c a tr -> attempt_ok c b tr.
Proof.
  induction tr as [|o tr IH]; intros a b Hab H; [exact I|].
  destruct o; cbn in *; try (by eapply IH).
  - destruct (c0 =? c)%nat; [|by eapply IH].
    destruct a as [[|n]|]; try done. destruct b as [[|m]|]; cbn in Hab; try lia.
    eapply IH; [|exact H]. cbn. lia.
  - destruct (c0 =? c)%nat; [|by eapply IH].
    destruct a; [|done]. by destruct b.
Qed.

Lemma attempt_ok_app_other c st o tr :
  calls_of c o = 0%nat -> queued_by c o = [] ->
  attempt_ok c st tr -> attempt_ok c st (o ++ tr).
Proof.
  induction o as [|x o IH]; cbn; intros H1 H2 H; [exact H|].
  destruct x; cbn in *; auto;
    destruct (c0 =? c)%nat; cbn in *; try discriminate; auto.
Qed.

(** What a trace that keeps within [Some n] contains. *)
Lemma attempt_ok_counts c tr : forall st,
  attempt_ok c st tr ->
  (forall n, st = Some n -> (calls_of c tr <= n)%nat) /\
  (st = None -> calls_of c tr = 0%nat /\ queued_by c tr = []) /\
  (length (queued_by c tr) <= 1)%nat /\
  (forall pre m post, tr = pre ++ ObsQueued c m :: post ->
                      calls_of c post = 0%nat /\ queued_by c post = []).
Proof.
  induction tr as [|o tr IH]; intros st H.
  - cbn. split; [|split; [|split]]; try done; try lia.
    intros pre m post E. by destruct pre.
  - assert (Hcons : forall st', attempt_ok c st' tr ->
              (forall pre m post, o :: tr = pre ++ ObsQueued c m :: post ->
                 o <> ObsQueued c m ->
                 calls_of c post = 0%nat /\ queued_by c post = [])).
    { intros st' H' pre m post E Hne. destruct pre as [|x pre]; cbn in E.
      - injection E as -> _. congruence.
      - injection E as _ E. destruct (IH _ H') as (_ & _ & _ & P). eapply P, E. }
    destruct o; cbn in H |- *.
    + destruct (Nat.eqb_spec c0 c) as [->|Hc].
      * destruct st as [[|n]|]; try done. destruct (IH _ H) as (A & B & C & D).
        split; [|split; [|split]]; try done.
        -- intros n' [= <-]. specialize (A n eq_refl). lia.
        -- intros pre m post E. eapply Hcons; [exact H|exact E|]. discriminate.
      * destruct (IH _ H) as (A & B & C & D). split; [|split; [|split]]; try done.
        intros pre m post E. eapply Hcons; [exact H|exact E|]. discriminate.
    + destruct (IH _ H) as (A & B & C & D). split; [|split; [|split]]; try done.
      intros pre m post E. eapply Hcons; [exact H|exact E|]. discriminate.
    + destruct (Nat.eqb_spec c0 c) as [->|Hc].
      * destruct st as [n|]; [|done]. destruct (IH _ H) as (A & B & C & D).
        destruct (B eq_refl) as [B1 B2]. rewrite B2.
        split; [|split; [|split]]; try done.
        -- intros n' _. lia.
        -- intros pre m' post E. destruct pre as [|x pre]; cbn in E.
           ++ injection E as _ <-. done.
           ++ injection E as _ E. eapply D, E.
      * destruct (IH _ H) as (A & B & C & D). split; [|split; [|split]]; try done.
        intros pre m' post E. eapply Hcons; [exact H|exact E|]. congruence.
    + destruct (IH _ H) as (A & B & C & D). split; [|split; [|split]]; try done.
      intros pre m post E. eapply Hcons; [exact H|exact E|]. discriminate.
    + destruct (IH _ H) as (A & B & C & D). split; [|split; [|split]]; try done.
      intros pre m post E. eapply Hcons; [exact H|exact E|]. discriminate.
Qed.

Lemma find_task_app c a b :
  find_task c (a ++ b) = match find_task c a with Some t => Some t | None => find_task c b end.
Proof.
  unfold find_task. induction a as [|t a IH]; cbn; [done|].
  by destruct (controller t =? c)%nat.
Qed.

Lemma find_task_drop_ne c c' ts : c <> c' -> find_task c (drop_task c' ts) = find_task c ts.
Proof.
  intros Hne. unfold find_task, drop_task. induction ts as [|t ts IH]; cbn; [done|].
  destruct (Nat.eqb_spec (controller t) c') as [E|E]; cbn.
  - destruct (Nat.eqb_spec (controller t) c); [congruence|exact IH].
  - destruct (controller t =? c)%nat; [done|exact IH].
Qed.

Lemma find_task_drop_eq c ts : find_task c (drop_task c ts) = None.
Proof.
  destruct (find_task c (drop_task c ts)) as [t|] eqn:E; [|done].
  apply find_task_Some in E as [E1 E2]. apply elem_of_drop_task in E1 as [_ E1]. congruence.
Qed.

Lemma find_task_elem c ts :
  c ∈ controller <$> ts -> exists t, find_task c ts = Some t.
Proof.
  intros H. destruct (find_task c ts) eqn:E; [eauto|].
  by apply find_task_None in E.
Qed.

Lemma status_same c w w' :
  tasks w' = tasks w -> nextController w' = nextController w -> status c w' = status c w.
Proof. unfold status. by intros -> ->. Qed.

Lemma le_status_refl a : le_status a a.
Proof. destruct a; cbn; lia. Qed.

(** A batch of first calls, one per launched coroutine. *)
Lemma first_calls_other c f cs :
  c ∉ cs ->
  calls_of c ((fun c' => ObsCall c' f) <$> cs) = 0%nat /\
  queued_by c ((fun c' => ObsCall c' f) <$> cs) = [].
Proof.
  induction cs as [|x cs IH]; cbn; intros H; [done|].
  apply not_elem_of_cons in H as [H1 H2]. destruct (IH H2) as [-> ->].
  destruct (Nat.eqb_spec x c); [congruence|done].
Qed.

Lemma first_calls_one c f cs n tr :
  NoDup cs -> c ∈ cs -> attempt_ok c (Some n) tr ->
  attempt_ok c (Some (S n)) (((fun c' => ObsCall c' f) <$> cs) ++ tr).
Proof.
  induction cs as [|x cs IH]; intros N H A; [by apply elem_of_nil in H|].
  apply NoDup_cons in N as [N1 N2]. cbn.
  destruct (Nat.eqb_spec x c) as [->|Hx].
  - destruct (first_calls_other c f cs N1). by apply attempt_ok_app_other.
  - apply elem_of_cons in H as [H|H]; [congruence|]. by apply IH.
Qed.

Lemma launches_attempt c w w' new o tr :
  launches w w' new o -> wf w ->
  attempt_ok c (status c w') tr -> attempt_ok c (status c w) (o ++ tr).
Proof.
  intros L H A.
  pose proof (l_new _ _ _ _ L) as F. rewrite Forall_forall in F.
  pose proof (wf_alloc _ H) as Ha. rewrite Forall_forall in Ha.
  rewrite (l_obs _ _ _ _ L).
  replace ((fun t => ObsCall (controller t) (filters (this w))) <$> reverse new)
    with ((fun c' => ObsCall c' (filters (this w))) <$> (controller <$> reverse new))
    by (by rewrite <- list_fmap_compose).
  unfold status in A. rewrite (l_tasks _ _ _ _ L), find_task_app in A.
  destruct (decide (c ∈ controller <$> new)) as [Hin|Hout].
  - destruct (find_task_elem _ _ Hin) as [t Ht]. rewrite Ht in A.
    apply find_task_Some in Ht as [Ht <-].
    destruct (F t Ht) as (Hc & Hat & _). rewrite Hat in A.
    assert (Hs : status (controller t) w = Some maxAttempts).
    { unfold status. destruct (find_task (controller t) (tasks w)) as [t'|] eqn:E.
      - apply find_task_Some in E as [E1 E2]. specialize (Ha _ E1). lia.
      - destruct (Nat.ltb_spec (controller t) (nextController w)); [lia|done]. }
    rewrite Hs. apply first_calls_one; [| |exact A].
    + rewrite fmap_reverse, reverse_Permutation. apply L.
    + rewrite fmap_reverse, elem_of_reverse. exact Hin.
  - destruct (first_calls_other c (filters (this w)) (controller <$> reverse new)) as [C1 C2].
    { by rewrite fmap_reverse, elem_of_reverse. }
    apply attempt_ok_app_other; [exact C1|exact C2|].
    eapply attempt_ok_mono; [|exact A].
    destruct (find_task c new) as [t|] eqn:E.
    { apply find_task_Some in E as [E1 <-]. exfalso. apply Hout, list_elem_of_fmap. eauto. }
    unfold status. destruct (find_task c (tasks w)); [apply le_status_refl|].
    pose proof (l_next _ _ _ _ L).
    destruct (Nat.ltb_spec c (nextController w')), (Nat.ltb_spec c (nextController w));
      cbn; try done; lia.
Qed.

Lemma fill_attempt c w tr :
  wf w -> attempt_ok c (status c (fst (fill w))) tr -> attempt_ok c (status c w) (snd (fill w) ++ tr).
Proof. intros H. destruct (fill_launches w) as [new L]. by eapply launches_attempt. Qed.

Lemma status_ended c w : running c w -> status c w = None.
Proof.
  intros R. unfold status.
  pose proof (r_self _ _ R) as Hs. pose proof (r_self_alloc _ _ R) as Hl.
  destruct (find_task c (tasks w)) as [t|] eqn:E.
  { apply find_task_Some in E as [E1 <-]. exfalso. apply Hs, list_elem_of_fmap. eauto. }
  destruct (Nat.ltb_spec c (nextController w)); [done|lia].
Qed.

(** The status of [c] once the coroutine of [c'] is back at the loop head
    after [a] attempts. *)
Lemma fillOne_loop_attempt c c' a w tr :
  running c' w ->
  attempt_ok c (status c (fst (fillOne_loop c' a w))) tr ->
  attempt_ok c (if decide (c = c') then Some (maxAttempts - a)%nat else status c w)
    (snd (fillOne_loop c' a w) ++ tr).
Proof.
  intros R. unfold fillOne_loop.
  destruct (Nat.ltb_spec a maxAttempts) as [Ha|Ha]; cbn [andb];
    [destruct (queue_length (this w) <? size (this w))|]; cbn [fst snd app].
  - unfold status. cbn [tasks set_tasks nextController]. unfold find_task. cbn [List.find controller].
    destruct (Nat.eqb_spec c' c) as [->|Hc]; cbn.
    + rewrite Nat.eqb_refl. rewrite decide_True by done.
      unfold maxAttempts in *. replace (6 - a)%nat with (S (5 - a)) by lia. done.
    + destruct (Nat.eqb_spec c' c); [congruence|]. rewrite decide_False by congruence. done.
  - rewrite (status_same c w (fillOne_finally c' w)) by reflexivity. cbn [app].
    case_decide as Hc; [subst c'|done].
    rewrite (status_ended _ _ R). apply attempt_ok_mono. exact I.
  - rewrite (status_same c w (fillOne_finally c' w)) by reflexivity. cbn [app].
    case_decide as Hc; [subst c'|done].
    rewrite (status_ended _ _ R). apply attempt_ok_mono. exact I.
Qed.

Lemma status_suspended c c' a ph w :
  status c (set_tasks (mkFill c' a ph :: tasks w) w)
  = if decide (c = c') then Some (maxAttempts - a)%nat else status c w.
Proof.
  unfold status, find_task. cbn [tasks set_tasks nextController List.find controller attempt].
  destruct (Nat.eqb_spec c' c) as [->|Hc].
  - by rewrite decide_True.
  - by rewrite decide_False by congruence.
Qed.

Lemma fillOne_resume_attempt c t r w tr :
  running (controller t) w ->
  attempt_ok c (status c (fst (fillOne_resume t r w))) tr ->
  attempt_ok c (if decide (c = controller t) then Some (maxAttempts - attempt t)%nat
                else status c w)
    (snd (fillOne_resume t r w) ++ tr).
Proof.
  intros R. unfold fillOne_resume. destruct r as [m| |]; cbn [fst snd].
  - case_bool_decide; [by apply fillOne_loop_attempt|]. cbn [fst snd app attempt_ok].
    match goal with |- context [fillOne_finally ?c0 ?x] =>
      rewrite (status_same c x (fillOne_finally c0 x)) by reflexivity;
      assert (R' : running c0 x) by (eapply running_same; [..|exact R]; reflexivity);
      rewrite (status_same c w x) by reflexivity end.
    destruct (Nat.eqb_spec (controller t) c) as [<-|Hc].
    + rewrite decide_True by done. by rewrite (status_ended _ _ R).
    + by rewrite decide_False by congruence.
  - by rewrite status_suspended.
  - rewrite (status_same c w (fillOne_finally (controller t) w)) by reflexivity. cbn [app].
    case_decide as Hc; [rewrite Hc|done].
    rewrite (status_ended _ _ R). apply attempt_ok_mono. exact I.
Qed.

Lemma attempt_ok_aborts c st cs tr :
  attempt_ok c st ((ObsAbort <$> cs) ++ tr) <-> attempt_ok c st tr.
Proof. induction cs; cbn; tauto. Qed.

Lemma next_loop_attempt c k st tmo now w tr :
  wf w ->
  attempt_ok c (status c (fst (next_loop k st tmo now w))) tr ->
  attempt_ok c (status c w) (snd (next_loop k st tmo now w) ++ tr).
Proof.
  intros H. unfold next_loop. destruct (now - st <? tmo).
  - destruct (queue (this w)) as [|item rest].
    + cbn [fst snd app]. by rewrite (status_same c w) by reflexivity.
    + match goal with |- context [fill ?x] =>
        pose proof (fill_attempt c x (ObsReturn k (Some item) :: tr)) as F;
        rewrite (status_same c x w) by reflexivity;
        assert (wf x) by (wf_frame H);
        destruct (fill x) end.
      cbn [fst snd] in *. rewrite <- app_assoc. cbn [app]. auto.
  - cbn [fst snd app attempt_ok]. by rewrite (status_same c w) by reflexivity.
Qed.

(** Along a step, every attempt keeps within what is left to it. *)
Lemma step_attempt c w ev tr :
  wf w ->
  attempt_ok c (status c (fst (step w ev))) tr ->
  attempt_ok c (status c w) (snd (step w ev) ++ tr).
Proof.
  intros H. destruct ev; cbn [step].
  - unfold setConfig.
    match goal with |- context [fill ?x] =>
      rewrite (status_same c x w); [apply fill_attempt|..] end;
    destruct (opt_size opts) as [n|], (opt_concurrency opts) as [n'|];
      repeat match goal with |- context [if ?b then _ else _] => destruct b end;
      first [exact H | reflexivity | wf_frame H].
  - unfold setFilters. destruct (same_filters _ f); [done|].
    unfold cancel. cbn [default].
    match goal with |- context [fill ?x] =>
      pose proof (fill_attempt c x (ObsSetFilters (filters (this (fst (fill x)))) :: tr)) as F;
      rewrite (status_same c x w) by reflexivity;
      assert (wf x) by (wf_frame H);
      destruct (fill x) end.
    cbn [fst snd] in *. rewrite <- !app_assoc. intros A.
    apply attempt_ok_aborts. cbn [app]. auto.
  - by apply fill_attempt.
  - unfold next. cbn [this set_nextCall]. destruct (queue (this w)) as [|item rest].
    + match goal with |- context [fill ?x] =>
        pose proof (fill_attempt c x) as F; pose proof (fill_wf x) as W;
        rewrite (status_same c x w) by reflexivity;
        assert (wf x) by (wf_frame H);
        destruct (fill x) as [w1 o1] end.
      match goal with |- context [next_loop ?k ?a ?b ?d ?x] =>
        pose proof (next_loop_attempt c k a b d x tr) as N; destruct (next_loop k a b d x) end.
      cbn [fst snd] in *. rewrite <- app_assoc. auto.
    + match goal with |- context [fill ?x] =>
        pose proof (fill_attempt c x (ObsReturn (nextCall w) (Some item) :: tr)) as F;
        rewrite (status_same c x w) by reflexivity;
        assert (wf x) by (wf_frame H);
        destruct (fill x) end.
      cbn [fst snd] in *. rewrite <- app_assoc. cbn [app]. auto.
  - unfold cancel. cbn [fst snd]. rewrite attempt_ok_aborts.
    destruct (default false clearQueue); by rewrite (status_same c w) by reflexivity.
  - cbn [fst snd app]. by rewrite (status_same c w) by reflexivity.
  - destruct (find_task c0 (tasks w)) as [t|] eqn:Hf; [|done].
    destruct (phase t); [|done].
    destruct (resume_running c0 t w H Hf) as [R A].
    pose proof (find_task_Some _ _ _ Hf) as [_ Hc]. subst c0.
    intros B. apply (fillOne_resume_attempt c t r _ tr R) in B. revert B.
    case_decide as E.
    + rewrite <- E in Hf. unfold status. by rewrite Hf.
    + unfold status. cbn [tasks set_tasks nextController]. by rewrite find_task_drop_ne.
  - destruct (find_task c0 (tasks w)) as [t|] eqn:Hf; [|done].
    destruct (phase t); [done|].
    destruct (resume_running c0 t w H Hf) as [R A].
    intros B. apply (fillOne_loop_attempt c c0 (attempt t) _ tr R) in B. revert B.
    case_decide as E.
    + subst c0. unfold status. by rewrite Hf.
    + unfold status. cbn [tasks set_tasks nextController]. by rewrite find_task_drop_ne.
  - destruct (find_waiter k (waiters w)) as [n|]; [|done].
    match goal with |- context [next_loop ?k ?a ?b ?d ?x] =>
      rewrite (status_same c x w) by reflexivity; apply next_loop_attempt end.
    wf_frame H.
  - destruct (timers w) as [|n]; [done|].
    match goal with |- context [fill ?x] =>
      rewrite (status_same c x w) by reflexivity; apply fill_attempt end.
    wf_frame H.
Qed.

Lemma run_attempt c evs : forall w, wf w -> attempt_ok c (status c w) (trace w evs).
Proof.
  induction evs as [|ev evs IH]; intros w H; [exact I|].
  rewrite trace_cons. apply step_attempt; [exact H|]. apply IH, step_wf, H.
Qed.

Lemma status_bound c w : le_status (status c w) (Some maxAttempts).
Proof.
  unfold status, le_status. destruct (find_task c (tasks w)); [lia|].
  destruct (c <? nextController w)%nat; [done|lia].
Qed.

(** A Supplier that only ever returns identifiers already seen: the
    attempt, suspended at its [a]-th call, makes the calls that are left to
    it and ends without a push. *)
Lemma duplicates_exhaust c ms : forall a w,
  find_task c (tasks w) = Some (mkFill c a AwaitSupplier) ->
  (1 <= a <= maxAttempts)%nat ->
  length ms = (S maxAttempts - a)%nat ->
  Forall (fun m => movie_id m ∈ seenIds (this w)) ms ->
  queue_length (this w) < size (this w) ->
  calls_of c (trace w (answers c ms)) = (maxAttempts - a)%nat /\
  queued_items (trace w (answers c ms)) = [] /\
  this (final w (answers c ms)) = set_inFlight (inFlight (this w) ∖ {[c]}) (this w) /\
  find_task c (tasks (final w (answers c ms))) = None.
Proof.
  unfold maxAttempts.
  induction ms as [|m ms IH]; intros a w Hf Ha Hl Hd Hq; [cbn in Hl; lia|].
  apply Forall_cons in Hd as [Hd1 Hd2]. cbn [answers fmap list_fmap].
  fold (answers c ms). rewrite final_cons, trace_cons. cbn [step]. rewrite Hf. cbn [phase].
  unfold fillOne_resume. cbn [controller attempt this set_tasks].
  rewrite bool_decide_eq_true_2 by exact Hd1.
  unfold fillOne_loop. cbn [this set_tasks]. apply Z.ltb_lt in Hq. rewrite Hq.
  unfold maxAttempts.
  destruct (Nat.ltb_spec a 6) as [Hlt|Hge]; cbn [andb fst snd].
  - match goal with |- context [final ?x _] => set (w1 := x) end.
    destruct (IH (S a) w1) as (I1 & I2 & I3 & I4); try assumption; try lia.
    { subst w1. unfold find_task. cbn. by rewrite Nat.eqb_refl. }
    { cbn in Hl |- *. lia. }
    { by apply Z.ltb_lt. }
    rewrite calls_of_app, queued_items_app, I1, I2, I3, I4. cbn. rewrite Nat.eqb_refl.
    repeat split; try done. lia.
  - assert (ms = []) as -> by (destruct ms; [done|cbn in Hl; lia]).
    cbn. repeat split; try done; [lia|]. apply find_task_drop_eq.
Qed.

(** The first coroutine that a fill cycle launches. *)
Lemma fill_first w :
  wf w -> wants_more (this w) = true ->
  find_task (nextController w) (tasks (fst (fill w)))
    = Some (mkFill (nextController w) 1 AwaitSupplier) /\
  calls_of (nextController w) (snd (fill w)) = 1%nat.
Proof.
  intros H M. unfold fill. rewrite (wf_filling _ H).
  set (w0 := on_this (set_filling true) w).
  assert (M0 : wants_more (this w0) = true) by exact M.
  assert (Hfuel : exists fuel, tick_fuel (this w0) = S fuel).
  { unfold wants_more in M0. apply andb_true_iff in M0 as [_ M0]. apply Z.ltb_lt in M0.
    unfold tick_fuel. exists (Nat.pred (Z.to_nat
      (concurrency (this w0) - Z.of_nat (base.size (inFlight (this w0)))))). lia. }
  destruct Hfuel as [fuel ->]. rewrite tick_loop_unfold, M0.
  pose proof (tick_turn_launches w0 M0) as A.
  destruct (tick_turn w0) as [w1 o1]. cbn [fst snd] in A.
  destruct (tick_loop_launches fuel w1) as [new B].
  destruct (tick_loop fuel w1) as [w2 o2]. cbn [fst snd] in B |- *.
  assert (Hnew : nextController w ∉ controller <$> new).
  { intros Hin. apply list_elem_of_fmap in Hin as (t & E & Ht).
    pose proof (l_new _ _ _ _ B) as F. rewrite Forall_forall in F.
    destruct (F t Ht) as [F1 _].
    pose proof (l_new _ _ _ _ A) as F2. apply Forall_singleton in F2 as [F2 _]. cbn in F2. lia. }
  assert (T : tasks (if wants_more (this (on_this (set_filling false) w2))
                     then set_timers (S (timers (on_this (set_filling false) w2)))
                            (on_this (set_filling false) w2)
                     else on_this (set_filling false) w2) = tasks w2)
    by (destruct (wants_more (this (on_this (set_filling false) w2))); reflexivity).
  rewrite T, (l_tasks _ _ _ _ B), (l_tasks _ _ _ _ A), find_task_app. split.
  - destruct (find_task (nextController w) new) as [t|] eqn:E.
    { apply find_task_Some in E as [E1 E2]. exfalso. apply Hnew, list_elem_of_fmap. eauto. }
    unfold find_task. cbn. by rewrite Nat.eqb_refl.
  - rewrite calls_of_app, (l_obs _ _ _ _ A), (l_obs _ _ _ _ B). cbn.
    rewrite Nat.eqb_refl.
    replace ((fun t => ObsCall (controller t) (filters (this w1))) <$> reverse new)
      with ((fun c' => ObsCall c' (filters (this w1))) <$> (controller <$> reverse new))
      by (by rewrite <- list_fmap_compose).
    destruct (first_calls_other (nextController w) (filters (this w1)) (controller <$> reverse new))
      as [-> _]; [|done].
    by rewrite fmap_reverse, elem_of_reverse.
Qed.

(** C9. In every world [w] that a freshly constructed instance can reach,
    and in every continuation from it: one fetch attempt (the [fillOne]
    that holds controller [c]) calls the Supplier at most 6 times and
    pushes at most one item; once it has pushed it neither calls nor
    pushes again.  Duplicates use up attempts: when the Supplier answers
    the first attempt launched by a fill cycle six times with identifiers
    already seen, while the queue stays below capacity, that attempt makes
    exactly 6 calls, queues nothing and ends (it is suspended no more and
    its handle has left the in-flight set). *)
Theorem fetch_attempt_bounded (opts : ConfigOpts) (ls_size ls_concurrency : option Z)
    (evs0 evs : list Event) (c : nat) :
  let w := final (boot (constructor opts ls_size ls_concurrency)) evs0 in
  (calls_of c (trace w evs) <= 6)%nat /\
  (length (queued_by c (trace w evs)) <= 1)%nat /\
  (forall pre m post,
     trace w evs = pre ++ ObsQueued c m :: post ->
     calls_of c post = 0%nat /\ queued_by c post = []) /\
  (forall ms,
     wants_more (this w) = true -> length ms = 6%nat ->
     Forall (fun m => movie_id m ∈ seenIds (this w)) ms ->
     let c0 := nextController w in
     let dup := EvFill :: answers c0 ms in
     calls_of c0 (trace w dup) = 6%nat /\
     queued_items (trace w dup) = [] /\
     queue (this (final w dup)) = queue (this w) /\
     find_task c0 (tasks (final w dup)) = None /\
     (c0 ∉ inFlight (this (final w dup)))).
Proof.
  intros w.
  assert (H : wf w).
  { apply run_wf. by destruct (constructor_capped opts ls_size ls_concurrency). }
  pose proof (run_attempt c evs w H) as A.
  apply (attempt_ok_mono _ _ _ _ (status_bound c w)) in A.
  destruct (attempt_ok_counts _ _ _ A) as (A1 & _ & A3 & A4).
  split; [by apply A1|]. split; [exact A3|]. split; [exact A4|].
  intros ms M Hl Hd c0 dup. subst dup.
  rewrite final_cons, trace_cons. cbn [step].
  destruct (fill_first w H M) as [F1 F2]. fold c0 in F1, F2.
  destruct (fill_launches w) as [new L]. destruct (fill_queue w) as [Q1 Q2].
  destruct (duplicates_exhaust c0 ms 1 (fst (fill w))) as (D1 & D2 & D3 & D4);
    try assumption; try (unfold maxAttempts; lia).
  { by rewrite (l_seenIds _ _ _ _ L). }
  { unfold queue_length. rewrite (l_queue _ _ _ _ L), (l_size _ _ _ _ L).
    unfold wants_more in M. apply andb_true_iff in M as [M _]. by apply Z.ltb_lt in M. }
  rewrite calls_of_app, queued_items_app, F2, D1, D2, D3, D4, Q2. cbn.
  rewrite Q1. repeat split; try done. set_solver.
Qed.

(** The shared instance has queued film 1; the second attempt of the fill
    cycle is answered with film 1 six times: six calls, nothing more
    queued. *)
Lemma always_duplicate_example :
  let evs := EvFill :: EvSupplier 0 (Candidate (film 1)) :: EvFill
             :: answers 1 [film 1; film 1; film 1; film 1; film 1; film 1] in
  calls_of 1 (trace (boot prefetchQueue) evs) = 6%nat /\
  queued_ids (trace (boot prefetchQueue) evs) = [1] /\
  tasks (final (boot prefetchQueue) evs) = [mkFill 2 1 AwaitSupplier].
Proof. repeat split; reflexivity. Qed.

(** ** The concurrency ceiling *)

Lemma capped_shrink w w' :
  inFlight (this w') ⊆ inFlight (this w) -> concurrency (this w) <= concurrency (this w') ->
  capped w -> capped w'.
Proof.
  unfold capped. intros H1 H2 H. apply subseteq_size in H1. lia.
Qed.

Lemma allocated_same w w' :
  inFlight (this w') ⊆ inFlight (this w) -> nextController w' = nextController w ->
  allocated w -> allocated w'.
Proof. intros H1 H2 H c Hc. rewrite H2. apply H. set_solver. Qed.

Lemma launches_capped w w' new o : launches w w' new o -> allocated w -> capped w -> capped w'.
Proof.
  intros L Hw H. unfold capped. rewrite (l_concurrency _ _ _ _ L).
  destruct new as [|t new].
  - rewrite (l_inFlight _ _ _ _ L). cbn. by rewrite union_empty_r_L.
  - destruct (l_room _ _ _ _ L) as [_ R]; [done|]. by apply R.
Qed.

Lemma fill_capped w : allocated w -> capped w -> capped (fst (fill w)).
Proof. intros Hw H. destruct (fill_launches w) as [new L]. by eapply launches_capped. Qed.

Lemma fillOne_loop_capped c a w : capped w -> capped (fst (fillOne_loop c a w)).
Proof.
  unfold fillOne_loop. destruct (_ && _); cbn [fst]; [done|].
  apply capped_shrink; cbn; [set_solver|lia].
Qed.

Lemma fillOne_resume_capped t r w : capped w -> capped (fst (fillOne_resume t r w)).
Proof.
  unfold fillOne_resume. destruct r as [m| |]; cbn [fst]; try done.
  - case_bool_decide; [apply fillOne_loop_capped|]. cbn [fst].
    apply capped_shrink; cbn; [set_solver|lia].
  - apply capped_shrink; cbn; [set_solver|lia].
Qed.

Lemma next_loop_capped k st tmo now w :
  allocated w -> capped w -> capped (fst (next_loop k st tmo now w)).
Proof.
  intros Hw H. unfold next_loop. destruct (now - st <? tmo); [|exact H].
  destruct (queue (this w)); [exact H|].
  match goal with |- context [fill ?x] =>
    pose proof (fill_capped x) as F; destruct (fill x) end.
  cbn [fst] in *. by apply F.
Qed.

Lemma fill_allocated w : allocated w -> allocated (fst (fill w)).
Proof.
  intros Hw. destruct (fill_launches w) as [new L]. intros c Hc.
  rewrite (l_inFlight _ _ _ _ L) in Hc. apply elem_of_union in Hc as [Hc|Hc].
  - specialize (Hw _ Hc). pose proof (l_next _ _ _ _ L). lia.
  - apply elem_of_list_to_set, list_elem_of_fmap in Hc as (t & -> & Ht).
    pose proof (l_new _ _ _ _ L) as F. rewrite Forall_forall in F.
    destruct (F t Ht) as [? _]. lia.
Qed.

(** A step that does not lower the limit keeps the in-flight set within it. *)
Lemma step_capped w ev :
  wf w -> capped w ->
  concurrency (this w) <= concurrency (this (fst (step w ev))) ->
  capped (fst (step w ev)).
Proof.
  intros H C. pose proof (wf_allocated _ H) as Hw. destruct ev; cbn [step].
  - unfold setConfig.
    match goal with |- context [fill ?x] => set (w0 := x) end.
    assert (E : inFlight (this w0) = inFlight (this w) /\ nextController w0 = nextController w).
    { subst w0. destruct (opt_size opts) as [n|], (opt_concurrency opts) as [n'|];
        repeat match goal with |- context [if ?b then _ else _] => destruct b end; done. }
    destruct E as [E1 E2].
    destruct (fill_launches w0) as [new L]. rewrite (l_concurrency _ _ _ _ L).
    intros Hc. apply fill_capped.
    + apply (allocated_same w); [by rewrite E1|exact E2|exact Hw].
    + apply (capped_shrink w); [by rewrite E1|exact Hc|exact C].
  - intros _. unfold setFilters. destruct (same_filters _ f); [exact C|].
    unfold cancel. cbn [default].
    match goal with |- context [fill ?x] =>
      pose proof (fill_capped x) as F; destruct (fill x) end.
    cbn [fst] in *. apply F.
    + intros c Hc. cbn in Hc. set_solver.
    + unfold capped in *. cbn. rewrite size_empty. lia.
  - intros _. by apply fill_capped.
  - intros _. unfold next. cbn [this set_nextCall]. destruct (queue (this w)).
    + match goal with |- context [fill ?x] =>
        pose proof (fill_capped x) as F; pose proof (fill_allocated x) as G;
        destruct (fill x) as [w1 o1] end.
      pose proof (next_loop_capped (nextCall w) t0 (default 8000 timeout) t1 w1) as N.
      destruct (next_loop _ _ _ _ w1). cbn [fst] in *. apply N; [by apply G | by apply F].
    + match goal with |- context [fill ?x] =>
        pose proof (fill_capped x) as F; destruct (fill x) end.
      cbn [fst] in *. by apply F.
  - intros _. unfold cancel. cbn [fst]. unfold capped in *.
    destruct (default false clearQueue); cbn; rewrite size_empty; lia.
  - intros _. exact C.
  - intros _. destruct (find_task c (tasks w)) as [t|]; [|exact C].
    destruct (phase t); [|exact C]. by apply fillOne_resume_capped.
  - intros _. destruct (find_task c (tasks w)) as [t|]; [|exact C].
    destruct (phase t); [exact C|]. by apply fillOne_loop_capped.
  - intros _. destruct (find_waiter k (waiters w)); [|exact C]. by apply next_loop_capped.
  - intros _. destruct (timers w); [exact C|]. by apply fill_capped.
Qed.

Lemma run_capped evs : forall w,
  wf w -> capped w -> keeps_limit w evs = true -> capped (final w evs).
Proof.
  induction evs as [|ev evs IH]; intros w H C K; [exact C|].
  cbn [keeps_limit] in K. apply andb_true_iff in K as [K1 K2]. apply Z.leb_le in K1.
  rewrite final_cons. apply IH; [by apply step_wf | by apply step_capped | exact K2].
Qed.

Lemma awaiting_le_length ts : (awaiting ts <= length ts)%nat.
Proof. unfold awaiting. apply List.filter_length_le. Qed.

(** While the handles of all attempts are in flight, the attempts are no
    more than the in-flight set. *)
Lemma tasks_le_inFlight w :
  wf w -> attached w -> (length (tasks w) <= base.size (inFlight (this w)))%nat.
Proof.
  intros H A. rewrite <- (length_fmap controller).
  rewrite <- (size_list_to_set (C := gset nat)) by apply (wf_nodup _ H).
  apply subseteq_size. intros c Hc.
  apply elem_of_list_to_set, list_elem_of_fmap in Hc as (t & -> & Ht). by apply A.
Qed.

(** *** Attempts that no one cancelled *)

Lemma attached_same w w' :
  tasks w' = tasks w -> inFlight (this w') = inFlight (this w) -> attached w -> attached w'.
Proof. intros E1 E2 A t Ht. rewrite E1 in Ht. rewrite E2. by apply A. Qed.

Lemma fill_attached w : attached w -> attached (fst (fill w)).
Proof.
  intros A. destruct (fill_launches w) as [new L]. intros t Ht.
  rewrite (l_tasks _ _ _ _ L) in Ht. rewrite (l_inFlight _ _ _ _ L).
  apply elem_of_app in Ht as [Ht|Ht]; [|apply elem_of_union_l; by apply A].
  apply elem_of_union_r, elem_of_list_to_set, list_elem_of_fmap. eauto.
Qed.

(** The attempt of [c] was taken off the list to be resumed: it ends, or
    it is suspended again. *)
Lemma finally_attached c w0 w :
  attached w0 -> tasks w = drop_task c (tasks w0) -> inFlight (this w) = inFlight (this w0) ->
  attached (fillOne_finally c w).
Proof.
  intros A E1 E2 t Ht. cbn in Ht |- *. rewrite E1 in Ht. rewrite E2.
  apply elem_of_drop_task in Ht as [Ht Hn]. apply elem_of_difference.
  split; [by apply A|]. by apply not_elem_of_singleton.
Qed.

Lemma suspend_attached c t a ph w :
  attached w -> find_task c (tasks w) = Some t ->
  attached (set_tasks (mkFill c a ph :: drop_task c (tasks w)) w).
Proof.
  intros A Hf t' Ht'. apply find_task_Some in Hf as [Ht Hc]. cbn in Ht' |- *.
  apply elem_of_cons in Ht' as [->|Ht'].
  - cbn. rewrite <- Hc. by apply A.
  - apply elem_of_drop_task in Ht' as [Ht' _]. by apply A.
Qed.

Lemma fillOne_loop_attached c t a w :
  attached w -> find_task c (tasks w) = Some t ->
  attached (fst (fillOne_loop c a (set_tasks (drop_task c (tasks w)) w))).
Proof.
  intros A Hf. unfold fillOne_loop. destruct (_ && _); cbn [fst].
  - by apply (suspend_attached c t (S a) AwaitSupplier w).
  - by apply (finally_attached c w).
Qed.

Lemma fillOne_resume_attached c t r w :
  attached w -> find_task c (tasks w) = Some t ->
  attached (fst (fillOne_resume t r (set_tasks (drop_task c (tasks w)) w))).
Proof.
  intros A Hf. pose proof (find_task_Some _ _ _ Hf) as [_ Hc].
  unfold fillOne_resume. rewrite Hc. destruct r as [m| |]; cbn [fst].
  - case_bool_decide; [by apply (fillOne_loop_attached c t)|]. cbn [fst].
    by apply (finally_attached c w).
  - by apply (suspend_attached c t (attempt t) AwaitBackoff w).
  - by apply (finally_attached c w).
Qed.

Lemma next_loop_attached k st tmo now w :
  attached w -> attached (fst (next_loop k st tmo now w)).
Proof.
  intros A. unfold next_loop. destruct (now - st <? tmo); [|by apply (attached_same w)].
  destruct (queue (this w)); [by apply (attached_same w)|].
  match goal with |- context [fill ?x] =>
    pose proof (fill_attached x) as F; destruct (fill x) end.
  cbn [fst] in *. apply F. by apply (attached_same w).
Qed.

(** A step that does not cancel leaves every suspended attempt its handle
    in the in-flight set. *)
Lemma step_attached w ev :
  attached w ->
  match ev with
  | EvCancel _ => false
  | EvSetFilters f => same_filters (filters (this w)) f
  | _ => true
  end = true ->
  attached (fst (step w ev)).
Proof.
  intros A K. destruct ev; cbn [step]; try done.
  - unfold setConfig. apply fill_attached.
    destruct (opt_size opts) as [n|], (opt_concurrency opts) as [n'|];
      repeat match goal with |- context [if ?b then _ else _] => destruct b end;
      by apply (attached_same w).
  - unfold setFilters. by rewrite K.
  - by apply fill_attached.
  - unfold next. cbn [this set_nextCall]. destruct (queue (this w)).
    + match goal with |- context [fill ?x] =>
        pose proof (fill_attached x) as F; destruct (fill x) as [w1 o1] end.
      pose proof (next_loop_attached (nextCall w) t0 (default 8000 timeout) t1 w1) as N.
      destruct (next_loop _ _ _ _ w1). cbn [fst] in *. apply N, F.
      by apply (attached_same w).
    + match goal with |- context [fill ?x] =>
        pose proof (fill_attached x) as F; destruct (fill x) end.
      cbn [fst] in *. apply F. by apply (attached_same w).
  - destruct (find_task c (tasks w)) as [t|] eqn:Hf; [|exact A].
    destruct (phase t); [|exact A]. by apply (fillOne_resume_attached c).
  - destruct (find_task c (tasks w)) as [t|] eqn:Hf; [|exact A].
    destruct (phase t); [exact A|]. by apply (fillOne_loop_attached c t).
  - destruct (find_waiter k (waiters w)); [|exact A].
    apply next_loop_attached. by apply (attached_same w).
  - destruct (timers w); [exact A|]. apply fill_attached. by apply (attached_same w).
Qed.

Lemma run_attached evs : forall w,
  attached w -> never_cancels w evs = true -> attached (final w evs).
Proof.
  induction evs as [|ev evs IH]; intros w A K; [exact A|].
  cbn [never_cancels] in K. apply andb_true_iff in K as [K1 K2].
  rewrite final_cons. apply IH; [by apply step_attached|exact K2].
Qed.

(** C4, as stated, fails, in two ways.  The shared instance with two calls
    in flight is told to run one at a time: the two calls stay in flight,
    above the limit.  And with the limit untouched: the two calls in flight
    are cancelled, which empties the in-flight set but ends no attempt, and
    the next fill cycle launches two more; four Supplier calls are then
    outstanding against a limit of two, with two handles in the set. *)
Lemma always_capped_fails :
  (let w := final (boot prefetchQueue) [EvFill; EvSetConfig (mkOpts None (Some 1))] in
   base.size (inFlight (this w)) = 2%nat /\
   awaiting (tasks w) = 2%nat /\
   concurrency (this w) = 1 /\
   ~ Z.of_nat (base.size (inFlight (this w))) <= concurrency (this w)) /\
  (let evs := [EvFill; EvCancel (Some false); EvFill] in
   let w := final (boot prefetchQueue) evs in
   keeps_limit (boot prefetchQueue) evs = true /\
   concurrency (this w) = 2 /\
   base.size (inFlight (this w)) = 2%nat /\
   awaiting (tasks w) = 4%nat /\
   ~ Z.of_nat (awaiting (tasks w)) <= concurrency (this w)).
Proof.
  cbv zeta. split.
  - split; [by vm_compute|]. split; [by vm_compute|]. split; [by vm_compute|].
    vm_compute. congruence.
  - split; [by vm_compute|]. split; [by vm_compute|]. split; [by vm_compute|].
    split; [by vm_compute|]. vm_compute. congruence.
Qed.

(** C4, amended. In every execution of a freshly constructed instance in
    which no [setConfig] lowers [concurrency], the in-flight set holds at
    most [concurrency] handles at every point, however often [fill] is
    invoked; and a handle is in the set only while its attempt is still
    suspended: the step at which an attempt ends, whether it pushed, was
    rejected, used up its attempts or found the queue full, takes its
    handle out.  If moreover nothing is cancelled in the execution (no
    [cancel], no [setFilters] that changes the filters), the in-flight set
    holds exactly the handles of the suspended attempts, so that the
    attempts, and with them the outstanding Supplier calls, are at most
    [concurrency]. *)
Theorem inFlight_bounded (opts : ConfigOpts) (ls_size ls_concurrency : option Z)
    (evs : list Event) :
  keeps_limit (boot (constructor opts ls_size ls_concurrency)) evs = true ->
  let w' := final (boot (constructor opts ls_size ls_concurrency)) evs in
  Z.of_nat (base.size (inFlight (this w'))) <= concurrency (this w') /\
  (forall c, c ∈ inFlight (this w') -> c ∈ controller <$> tasks w') /\
  (forall ev c,
     c ∈ controller <$> tasks w' -> c ∉ controller <$> tasks (fst (step w' ev)) ->
     c ∉ inFlight (this (fst (step w' ev)))) /\
  (forall c t m,
     find_task c (tasks w') = Some t -> phase t = AwaitSupplier ->
     movie_id m ∉ seenIds (this w') ->
     (c ∉ inFlight (this (fst (step w' (EvSupplier c (Candidate m)))))) /\
     (c ∉ inFlight (this (fst (step w' (EvSupplier c Throws)))))) /\
  (never_cancels (boot (constructor opts ls_size ls_concurrency)) evs = true ->
   (forall c, c ∈ inFlight (this w') <-> c ∈ controller <$> tasks w') /\
   Z.of_nat (length (tasks w')) = Z.of_nat (base.size (inFlight (this w'))) /\
   Z.of_nat (awaiting (tasks w')) <= Z.of_nat (length (tasks w')) /\
   Z.of_nat (length (tasks w')) <= concurrency (this w')).
Proof.
  intros K w'. destruct (constructor_capped opts ls_size ls_concurrency) as [H C].
  pose proof (run_wf evs _ H) as H'. fold w' in H'.
  pose proof (run_capped evs _ H C K) as C'. fold w' in C'.
  split; [exact C'|]. split; [apply (wf_inFlight _ H')|]. split; [|split].
  - intros ev c _ Hc Hin. apply Hc. by apply (wf_inFlight _ (step_wf w' ev H')).
  - intros c t m Hf Hp Hm. cbn [step]. rewrite Hf, Hp. unfold fillOne_resume.
    rewrite bool_decide_eq_false_2 by exact Hm. cbn.
    apply find_task_Some in Hf as [_ ->]. set_solver.
  - intros N.
    assert (A : attached w').
    { apply run_attached; [|exact N]. intros t Ht. by apply elem_of_nil in Ht. }
    assert (E : forall c, c ∈ inFlight (this w') <-> c ∈ controller <$> tasks w').
    { intros c. split; [apply (wf_inFlight _ H')|].
      intros (t & -> & Ht)%list_elem_of_fmap. by apply A. }
    assert (L : length (tasks w') = base.size (inFlight (this w'))).
    { rewrite <- (length_fmap controller).
      rewrite <- (size_list_to_set (C := gset nat)) by apply (wf_nodup _ H').
      f_equal. apply set_eq. intros c. rewrite elem_of_list_to_set. symmetry. apply E. }
    split; [exact E|]. split; [by rewrite L|].
    pose proof (awaiting_le_length (tasks w')). unfold capped in C'. split; lia.
Qed.

(** The limit is raised from 2 to 4, the calls in flight are cancelled, and
    the fill cycles that follow bring the in-flight set to 4.  Without the
    cancellation, one call answered with nothing and the limit raised:
    four attempts, of which three wait for the Supplier. *)
Lemma inFlight_bounded_witness :
  let w := boot (constructor (mkOpts (Some 3) (Some 2)) None None) in
  let evs := [EvFill; EvFill; EvSetConfig (mkOpts (Some 5) (Some 4)); EvCancel None; EvFill; EvFill] in
  let evs' := [EvFill; EvSupplier 0 NoCandidate; EvSetConfig (mkOpts (Some 5) (Some 4)); EvFill] in
  (keeps_limit w evs = true /\
   base.size (inFlight (this (final w evs))) = 4%nat /\
   Z.of_nat (base.size (inFlight (this (final w evs)))) <= concurrency (this (final w evs))) /\
  (keeps_limit w evs' = true /\ never_cancels w evs' = true /\
   awaiting (tasks (final w evs')) = 3%nat /\
   Z.of_nat (awaiting (tasks (final w evs'))) <= Z.of_nat (length (tasks (final w evs'))) /\
   Z.of_nat (length (tasks (final w evs'))) <= concurrency (this (final w evs'))).
Proof.
  cbv zeta. split.
  - assert (K : keeps_limit (boot (constructor (mkOpts (Some 3) (Some 2)) None None))
                  [EvFill; EvFill; EvSetConfig (mkOpts (Some 5) (Some 4)); EvCancel None;
                   EvFill; EvFill] = true) by (vm_compute; reflexivity).
    split; [exact K|]. split; [vm_compute; reflexivity|].
    pose proof (inFlight_bounded (mkOpts (Some 3) (Some 2)) None None
      [EvFill; EvFill; EvSetConfig (mkOpts (Some 5) (Some 4)); EvCancel None; EvFill; EvFill]
      K) as H.
    cbv zeta in H. exact (proj1 H).
  - assert (K : keeps_limit (boot (constructor (mkOpts (Some 3) (Some 2)) None None))
                  [EvFill; EvSupplier 0 NoCandidate; EvSetConfig (mkOpts (Some 5) (Some 4));
                   EvFill] = true) by (vm_compute; reflexivity).
    assert (N : never_cancels (boot (constructor (mkOpts (Some 3) (Some 2)) None None))
                  [EvFill; EvSupplier 0 NoCandidate; EvSetConfig (mkOpts (Some 5) (Some 4));
                   EvFill] = true) by (vm_compute; reflexivity).
    split; [exact K|]. split; [exact N|]. split; [vm_compute; reflexivity|].
    pose proof (inFlight_bounded (mkOpts (Some 3) (Some 2)) None None
      [EvFill; EvSupplier 0 NoCandidate; EvSetConfig (mkOpts (Some 5) (Some 4)); EvFill]
      K) as H.
    cbv zeta in H. destruct H as (_ & _ & _ & _ & H).
    destruct (H N) as (_ & _ & H1 & H2). split; [exact H1|exact H2].
Defined.

(** ** Capacity *)

Lemma awaiting_drop_le c ts : (awaiting (drop_task c ts) <= awaiting ts)%nat.
Proof.
  unfold awaiting, drop_task. induction ts as [|t ts IH]; cbn; [lia|].
  destruct (negb (controller t =? c)%nat); cbn; destruct (awaits_supplier t); cbn; lia.
Qed.

Lemma awaiting_drop_found c ts t :
  NoDup (controller <$> ts) -> find_task c ts = Some t -> phase t = AwaitSupplier ->
  awaiting ts = S (awaiting (drop_task c ts)).
Proof.
  unfold awaiting, find_task.
  induction ts as [|t' ts IH]; cbn; intros N F P; [discriminate|].
  apply NoDup_cons in N as [N1 N2].
  destruct (Nat.eqb_spec (controller t') c) as [E|E]; cbn.
  - injection F as ->. unfold awaits_supplier at 1. rewrite P. cbn.
    replace (List.filter (fun t0 => negb (controller t0 =? c)%nat) ts) with ts; [done|].
    symmetry. apply List.forallb_filter_id, List.forallb_forall. intros x Hx.
    apply negb_true_iff, Nat.eqb_neq. intros Ex. apply N1. rewrite E, <- Ex.
    apply list_elem_of_fmap. exists x. split; [done|by apply list_elem_of_In].
  - specialize (IH N2 F P). fold (drop_task c ts). destruct (awaits_supplier t'); cbn; lia.
Qed.

Lemma awaiting_cons t ts :
  awaiting (t :: ts) = ((if awaits_supplier t then 1 else 0) + awaiting ts)%nat.
Proof. unfold awaiting. cbn. by destruct (awaits_supplier t). Qed.

(** Below capacity the bound holds whatever is outstanding. *)
Lemma room_bounded w :
  wf w -> attached w -> capped w -> queue_length (this w) < size (this w) -> bounded w.
Proof.
  intros H A C R. unfold bounded, capped in *.
  pose proof (tasks_le_inFlight w H A). pose proof (awaiting_le_length (tasks w)). lia.
Qed.

Lemma bounded_le w w' :
  size (this w') = size (this w) -> concurrency (this w') = concurrency (this w) ->
  queue_length (this w') + Z.of_nat (awaiting (tasks w'))
    <= queue_length (this w) + Z.of_nat (awaiting (tasks w)) ->
  bounded w -> bounded w'.
Proof. unfold bounded. intros -> ->. lia. Qed.

Lemma settled_same w w' :
  tasks w' = tasks w -> inFlight (this w') = inFlight (this w) ->
  nextController w' = nextController w -> filling (this w') = filling (this w) ->
  size (this w') = size (this w) -> concurrency (this w') = concurrency (this w) ->
  (length (queue (this w')) <= length (queue (this w)))%nat ->
  settled w -> settled w'.
Proof.
  intros E1 E2 E3 E4 E5 E6 E7 []. split.
  - eapply wf_same; [..|eassumption]; try done. by rewrite E2.
  - intros t Ht. rewrite E1 in Ht. rewrite E2. auto.
  - unfold capped. by rewrite E2, E6.
  - eapply bounded_le; [..|eassumption]; try done. unfold queue_length. rewrite E1. lia.
Qed.

Lemma fill_settled w : settled w -> settled (fst (fill w)).
Proof.
  intros []. destruct (fill_launches w) as [new L].
  assert (W : wf (fst (fill w))) by by apply fill_wf.
  assert (A : attached (fst (fill w))).
  { intros t Ht. rewrite (l_tasks _ _ _ _ L) in Ht. rewrite (l_inFlight _ _ _ _ L).
    apply elem_of_app in Ht as [Ht|Ht]; [|set_solver].
    apply elem_of_union_r, elem_of_list_to_set, list_elem_of_fmap. eauto. }
  assert (C : capped (fst (fill w))) by (apply fill_capped; [by apply wf_allocated|done]).
  split; try assumption.
  destruct new as [|t new].
  - eapply bounded_le; [apply L|apply L| |eassumption].
    unfold queue_length. rewrite (l_queue _ _ _ _ L), (l_tasks _ _ _ _ L). cbn [app]. lia.
  - apply room_bounded; try assumption.
    destruct (l_room _ _ _ _ L) as [R _]; [done|].
    unfold queue_length in *. by rewrite (l_queue _ _ _ _ L), (l_size _ _ _ _ L).
Qed.

(** The attempt of [c], resumed, is suspended again. *)
Lemma suspend_settled c t a ph w :
  settled w -> find_task c (tasks w) = Some t -> (1 <= a <= maxAttempts)%nat ->
  (ph = AwaitSupplier -> phase t = AwaitBackoff -> queue_length (this w) < size (this w)) ->
  settled (set_tasks (mkFill c a ph :: drop_task c (tasks w)) w).
Proof.
  intros [] Hf Ha Hr. destruct (resume_running c t w s_wf0 Hf) as [R _].
  pose proof (find_task_Some _ _ _ Hf) as [Ht Hc].
  assert (W : wf (set_tasks (mkFill c a ph :: drop_task c (tasks w)) w))
    by (by apply (suspend_wf c a ph _ R)).
  assert (A : attached (set_tasks (mkFill c a ph :: drop_task c (tasks w)) w)).
  { intros t' Ht'. cbn in Ht' |- *. apply elem_of_cons in Ht' as [->|Ht'].
    - cbn. rewrite <- Hc. by apply s_attached0.
    - apply elem_of_drop_task in Ht' as [Ht' _]. by apply s_attached0. }
  split; try assumption.
  assert (N : NoDup (controller <$> tasks w)) by apply (wf_nodup _ s_wf0).
  pose proof (awaiting_drop_le c (tasks w)) as Hle.
  destruct ph, (phase t) eqn:Hp;
    try (apply (bounded_le w); [reflexivity|reflexivity| |assumption];
         cbn [this tasks set_tasks]; rewrite awaiting_cons; cbn [awaits_supplier phase];
         try rewrite (awaiting_drop_found c (tasks w) t N Hf Hp); lia).
  apply room_bounded; try assumption. by apply Hr.
Qed.

(** The attempt of [c], resumed, ends, having pushed [pushed] (one item
    at most, and only when it was waiting for the Supplier). *)
Lemma finally_settled c t w (f : PrefetchQueue -> PrefetchQueue) :
  settled w -> find_task c (tasks w) = Some t ->
  (forall q, size (f q) = size q /\ concurrency (f q) = concurrency q /\
             inFlight (f q) = inFlight q /\ filling (f q) = filling q) ->
  (queue (f (this w)) = queue (this w) \/
   phase t = AwaitSupplier /\ exists m, queue (f (this w)) = queue (this w) ++ [m]) ->
  settled (fillOne_finally c (on_this f (set_tasks (drop_task c (tasks w)) w))).
Proof.
  intros [] Hf Hfr Hq. destruct (resume_running c t w s_wf0 Hf) as [R _].
  pose proof (find_task_Some _ _ _ Hf) as [Ht Hc].
  set (w1 := on_this f (set_tasks (drop_task c (tasks w)) w)).
  destruct (Hfr (this w)) as (F1 & F2 & F3 & F4).
  assert (R1 : running c w1) by (eapply running_same; [..|exact R]; done).
  assert (W : wf (fillOne_finally c w1)) by by apply finally_wf.
  split; try assumption.
  - intros t' Ht'. cbn in Ht' |- *. apply elem_of_drop_task in Ht' as [Ht' Hn].
    rewrite F3. apply elem_of_difference. split; [by apply s_attached0|set_solver].
  - apply (capped_shrink w); [cbn; rewrite F3; set_solver | cbn; lia | done].
  - apply (bounded_le w); [exact F1|exact F2| |assumption].
    unfold queue_length. cbn [this tasks fillOne_finally on_this set_this set_tasks w1 queue set_inFlight].
    destruct Hq as [->|(Hp & m & ->)].
    + pose proof (awaiting_drop_le c (tasks w)). lia.
    + rewrite length_app. cbn [length].
      rewrite (awaiting_drop_found c (tasks w) t) by (try assumption; apply (wf_nodup _ s_wf0)).
      lia.
Qed.

Lemma fillOne_loop_settled c t a w :
  settled w -> find_task c (tasks w) = Some t -> (1 <= a <= maxAttempts)%nat ->
  settled (fst (fillOne_loop c a (set_tasks (drop_task c (tasks w)) w))).
Proof.
  intros St Hf Ha. unfold fillOne_loop. cbn [this set_tasks].
  destruct (Nat.ltb_spec a maxAttempts) as [Hlt|Hge]; cbn [andb];
    [destruct (Z.ltb_spec (queue_length (this w)) (size (this w))) as [Hr|Hr]|]; cbn [fst].
  - apply (suspend_settled c t (S a) AwaitSupplier w St Hf); [lia|auto].
  - apply (finally_settled c t w (fun q => q) St Hf); [done|by left].
  - apply (finally_settled c t w (fun q => q) St Hf); [done|by left].
Qed.

Lemma fillOne_resume_settled c t r w :
  settled w -> find_task c (tasks w) = Some t -> phase t = AwaitSupplier ->
  settled (fst (fillOne_resume t r (set_tasks (drop_task c (tasks w)) w))).
Proof.
  intros St Hf Hp.
  destruct (resume_running c t w (s_wf _ St) Hf) as [_ Ha].
  pose proof (find_task_Some _ _ _ Hf) as [_ Hc].
  unfold fillOne_resume. rewrite Hc. destruct r as [m| |]; cbn [fst].
  - case_bool_decide; [by apply (fillOne_loop_settled c t)|]. cbn [fst].
    match goal with |- settled (fillOne_finally c (on_this ?f _)) =>
      apply (finally_settled c t w f St Hf); [done|] end.
    right. split; [exact Hp|]. by exists m.
  - apply (suspend_settled c t (attempt t) AwaitBackoff w St Hf Ha). discriminate.
  - apply (finally_settled c t w (fun q => q) St Hf); [done|by left].
Qed.

Lemma next_loop_settled k st tmo now w : settled w -> settled (fst (next_loop k st tmo now w)).
Proof.
  intros St. unfold next_loop. destruct (now - st <? tmo).
  - destruct (queue (this w)) as [|item rest] eqn:Hq.
    + cbn [fst]. eapply settled_same; [..|exact St]; done.
    + match goal with |- context [fill ?x] =>
        pose proof (fill_settled x) as F; destruct (fill x) end.
      cbn [fst] in *. apply F. eapply settled_same; [..|exact St]; try done.
      cbn. rewrite Hq. cbn. lia.
  - cbn [fst]. eapply settled_same; [..|exact St]; done.
Qed.

(** The invariant of the steady runs is kept by every steady step. *)
Lemma step_settled w ev : steady ev -> settled w -> settled (fst (step w ev)).
Proof.
  intros Hs St. destruct ev; cbn [steady step] in *; try done.
  - by apply fill_settled.
  - unfold next. cbn [this set_nextCall]. destruct (queue (this w)) as [|item rest] eqn:Hq.
    + match goal with |- context [fill ?x] =>
        pose proof (fill_settled x) as F; destruct (fill x) as [w1 o1] end.
      pose proof (next_loop_settled (nextCall w) t0 (default 8000 timeout) t1 w1) as N.
      destruct (next_loop _ _ _ _ w1). cbn [fst] in *. apply N, F.
      eapply settled_same; [..|exact St]; done.
    + match goal with |- context [fill ?x] =>
        pose proof (fill_settled x) as F; destruct (fill x) end.
      cbn [fst] in *. apply F. eapply settled_same; [..|exact St]; try done.
      cbn. rewrite Hq. cbn. lia.
  - cbn [fst]. eapply settled_same; [..|exact St]; done.
  - destruct (find_task c (tasks w)) as [t|] eqn:Hf; [|exact St].
    destruct (phase t) eqn:Hp; [|exact St]. by apply (fillOne_resume_settled c).
  - destruct (find_task c (tasks w)) as [t|] eqn:Hf; [|exact St].
    destruct (phase t) eqn:Hp; [exact St|].
    apply (fillOne_loop_settled c t); [exact St|exact Hf|].
    by destruct (resume_running c t w (s_wf _ St) Hf).
  - destruct (find_waiter k (waiters w)); [|exact St].
    apply next_loop_settled. eapply settled_same; [..|exact St]; done.
  - destruct (timers w); [exact St|].
    apply fill_settled. eapply settled_same; [..|exact St]; done.
Qed.

Lemma steady_config w ev :
  steady ev ->
  size (this (fst (step w ev))) = size (this w) /\
  concurrency (this (fst (step w ev))) = concurrency (this w).
Proof.
  assert (F : forall x, size (this (fst (fill x))) = size (this x) /\
                        concurrency (this (fst (fill x))) = concurrency (this x)).
  { intros x. destruct (fill_launches x) as [new L]. split; apply L. }
  assert (G : forall c a x, size (this (fst (fillOne_loop c a x))) = size (this x) /\
                        concurrency (this (fst (fillOne_loop c a x))) = concurrency (this x)).
  { intros c a x. unfold fillOne_loop. by destruct (_ && _). }
  assert (N : forall k st tmo now x,
             size (this (fst (next_loop k st tmo now x))) = size (this x) /\
             concurrency (this (fst (next_loop k st tmo now x))) = concurrency (this x)).
  { intros k st tmo now x. unfold next_loop. destruct (now - st <? tmo); [|done].
    destruct (queue (this x)); [done|].
    match goal with |- context [fill ?y] => destruct (F y) as [F1 F2]; destruct (fill y) end.
    cbn [fst] in *. by rewrite F1, F2. }
  intros Hs. destruct ev; cbn [steady step] in *; try done.
  - unfold next. cbn [this set_nextCall]. destruct (queue (this w)).
    + match goal with |- context [fill ?y] =>
        destruct (F y) as [F1 F2]; destruct (fill y) as [w1 o1] end.
      destruct (N (nextCall w) t0 (default 8000 timeout) t1 w1) as [N1 N2].
      destruct (next_loop _ _ _ _ w1). cbn [fst] in *. by rewrite N1, N2, F1, F2.
    + match goal with |- context [fill ?y] => destruct (F y) as [F1 F2]; destruct (fill y) end.
      cbn [fst] in *. by rewrite F1, F2.
  - destruct (find_task c (tasks w)) as [t|]; [|done].
    destruct (phase t); [|done]. unfold fillOne_resume. destruct r; cbn [fst]; try done.
    case_bool_decide; [|done].
    match goal with |- context [fillOne_loop ?a ?b ?x] => destruct (G a b x) as [-> ->] end.
    done.
  - destruct (find_task c (tasks w)) as [t|]; [|done].
    destruct (phase t); [done|].
    match goal with |- context [fillOne_loop ?a ?b ?x] => destruct (G a b x) as [-> ->] end.
    done.
  - destruct (find_waiter k (waiters w)); [|done].
    match goal with |- context [next_loop ?a ?b ?c ?d ?x] => destruct (N a b c d x) as [-> ->] end.
    done.
  - destruct (timers w); [done|].
    match goal with |- context [fill ?y] => destruct (F y) as [-> ->] end. done.
Qed.

Lemma run_settled evs : forall w,
  Forall steady evs -> settled w ->
  settled (final w evs) /\
  size (this (final w evs)) = size (this w) /\
  concurrency (this (final w evs)) = concurrency (this w).
Proof.
  induction evs as [|ev evs IH]; intros w F St; [done|].
  apply Forall_cons in F as [F1 F2]. rewrite final_cons.
  destruct (IH (fst (step w ev)) F2 (step_settled _ _ F1 St)) as (I1 & I2 & I3).
  destruct (steady_config w ev F1) as [C1 C2].
  split; [exact I1|]. by rewrite I2, I3, C1, C2.
Qed.

Lemma constructor_settled opts ls_size ls_concurrency :
  settled (boot (constructor opts ls_size ls_concurrency)).
Proof.
  destruct (constructor_capped opts ls_size ls_concurrency) as [W C].
  split; try assumption.
  - intros t Ht. by apply elem_of_nil in Ht.
  - unfold bounded, queue_length. cbn. lia.
Qed.

(** *** Production stops at capacity *)

Lemma fill_call_room w c f :
  ObsCall c f ∈ snd (fill w) ->
  queue_length (this (fst (fill w))) < size (this (fst (fill w))).
Proof.
  destruct (fill_launches w) as [new L]. rewrite (l_obs _ _ _ _ L).
  intros H. destruct new as [|t new]; [by apply elem_of_nil in H|].
  destruct (l_room _ _ _ _ L) as [R _]; [done|].
  unfold queue_length in *. by rewrite (l_queue _ _ _ _ L), (l_size _ _ _ _ L).
Qed.

Lemma fillOne_loop_call_room c0 a w c f :
  ObsCall c f ∈ snd (fillOne_loop c0 a w) ->
  queue_length (this (fst (fillOne_loop c0 a w))) < size (this (fst (fillOne_loop c0 a w))).
Proof.
  unfold fillOne_loop. destruct (a <? maxAttempts)%nat; cbn [andb];
    [destruct (Z.ltb_spec (queue_length (this w)) (size (this w))) as [R|R]|]; cbn [fst snd];
    intros H; try (by apply elem_of_nil in H).
  exact R.
Qed.

Lemma next_loop_call_room k st tmo now w c f :
  ObsCall c f ∈ snd (next_loop k st tmo now w) ->
  queue_length (this (fst (next_loop k st tmo now w)))
  < size (this (fst (next_loop k st tmo now w))).
Proof.
  unfold next_loop. destruct (now - st <? tmo).
  - destruct (queue (this w)); [cbn; intros H; by apply elem_of_nil in H|].
    match goal with |- context [fill ?x] =>
      pose proof (fill_call_room x c f) as F; destruct (fill x) end.
    cbn [fst snd] in *. intros H. apply F.
    apply elem_of_app in H as [H|H]; [exact H|].
    apply list_elem_of_singleton in H. discriminate.
  - cbn. intros H. apply list_elem_of_singleton in H. discriminate.
Qed.

(** The queue of [next_loop] can only get shorter. *)
Lemma next_loop_shrinks k st tmo now w :
  size (this (fst (next_loop k st tmo now w))) = size (this w) /\
  queue_length (this (fst (next_loop k st tmo now w))) <= queue_length (this w).
Proof.
  unfold next_loop. destruct (now - st <? tmo); [|split; [reflexivity|apply Z.le_refl]].
  destruct (queue (this w)) as [|item rest] eqn:Hq; [split; [reflexivity|apply Z.le_refl]|].
  match goal with |- context [fill ?x] =>
    destruct (fill_launches x) as [new L]; destruct (fill x) end.
  cbn [fst] in *. unfold queue_length.
  rewrite (l_size _ _ _ _ L), (l_queue _ _ _ _ L).
  cbn [this on_this set_this set_stats set_queue queue size count_servedAfterWait].
  rewrite Hq. cbn [length]. lia.
Qed.

(** A Supplier call is only started while the queue is below capacity. *)
Lemma step_call_room w ev c f :
  ObsCall c f ∈ snd (step w ev) ->
  queue_length (this (fst (step w ev))) < size (this (fst (step w ev))).
Proof.
  destruct ev; cbn [step].
  - apply fill_call_room.
  - unfold setFilters. destruct (same_filters _ f0); [cbn; intros Hin; by apply elem_of_nil in Hin|].
    unfold cancel. cbn [default].
    match goal with |- context [fill ?x] =>
      pose proof (fill_call_room x c f) as F; destruct (fill x) end.
    cbn [fst snd] in *. intros Hin. apply F.
    apply elem_of_app in Hin as [Hin|Hin].
    { apply list_elem_of_fmap in Hin as (? & ? & _). discriminate. }
    apply elem_of_app in Hin as [Hin|Hin]; [exact Hin|].
    apply list_elem_of_singleton in Hin. discriminate.
  - apply fill_call_room.
  - unfold next. cbn [this set_nextCall]. destruct (queue (this w)).
    + match goal with |- context [fill ?x] =>
        pose proof (fill_call_room x c f) as F; destruct (fill x) as [w1 o1] end.
      pose proof (next_loop_call_room (nextCall w) t0 (default 8000 timeout) t1 w1 c f) as N.
      destruct (next_loop_shrinks (nextCall w) t0 (default 8000 timeout) t1 w1) as [N1 N2].
      destruct (next_loop _ _ _ _ w1). cbn [fst snd] in *. intros Hin.
      apply elem_of_app in Hin as [Hin|Hin]; [|by apply N]. specialize (F Hin). lia.
    + match goal with |- context [fill ?x] =>
        pose proof (fill_call_room x c f) as F; destruct (fill x) end.
      cbn [fst snd] in *. intros Hin. apply F.
      apply elem_of_app in Hin as [Hin|Hin]; [exact Hin|].
      apply list_elem_of_singleton in Hin. discriminate.
  - unfold cancel. cbn [snd]. intros Hin.
    apply list_elem_of_fmap in Hin as (? & ? & _). discriminate.
  - cbn. intros Hin. by apply elem_of_nil in Hin.
  - destruct (find_task c0 (tasks w)) as [t|]; [|cbn; intros Hin; by apply elem_of_nil in Hin].
    destruct (phase t); [|cbn; intros Hin; by apply elem_of_nil in Hin].
    unfold fillOne_resume. destruct r as [m| |]; cbn [fst snd];
      try (intros Hin; by apply elem_of_nil in Hin).
    case_bool_decide; [apply fillOne_loop_call_room|].
    cbn. intros Hin. apply list_elem_of_singleton in Hin. discriminate.
  - destruct (find_task c0 (tasks w)) as [t|]; [|cbn; intros Hin; by apply elem_of_nil in Hin].
    destruct (phase t); [cbn; intros Hin; by apply elem_of_nil in Hin|].
    apply fillOne_loop_call_room.
  - destruct (find_waiter k (waiters w)); [|cbn; intros Hin; by apply elem_of_nil in Hin].
    apply next_loop_call_room.
  - destruct (timers w); [cbn; intros Hin; by apply elem_of_nil in Hin|].
    apply fill_call_room.
Qed.

(** C2, as stated, fails.  The shared instance (size 3, concurrency 2):
    with two items queued and nothing in flight, a fill cycle launches two
    attempts, since the queue is below capacity; both are answered, and
    each pushes.  The buffer is at rest with four items. *)
Lemma capacity_at_rest_fails :
  let evs := [EvFill; EvSupplier 0 (Candidate (film 1)); EvFill;
              EvSupplier 1 (Candidate (film 2)); EvFill;
              EvSupplier 2 (Candidate (film 3)); EvSupplier 3 (Candidate (film 4))] in
  let w := final (boot prefetchQueue) evs in
  forallb fill_or_answer evs = true /\
  at_rest w /\
  size (this w) = 3 /\
  queue_length (this w) = 4 /\
  ~ queue_length (this w) <= size (this w).
Proof. cbv zeta. unfold at_rest. repeat split; vm_compute; congruence. Qed.

(** C2, amended. In every run of a freshly constructed instance made of
    [fill] invocations, calls of [next], Supplier answers and timers (no
    reconfiguration, no cancellation), the queue length plus the number of
    outstanding Supplier calls never exceeds [size + concurrency - 1]; so
    the queue never holds more than [size + concurrency - 1] items, at rest
    or not.  A Supplier call is only started while the queue is below
    [size]; the queue may still exceed [size], by up to [concurrency - 1],
    because a call started below capacity pushes its item when it is
    answered, whatever the queue length is by then. *)
Theorem capacity_overshoot_bounded (opts : ConfigOpts) (ls_size ls_concurrency : option Z)
    (evs : list Event) :
  Forall steady evs ->
  let w0 := boot (constructor opts ls_size ls_concurrency) in
  let w' := final w0 evs in
  queue_length (this w') + Z.of_nat (awaiting (tasks w'))
    <= Z.max 0 (size (this w0) + concurrency (this w0) - 1) /\
  queue_length (this w') <= Z.max 0 (size (this w0) + concurrency (this w0) - 1) /\
  size (this w') = size (this w0) /\ concurrency (this w') = concurrency (this w0) /\
  (forall ev c f,
     ObsCall c f ∈ snd (step w' ev) ->
     queue_length (this (fst (step w' ev))) < size (this (fst (step w' ev)))).
Proof.
  intros F w0 w'.
  destruct (run_settled evs w0 F (constructor_settled opts ls_size ls_concurrency))
    as (St' & E1 & E2).
  fold w' in St', E1, E2.
  pose proof (s_bounded _ St') as B. unfold bounded in B. rewrite E1, E2 in B.
  split; [exact B|]. split; [lia|]. split; [exact E1|]. split; [exact E2|].
  intros ev c f. apply step_call_room.
Qed.

(** The run that overshoots: four items with size 3 and concurrency 2. *)
Lemma capacity_overshoot_bounded_witness :
  let w0 := boot (constructor (mkOpts (Some 3) (Some 2)) None None) in
  let evs := [EvFill; EvSupplier 0 (Candidate (film 1)); EvFill;
              EvSupplier 1 (Candidate (film 2)); EvFill;
              EvSupplier 2 (Candidate (film 3)); EvSupplier 3 (Candidate (film 4))] in
  queue_length (this (final w0 evs)) = 4 /\
  queue_length (this (final w0 evs)) <= Z.max 0 (size (this w0) + concurrency (this w0) - 1).
Proof.
  cbv zeta. split; [reflexivity|].
  apply (capacity_overshoot_bounded (mkOpts (Some 3) (Some 2)) None None).
  repeat constructor.
Defined.

(** ** Back-off *)

Lemma jitter_range rnd : (0 <= rnd)%Q -> (rnd < 1)%Q -> 0 <= jitter rnd < 80.
Proof.
  intros H0 H1. unfold jitter. split.
  - change 0 with (Qfloor 0). apply Qfloor_resp_le. lra.
  - pose proof (Qfloor_le (rnd * 80)) as F.
    rewrite Zlt_Qlt. eapply Qle_lt_trans; [exact F|]. change (inject_Z 80) with 80%Q. lra.
Qed.

Lemma backoff_base_succ n : (backoff_base (S n) == backoff_base n * (8 # 5))%Q.
Proof.
  unfold backoff_base. rewrite Nat2Z.inj_succ, <- Z.add_1_r.
  rewrite Qpower_plus by discriminate. change ((8 # 5) ^ 1)%Q with (8 # 5)%Q. ring.
Qed.

(** From the first attempt on the base delay is at least 192 ms, so a step
    of the growth outweighs any jitter. *)
Lemma backoff_base_lower n : (1 <= n)%nat -> (192 <= backoff_base n)%Q.
Proof.
  induction 1 as [|n H IH].
  - vm_compute. discriminate.
  - rewrite backoff_base_succ. lra.
Qed.

(** C7. For every attempt number [n >= 1] and every value of
    [Math.random()] in [[0, 1)], computing over the rationals: the delay is
    [min(1500, 120 * 1.6^n + jitter)] where the jitter is an integer of
    [[0, 80)]; the uncapped delay lies in [[120 * 1.6^n, 120 * 1.6^n + 80)];
    the delay never exceeds 1500 and is the uncapped one whenever that is
    at most 1500; and the delay of attempt [n + 1] is never less than the
    delay of attempt [n], whatever the two jitters. *)
Theorem backoff_delay_bounds (n : nat) (rnd rnd' : Q) :
  (1 <= n)%nat ->
  (0 <= rnd)%Q -> (rnd < 1)%Q ->
  (0 <= rnd')%Q -> (rnd' < 1)%Q ->
  backoff n rnd = Qmin 1500 (120 * (8 # 5) ^ Z.of_nat n + inject_Z (jitter rnd))%Q /\
  0 <= jitter rnd < 80 /\
  (120 * (8 # 5) ^ Z.of_nat n <= backoff_uncapped n rnd)%Q /\
  (backoff_uncapped n rnd < 120 * (8 # 5) ^ Z.of_nat n + 80)%Q /\
  (backoff n rnd <= 1500)%Q /\
  ((backoff_uncapped n rnd <= 1500)%Q -> (backoff n rnd == backoff_uncapped n rnd)%Q) /\
  (backoff n rnd <= backoff (S n) rnd')%Q.
Proof.
  intros Hn H0 H1 H0' H1'.
  pose proof (jitter_range rnd H0 H1) as [J1 J2].
  pose proof (jitter_range rnd' H0' H1') as [J1' J2'].
  pose proof (backoff_base_lower n Hn) as B. pose proof (backoff_base_succ n) as E.
  split; [reflexivity|]. split; [lia|].
  rewrite Zle_Qle in J1, J1'. rewrite Zlt_Qlt in J2, J2'.
  change (inject_Z 0) with 0%Q in *. change (inject_Z 80) with 80%Q in *.
  unfold backoff, backoff_uncapped. fold (backoff_base n).
  split; [lra|]. split; [lra|]. split; [apply Q.le_min_l|].
  split; [intros H; by apply Q.min_r|].
  apply Q.min_le_compat_l. rewrite E. lra.
Qed.

(** The third attempt with [Math.random() = 0.5], then the fourth with
    [Math.random() = 0]: 531.52 ms, then 786.432 ms. *)
Lemma backoff_delay_bounds_witness :
  (backoff 3 (1 # 2) == 13288 # 25)%Q /\
  (backoff 4 0 == 98304 # 125)%Q /\
  (backoff 3 (1 # 2) <= backoff 4 0)%Q.
Proof.
  split; [reflexivity|]. split; [reflexivity|].
  apply (backoff_delay_bounds 3 (1 # 2) 0); try lia; try (vm_compute; congruence).
Defined.

(** * Further properties *)

(** ** More of the prefetch queue *)

Lemma world_eta w :
  mkWorld (mkQueue (size (this w)) (concurrency (this w)) (queue (this w)) (seenIds (this w))
             (inFlight (this w)) (filling (this w)) (stats (this w)) (filters (this w)))
          (tasks w) (waiters w) (timers w) (aborted w) (nextController w) (nextCall w) = w.
Proof. destruct w as [[] ? ? ? ? ? ?]. reflexivity. Qed.

(** With nothing to launch and no cycle open, [fill] changes nothing. *)
Lemma fill_noop w :
  filling (this w) = false -> wants_more (this w) = false -> fill w = (w, []).
Proof.
  intros Hf M. unfold fill. rewrite Hf.
  set (w0 := on_this (set_filling true) w).
  assert (T : tick_loop (tick_fuel (this w0)) w0 = (w0, [])).
  { destruct (tick_fuel (this w0)) as [|fuel]; [reflexivity|].
    rewrite tick_loop_unfold. by replace (wants_more (this w0)) with false. }
  rewrite T.
  replace (wants_more (this (on_this (set_filling false) w0))) with false.
  f_equal. subst w0. rewrite <- (world_eta w) at 2. cbn. by rewrite Hf.
Qed.

(** X1. [fill] saturates and is idempotent: in every world that a
    constructed instance can reach, after [fill()] either the queue has
    reached [size] or the in-flight set has reached [concurrency], no
    re-fill timer is armed, and a second [fill()] right after the first
    does nothing: no new attempt, no observation, the same world. *)
Theorem fill_saturates (opts : ConfigOpts) (ls_size ls_concurrency : option Z)
    (evs : list Event) :
  let w := final (boot (constructor opts ls_size ls_concurrency)) evs in
  let w' := fst (step w EvFill) in
  (size (this w') <= queue_length (this w') \/
   concurrency (this w') <= Z.of_nat (base.size (inFlight (this w')))) /\
  timers w' = timers w /\
  step w' EvFill = (w', []).
Proof.
  intros w w'.
  assert (H : wf w).
  { apply run_wf. by destruct (constructor_capped opts ls_size ls_concurrency). }
  destruct (fill_done w (wf_allocated _ H) (wf_filling _ H)) as [M T].
  fold (step w EvFill) in M, T. fold w' in M, T.
  split; [|split; [exact T|]].
  - unfold wants_more in M. apply andb_false_iff in M as [M|M]; apply Z.ltb_ge in M; auto.
  - cbn [step]. apply fill_noop; [|exact M]. apply wf_filling. subst w'. by apply fill_wf.
Qed.

Lemma served_items_app a b : served_items (a ++ b) = served_items a ++ served_items b.
Proof. induction a as [|[| | | |k [m|]] a IH]; cbn; congruence. Qed.

Lemma nulls_app a b : nulls (a ++ b) = (nulls a + nulls b)%nat.
Proof. induction a as [|[| | | |k [m|]] a IH]; cbn; lia. Qed.

Lemma calls_app a b : calls (a ++ b) = (calls a + calls b)%nat.
Proof. induction a as [|[] a IH]; cbn; lia. Qed.

Lemma calls_only_more o :
  Forall (fun o => exists c f, o = ObsCall c f) o ->
  served_items o = [] /\ nulls o = 0%nat /\ calls o = length o.
Proof.
  induction 1 as [|x o (c & f & ->) _ (IH1 & IH2 & IH3)]; cbn; [done|].
  by rewrite IH1, IH2, IH3.
Qed.

Lemma aborts_only cs :
  queued_items (ObsAbort <$> cs) = [] /\ served_items (ObsAbort <$> cs) = [] /\
  nulls (ObsAbort <$> cs) = 0%nat /\ calls (ObsAbort <$> cs) = 0%nat.
Proof. induction cs; cbn; [done|assumption]. Qed.

(** *** The counters *)

Lemma accounts_refl w : accounts w w [].
Proof. unfold accounts. cbn. lia. Qed.

Lemma accounts_trans w1 w2 w3 o1 o2 :
  accounts w1 w2 o1 -> accounts w2 w3 o2 -> accounts w1 w3 (o1 ++ o2).
Proof.
  unfold accounts. rewrite queued_items_app, served_items_app, nulls_app, !length_app. lia.
Qed.

Lemma accounts_same w w' :
  stats (this w') = stats (this w) -> accounts w w' [].
Proof. unfold accounts. intros ->. cbn. lia. Qed.

Lemma fill_accounts w : accounts w (fst (fill w)) (snd (fill w)).
Proof.
  destruct (fill_launches w) as [new L]. pose proof (fill_obs w) as O.
  destruct (calls_only _ O) as (Q & _). destruct (calls_only_more _ O) as (S1 & S2 & _).
  destruct (l_stats _ _ _ _ L) as (E1 & E2 & E3 & E4 & _).
  unfold accounts. rewrite Q, S1, S2, E1, E2, E3, E4. cbn. lia.
Qed.

Lemma fillOne_loop_accounts c a w :
  accounts w (fst (fillOne_loop c a w)) (snd (fillOne_loop c a w)).
Proof. unfold fillOne_loop. destruct (_ && _); unfold accounts; cbn; lia. Qed.

Lemma fillOne_resume_accounts t r w :
  accounts w (fst (fillOne_resume t r w)) (snd (fillOne_resume t r w)).
Proof.
  unfold fillOne_resume. destruct r as [m| |]; try (unfold accounts; cbn; lia).
  case_bool_decide; [apply fillOne_loop_accounts|]. unfold accounts; cbn; lia.
Qed.

Lemma next_loop_accounts k st tmo now w :
  accounts w (fst (next_loop k st tmo now w)) (snd (next_loop k st tmo now w)).
Proof.
  unfold next_loop. destruct (now - st <? tmo); [|unfold accounts; cbn; lia].
  destruct (queue (this w)) as [|item rest]; [unfold accounts; cbn; lia|].
  match goal with |- context [fill ?x] =>
    pose proof (fill_accounts x) as F; destruct (fill x) as [w1 o1] end.
  cbn [fst snd] in *. eapply (accounts_trans _ w1) in F; [|apply accounts_refl].
  revert F. unfold accounts.
  rewrite !queued_items_app, !served_items_app, !nulls_app, !length_app. cbn. lia.
Qed.

Lemma step_accounts w ev :
  is_resetStats ev = false -> accounts w (fst (step w ev)) (snd (step w ev)).
Proof.
  intros R. destruct ev; try discriminate; cbn [step].
  - unfold setConfig.
    match goal with |- context [fill ?x] => pose proof (fill_accounts x) as F;
      assert (E : stats (this x) = stats (this w)) end.
    { destruct (opt_size opts) as [n|], (opt_concurrency opts) as [n'|];
        repeat match goal with |- context [if ?b then _ else _] => destruct b end; reflexivity. }
    revert F. unfold accounts. rewrite E. done.
  - unfold setFilters. destruct (same_filters _ f); [apply accounts_refl|].
    unfold cancel. cbn [default].
    match goal with |- context [fill ?x] =>
      pose proof (fill_accounts x) as F; destruct (fill x) as [w1 o1] end.
    cbn [fst snd] in *. revert F. unfold accounts.
    match goal with |- context [ObsAbort <$> ?cs] =>
      destruct (aborts_only cs) as (A1 & A2 & A3 & _) end.
    rewrite !queued_items_app, !served_items_app, !nulls_app, A1, A2, A3. cbn.
    rewrite !app_nil_r, Nat.add_0_r. done.
  - apply fill_accounts.
  - unfold next. cbn [this set_nextCall]. destruct (queue (this w)) as [|item rest].
    + match goal with |- context [fill ?x] =>
        pose proof (fill_accounts x) as F; destruct (fill x) as [w1 o1] end.
      pose proof (next_loop_accounts (nextCall w) t0 (default 8000 timeout) t1 w1) as N.
      destruct (next_loop _ _ _ _ w1) as [w2 o2]. cbn [fst snd] in *.
      apply (accounts_trans _ _ _ _ _ F N).
    + match goal with |- context [fill ?x] =>
        pose proof (fill_accounts x) as F; destruct (fill x) as [w1 o1] end.
      cbn [fst snd] in *. revert F. unfold accounts.
      rewrite !queued_items_app, !served_items_app, !nulls_app, !length_app. cbn. lia.
  - unfold cancel. cbn [fst snd]. unfold accounts.
    destruct (aborts_only (elements (inFlight (this w)))) as (A1 & A2 & A3 & _).
    rewrite A1, A2, A3. destruct (default false clearQueue); cbn; lia.
  - destruct (find_task c (tasks w)) as [t|]; [|apply accounts_refl].
    destruct (phase t); [|apply accounts_refl].
    match goal with |- context [fillOne_resume ?t ?r ?x] =>
      pose proof (fillOne_resume_accounts t r x) as F end. exact F.
  - destruct (find_task c (tasks w)) as [t|]; [|apply accounts_refl].
    destruct (phase t); [apply accounts_refl|].
    match goal with |- context [fillOne_loop ?c ?a ?x] =>
      pose proof (fillOne_loop_accounts c a x) as F end. exact F.
  - destruct (find_waiter k (waiters w)) as [n|]; [|apply accounts_refl].
    match goal with |- context [next_loop ?k ?a ?b ?d ?x] =>
      pose proof (next_loop_accounts k a b d x) as F end. exact F.
  - destruct (timers w); [apply accounts_refl|].
    match goal with |- context [fill ?x] => pose proof (fill_accounts x) as F end. exact F.
Qed.

(** X2. The counters are exact.  Over any run in which [resetStats] is not
    called: [stats.queued] grows by the number of items pushed,
    [servedImmediate + servedAfterWait] by the number of items that
    [next] returned, and [timeouts] by the number of [null]s it
    returned. *)
Theorem stats_account (w : World) (evs : list Event) :
  forallb (fun ev => negb (is_resetStats ev)) evs = true ->
  let w' := final w evs in
  let tr := trace w evs in
  queued (stats (this w')) = queued (stats (this w)) + Z.of_nat (length (queued_items tr)) /\
  servedImmediate (stats (this w')) + servedAfterWait (stats (this w'))
    = servedImmediate (stats (this w)) + servedAfterWait (stats (this w))
      + Z.of_nat (length (served_items tr)) /\
  timeouts (stats (this w')) = timeouts (stats (this w)) + Z.of_nat (nulls tr).
Proof.
  revert w. induction evs as [|ev evs IH]; intros w R; [apply accounts_refl|].
  cbn [forallb] in R. apply andb_true_iff in R as [R1 R2]. apply negb_true_iff in R1.
  cbv zeta. rewrite final_cons, trace_cons.
  apply (accounts_trans _ _ _ _ _ (step_accounts w ev R1)), IH, R2.
Qed.

(** The end-to-end scenario of the specification: capacity 3, concurrency
    2, every answer a fresh film. *)
Lemma stats_account_witness :
  let w := boot prefetchQueue in
  let evs := [EvFill; EvSupplier 0 (Candidate (film 1)); EvSupplier 1 (Candidate (film 2));
              EvFill; EvSupplier 2 (Candidate (film 3));
              EvNext None 0 0; EvNext None 1 1] in
  queued (stats (this (final w evs))) = 3 /\
  length (served_items (trace w evs)) = 2%nat /\
  queued (stats (this (final w evs)))
  = queued (stats (this w)) + Z.of_nat (length (queued_items (trace w evs))).
Proof.
  cbv zeta. split; [vm_compute; reflexivity|]. split; [vm_compute; reflexivity|].
  pose proof (stats_account (boot prefetchQueue)
    [EvFill; EvSupplier 0 (Candidate (film 1)); EvSupplier 1 (Candidate (film 2));
     EvFill; EvSupplier 2 (Candidate (film 3)); EvNext None 0 0; EvNext None 1 1]
    eq_refl) as H.
  exact (proj1 H).
Defined.

(** *** Nothing lost, nothing served twice *)

Lemma conserves_same w w' o :
  queue (this w') = queue (this w) -> queued_items o = [] -> served_items o = [] ->
  conserves w w' o.
Proof. unfold conserves. intros -> -> ->. by rewrite app_nil_r. Qed.

Lemma fill_conserves w : conserves w (fst (fill w)) (snd (fill w)).
Proof.
  destruct (fill_queue w) as [Q1 Q2]. apply conserves_same; [exact Q1|exact Q2|].
  apply calls_only_more, fill_obs.
Qed.

Lemma pop_fill_conserves w k item rest (f : PrefetchQueue -> PrefetchQueue) :
  queue (this w) = item :: rest -> (forall q, queue (f q) = queue q) ->
  conserves w (fst (fill (on_this (fun q => f (set_queue rest q)) w)))
    (snd (fill (on_this (fun q => f (set_queue rest q)) w)) ++ [ObsReturn k (Some item)]).
Proof.
  intros Q Hf.
  match goal with |- context [fill ?x] =>
    destruct (fill_queue x) as [Q1 Q2]; pose proof (fill_obs x) as O end.
  destruct (calls_only_more _ O) as (S1 & _).
  unfold conserves. rewrite queued_items_app, served_items_app, Q1, Q2, S1, Q. cbn.
  by rewrite Hf, app_nil_r.
Qed.

Lemma next_loop_conserves k st tmo now w :
  conserves w (fst (next_loop k st tmo now w)) (snd (next_loop k st tmo now w)).
Proof.
  unfold next_loop. destruct (now - st <? tmo); [|by apply conserves_same].
  destruct (queue (this w)) as [|item rest] eqn:Q; [by apply conserves_same|].
  pose proof (pop_fill_conserves w k item rest count_servedAfterWait Q (fun _ => eq_refl)) as P.
  destruct (fill _). exact P.
Qed.

Lemma step_conserves w ev :
  match ev with
  | EvSetFilters f => same_filters (filters (this w)) f
  | EvCancel (Some true) => false
  | _ => true
  end = true ->
  conserves w (fst (step w ev)) (snd (step w ev)).
Proof.
  intros K. destruct ev; cbn [step].
  - unfold setConfig.
    match goal with |- context [fill ?x] =>
      pose proof (fill_conserves x) as F; assert (E : queue (this x) = queue (this w)) end.
    { destruct (opt_size opts) as [n|], (opt_concurrency opts) as [n'|];
        repeat match goal with |- context [if ?b then _ else _] => destruct b end; reflexivity. }
    revert F. unfold conserves. by rewrite E.
  - unfold setFilters. rewrite K. by apply conserves_same.
  - apply fill_conserves.
  - unfold next. cbn [this set_nextCall]. destruct (queue (this w)) as [|item rest] eqn:Q.
    + match goal with |- context [fill ?x] =>
        pose proof (fill_conserves x) as F; destruct (fill x) as [w1 o1] end.
      pose proof (next_loop_conserves (nextCall w) t0 (default 8000 timeout) t1 w1) as N.
      destruct (next_loop _ _ _ _ w1) as [w2 o2]. cbn [fst snd] in *.
      revert F N. unfold conserves. cbn [this set_nextCall]. rewrite Q.
      rewrite queued_items_app, served_items_app. cbn [app].
      intros F N. rewrite F, <- !app_assoc. by rewrite N.
    + pose proof (pop_fill_conserves (set_nextCall (S (nextCall w)) w) (nextCall w) item rest
                    count_servedImmediate Q (fun _ => eq_refl)) as P.
      destruct (fill _). exact P.
  - unfold cancel. cbn [fst snd].
    destruct (aborts_only (elements (inFlight (this w)))) as (A1 & A2 & _).
    apply conserves_same; [|exact A1|exact A2].
    by destruct clearQueue as [[]|].
  - by apply conserves_same.
  - destruct (find_task c (tasks w)) as [t|]; [|by apply conserves_same].
    destruct (phase t); [|by apply conserves_same].
    unfold fillOne_resume. destruct r as [m| |]; cbn [fst snd]; try by apply conserves_same.
    case_bool_decide; [|unfold conserves; cbn; reflexivity].
    match goal with |- context [fillOne_loop ?c ?a ?x] =>
      destruct (fillOne_loop_queue c a x) as [Q1 Q2] end.
    apply conserves_same; [exact Q1|exact Q2|].
    unfold fillOne_loop. by destruct (_ && _).
  - destruct (find_task c (tasks w)) as [t|]; [|by apply conserves_same].
    destruct (phase t); [by apply conserves_same|].
    match goal with |- context [fillOne_loop ?c ?a ?x] =>
      destruct (fillOne_loop_queue c a x) as [Q1 Q2] end.
    apply conserves_same; [exact Q1|exact Q2|].
    unfold fillOne_loop. by destruct (_ && _).
  - destruct (find_waiter k (waiters w)) as [n|]; [|by apply conserves_same].
    match goal with |- context [next_loop ?k ?a ?b ?d ?x] =>
      pose proof (next_loop_conserves k a b d x) as F end. exact F.
  - destruct (timers w); [by apply conserves_same|].
    match goal with |- context [fill ?x] => pose proof (fill_conserves x) as F end. exact F.
Qed.

(** X3. Nothing is lost and nothing is served twice.  Over any run in which
    the queue is not emptied (no [cancel(true)], no [setFilters] that
    changes the filters), whatever the interleaving of pushes and calls of
    [next]: the items queued at the start followed by the items pushed, in
    push order, are exactly the items served, in the order [next] returned
    them, followed by the items still queued.  So [next] serves in push
    order, each item once. *)
Theorem queue_conservation (w : World) (evs : list Event) :
  keeps_queue w evs = true ->
  queue (this w) ++ queued_items (trace w evs)
  = served_items (trace w evs) ++ queue (this (final w evs)).
Proof.
  revert w. induction evs as [|ev evs IH]; intros w K.
  - cbn. by rewrite app_nil_r.
  - cbn [keeps_queue] in K. apply andb_true_iff in K as [K1 K2].
    rewrite final_cons, trace_cons, queued_items_app, served_items_app.
    pose proof (step_conserves w ev K1) as C. unfold conserves in C.
    rewrite app_assoc, C, <- !app_assoc. f_equal. by apply IH.
Qed.

(** Pushes and calls of [next] interleaved, with a cancellation that keeps
    the queue. *)
Lemma queue_conservation_witness :
  let w := boot prefetchQueue in
  let evs := [EvFill; EvSupplier 1 (Candidate (film 10)); EvNext None 0 0;
              EvSupplier 0 (Candidate (film 20)); EvCancel None;
              EvSupplier 2 (Candidate (film 30)); EvNext None 5 5; EvFill] in
  keeps_queue w evs = true /\
  served_items (trace w evs) = [film 10; film 20] /\
  queue (this w) ++ queued_items (trace w evs)
  = served_items (trace w evs) ++ queue (this (final w evs)).
Proof.
  cbv zeta. split; [vm_compute; reflexivity|]. split; [vm_compute; reflexivity|].
  exact (queue_conservation (boot prefetchQueue)
    [EvFill; EvSupplier 1 (Candidate (film 10)); EvNext None 0 0;
     EvSupplier 0 (Candidate (film 20)); EvCancel None;
     EvSupplier 2 (Candidate (film 30)); EvNext None 5 5; EvFill] eq_refl).
Defined.

(** *** The recorded peak *)

Lemma peaks_frame w w' :
  inFlight (this w') ⊆ inFlight (this w) ->
  inFlightMax (stats (this w')) = inFlightMax (stats (this w)) ->
  peaks w -> peaks w'.
Proof. unfold peaks. intros H1 -> H. apply subseteq_size in H1. lia. Qed.

Lemma under_frame w w' :
  inFlightMax (stats (this w')) = inFlightMax (stats (this w)) ->
  concurrency (this w) <= concurrency (this w') ->
  under w -> under w'.
Proof. unfold under. intros -> H. lia. Qed.

Lemma tick_turn_max w :
  wants_more (this w) = true ->
  peaks (fst (tick_turn w)) /\
  (under w -> under (fst (tick_turn w))) /\
  concurrency (this (fst (tick_turn w))) = concurrency (this w).
Proof.
  intros M. unfold wants_more in M. apply andb_true_iff in M as [Mq Mc].
  unfold tick_turn, fillOne, fillOne_loop. cbn [this on_this set_this set_nextController].
  unfold queue_length in *. cbn [queue set_inFlight size]. rewrite Mq. cbn [andb Nat.ltb Nat.leb maxAttempts].
  apply Z.ltb_lt in Mc. unfold peaks, under. cbn.
  pose proof (size_union_alt (inFlight (this w)) ({[nextController w]} : gset nat)) as U.
  assert (base.size (inFlight (this w) ∪ {[nextController w]})
          <= S (base.size (inFlight (this w))))%nat.
  { rewrite U. pose proof (size_singleton (C := gset nat) (nextController w)) as S1.
    assert (base.size (({[nextController w]} : gset nat) ∖ inFlight (this w))
            <= base.size ({[nextController w]} : gset nat))%nat
      by (apply subseteq_size; set_solver).
    lia. }
  repeat split; lia.
Qed.

Lemma tick_loop_max fuel : forall w,
  (peaks w -> peaks (fst (tick_loop fuel w))) /\
  (under w -> under (fst (tick_loop fuel w))) /\
  concurrency (this (fst (tick_loop fuel w))) = concurrency (this w).
Proof.
  induction fuel as [|fuel IH]; intros w; [done|].
  rewrite tick_loop_unfold. destruct (wants_more (this w)) eqn:M; [|done].
  destruct (tick_turn_max w M) as (T1 & T2 & T3).
  destruct (tick_turn w) as [w1 o1]. cbn [fst] in *.
  destruct (IH w1) as (I1 & I2 & I3). destruct (tick_loop fuel w1) as [w2 o2]. cbn [fst] in *.
  split; [auto|]. split; [auto|]. congruence.
Qed.

Lemma fill_max w :
  (peaks w -> peaks (fst (fill w))) /\ (under w -> under (fst (fill w))).
Proof.
  unfold fill. destruct (filling (this w)); [done|].
  set (w0 := on_this (set_filling true) w).
  destruct (tick_loop_max (tick_fuel (this w0)) w0) as (T1 & T2 & _).
  destruct (tick_loop _ w0) as [w1 o1]. cbn [fst] in *.
  destruct (wants_more (this (on_this (set_filling false) w1))); cbn [fst]; split; auto.
Qed.

Lemma fillOne_loop_max c a w :
  (peaks w -> peaks (fst (fillOne_loop c a w))) /\ (under w -> under (fst (fillOne_loop c a w))).
Proof.
  unfold fillOne_loop. destruct (_ && _); cbn [fst]; [done|]. split.
  - apply peaks_frame; cbn; [set_solver|done].
  - apply under_frame; cbn; [done|lia].
Qed.

Lemma fillOne_resume_max t r w :
  (peaks w -> peaks (fst (fillOne_resume t r w))) /\
  (under w -> under (fst (fillOne_resume t r w))).
Proof.
  unfold fillOne_resume. destruct r as [m| |]; cbn [fst]; try done.
  - case_bool_decide; [apply fillOne_loop_max|]. cbn [fst]. split.
    + apply peaks_frame; cbn; [set_solver|done].
    + apply under_frame; cbn; [done|lia].
  - split; [apply peaks_frame|apply under_frame]; cbn; try done; try lia. set_solver.
Qed.

Lemma next_loop_max k st tmo now w :
  (peaks w -> peaks (fst (next_loop k st tmo now w))) /\
  (under w -> under (fst (next_loop k st tmo now w))).
Proof.
  unfold next_loop. destruct (now - st <? tmo); [|done].
  destruct (queue (this w)); [done|].
  match goal with |- context [fill ?x] => destruct (fill_max x) as [F1 F2]; destruct (fill x) end.
  cbn [fst] in *. split; auto.
Qed.

Lemma step_max w ev :
  (is_resetStats ev = false -> peaks w -> peaks (fst (step w ev))) /\
  (concurrency (this w) <= concurrency (this (fst (step w ev))) ->
   under w -> under (fst (step w ev))).
Proof.
  destruct ev; cbn [step].
  - unfold setConfig.
    match goal with |- context [fill ?x] => set (w0 := x) end.
    assert (E : inFlight (this w0) = inFlight (this w) /\
                inFlightMax (stats (this w0)) = inFlightMax (stats (this w))).
    { subst w0. destruct (opt_size opts) as [n|], (opt_concurrency opts) as [n'|];
        repeat match goal with |- context [if ?b then _ else _] => destruct b end; done. }
    destruct E as [E1 E2]. destruct (fill_max w0) as [F1 F2].
    destruct (fill_launches w0) as [new L]. rewrite (l_concurrency _ _ _ _ L).
    split.
    + intros _ P. apply F1. unfold peaks in *. by rewrite E1, E2.
    + intros Hc U. apply F2. apply (under_frame w); [exact E2|exact Hc|exact U].
  - unfold setFilters. destruct (same_filters _ f); [done|].
    unfold cancel. cbn [default].
    match goal with |- context [fill ?x] => destruct (fill_max x) as [F1 F2]; destruct (fill x) end.
    cbn [fst] in *. split.
    + intros _ P. apply F1. revert P. apply peaks_frame; cbn; [set_solver|done].
    + intros _ U. apply F2. revert U. apply under_frame; cbn; [done|lia].
  - destruct (fill_max w). split; auto.
  - unfold next. cbn [this set_nextCall]. destruct (queue (this w)).
    + match goal with |- context [fill ?x] =>
        destruct (fill_max x) as [F1 F2]; destruct (fill x) as [w1 o1] end.
      destruct (next_loop_max (nextCall w) t0 (default 8000 timeout) t1 w1) as [N1 N2].
      destruct (next_loop _ _ _ _ w1). cbn [fst] in *. split; auto.
    + match goal with |- context [fill ?x] => destruct (fill_max x) as [F1 F2]; destruct (fill x) end.
      cbn [fst] in *. split; auto.
  - unfold cancel. cbn [fst]. split.
    + intros _. apply peaks_frame; destruct (default false clearQueue); cbn; try done; set_solver.
    + intros _. apply under_frame; destruct (default false clearQueue); cbn; try done; lia.
  - split; [discriminate|]. intros _. unfold under. cbn. lia.
  - destruct (find_task c (tasks w)) as [t|]; [|done].
    destruct (phase t); [|done].
    match goal with |- context [fillOne_resume ?t ?r ?x] =>
      destruct (fillOne_resume_max t r x) as [F1 F2] end. split; auto.
  - destruct (find_task c (tasks w)) as [t|]; [|done].
    destruct (phase t); [done|].
    match goal with |- context [fillOne_loop ?c ?a ?x] =>
      destruct (fillOne_loop_max c a x) as [F1 F2] end. split; auto.
  - destruct (find_waiter k (waiters w)) as [n|]; [|done].
    match goal with |- context [next_loop ?k ?a ?b ?d ?x] =>
      destruct (next_loop_max k a b d x) as [F1 F2] end. split; auto.
  - destruct (timers w); [done|].
    match goal with |- context [fill ?x] => destruct (fill_max x) as [F1 F2] end. split; auto.
Qed.

(** X4. [stats.inFlightMax] is the peak.  For a freshly constructed
    instance: as long as [resetStats] is not called, [inFlightMax] is never
    less than the number of handles in flight; and as long as [setConfig]
    does not lower [concurrency], [inFlightMax] never exceeds
    [concurrency]. *)
Theorem inFlightMax_peak (opts : ConfigOpts) (ls_size ls_concurrency : option Z)
    (evs : list Event) :
  let w0 := boot (constructor opts ls_size ls_concurrency) in
  let w' := final w0 evs in
  (forallb (fun ev => negb (is_resetStats ev)) evs = true ->
   Z.of_nat (base.size (inFlight (this w'))) <= inFlightMax (stats (this w'))) /\
  (keeps_limit w0 evs = true ->
   inFlightMax (stats (this w')) <= concurrency (this w')).
Proof.
  intros w0 w'. subst w'.
  assert (P0 : peaks w0) by (unfold peaks; cbn; rewrite size_empty; lia).
  assert (U0 : under w0) by (unfold under; cbn; lia).
  clearbody w0. split.
  - clear U0. revert w0 P0. induction evs as [|ev evs IH]; intros w P R; [exact P|].
    cbn [forallb] in R. apply andb_true_iff in R as [R1 R2]. apply negb_true_iff in R1.
    rewrite final_cons. apply IH; [|exact R2].
    by apply (proj1 (step_max w ev)).
  - clear P0. revert w0 U0. induction evs as [|ev evs IH]; intros w U K; [apply U|].
    cbn [keeps_limit] in K. apply andb_true_iff in K as [K1 K2]. apply Z.leb_le in K1.
    rewrite final_cons. apply IH; [|exact K2].
    by apply (proj2 (step_max w ev)).
Qed.

Lemma inFlightMax_peak_witness :
  let w' := final (boot (constructor (mkOpts None None) None None)) [EvFill; EvFill] in
  Z.of_nat (base.size (inFlight (this w'))) <= inFlightMax (stats (this w')) /\
  inFlightMax (stats (this w')) <= concurrency (this w').
Proof.
  intros w'.
  pose proof (inFlightMax_peak (mkOpts None None) None None [EvFill; EvFill]) as H.
  cbv zeta in H. destruct H as [H1 H2].
  split; [apply H1|apply H2]; vm_compute; reflexivity.
Defined.

(** *** The re-fill timer *)

Lemma fill_timers w : wf w -> timers (fst (fill w)) = timers w.
Proof. intros H. by apply fill_done; [apply wf_allocated|apply wf_filling]. Qed.

Lemma next_loop_timers k st tmo now w :
  wf w -> timers (fst (next_loop k st tmo now w)) = timers w.
Proof.
  intros H. unfold next_loop. destruct (now - st <? tmo); [|done].
  destruct (queue (this w)); [done|].
  match goal with |- context [fill ?x] =>
    pose proof (fill_timers x) as F; destruct (fill x) end.
  cbn [fst] in *. rewrite F; [done|wf_frame H].
Qed.

Lemma step_no_timer w ev : wf w -> timers w = 0%nat -> timers (fst (step w ev)) = 0%nat.
Proof.
  intros H T. destruct ev; cbn [step].
  - unfold setConfig.
    match goal with |- context [fill ?x] => rewrite (fill_timers x) end;
      destruct (opt_size opts) as [n|], (opt_concurrency opts) as [n'|];
      repeat match goal with |- context [if ?b then _ else _] => destruct b end;
      first [exact T | exact H | wf_frame H].
  - unfold setFilters. destruct (same_filters _ f); [exact T|].
    unfold cancel. cbn [default].
    match goal with |- context [fill ?x] =>
      pose proof (fill_timers x) as F; destruct (fill x) end.
    cbn [fst] in *. rewrite F; [exact T|wf_frame H].
  - by rewrite fill_timers.
  - unfold next. cbn [this set_nextCall]. destruct (queue (this w)).
    + match goal with |- context [fill ?x] =>
        pose proof (fill_timers x) as F; pose proof (fill_wf x) as W;
        destruct (fill x) as [w1 o1] end.
      pose proof (next_loop_timers (nextCall w) t0 (default 8000 timeout) t1 w1) as N.
      destruct (next_loop _ _ _ _ w1). cbn [fst] in *.
      assert (W0 : wf (set_nextCall (S (nextCall w)) w)) by (wf_frame H).
      rewrite N, F; auto.
    + match goal with |- context [fill ?x] =>
        pose proof (fill_timers x) as F; destruct (fill x) end.
      cbn [fst] in *. rewrite F; [exact T|wf_frame H].
  - unfold cancel. cbn [fst]. by destruct (default false clearQueue).
  - exact T.
  - destruct (find_task c (tasks w)) as [t|]; [|exact T].
    destruct (phase t); [|exact T].
    unfold fillOne_resume, fillOne_loop. destruct r; cbn [fst]; try exact T.
    case_bool_decide; [|exact T]. by destruct (_ && _).
  - destruct (find_task c (tasks w)) as [t|]; [|exact T].
    destruct (phase t); [exact T|]. unfold fillOne_loop. by destruct (_ && _).
  - destruct (find_waiter k (waiters w)); [|exact T].
    rewrite next_loop_timers; [exact T|wf_frame H].
  - by rewrite T.
Qed.

(** X5. The buffer does not refill by itself.  In every world that a
    constructed instance can reach, no [setTimeout(() => this.fill(), 10)]
    is pending: when the loop of a fill cycle stops, the test of its
    [finally] is false.  And the steps of the fetch attempts (a Supplier
    answer, the end of a back-off) never launch a new attempt.  So a buffer
    below capacity is topped up only when [fill], [next], [setConfig] or
    [setFilters] is called. *)
Theorem never_refills_itself (opts : ConfigOpts) (ls_size ls_concurrency : option Z)
    (evs : list Event) :
  let w := final (boot (constructor opts ls_size ls_concurrency)) evs in
  timers w = 0%nat /\
  step w EvFillTimer = (w, []) /\
  (forall c r, nextController (fst (step w (EvSupplier c r))) = nextController w) /\
  (forall c, nextController (fst (step w (EvBackoffDone c))) = nextController w).
Proof.
  intros w.
  assert (H : wf w /\ timers w = 0%nat).
  { subst w. generalize (proj1 (constructor_capped opts ls_size ls_concurrency)).
    assert (T0 : timers (boot (constructor opts ls_size ls_concurrency)) = 0%nat) by reflexivity.
    revert T0. generalize (boot (constructor opts ls_size ls_concurrency)).
    induction evs as [|ev evs IH]; intros w T H; [done|].
    rewrite final_cons. apply IH; [by apply step_no_timer|by apply step_wf]. }
  destruct H as [H T]. split; [exact T|]. split; [cbn [step]; by rewrite T|]. split.
  - intros c r. cbn [step]. destruct (find_task c (tasks w)) as [t|]; [|done].
    destruct (phase t); [|done].
    unfold fillOne_resume, fillOne_loop. destruct r; cbn [fst]; try done.
    case_bool_decide; [|done]. by destruct (_ && _).
  - intros c. cbn [step]. destruct (find_task c (tasks w)) as [t|]; [|done].
    destruct (phase t); [done|]. unfold fillOne_loop. by destruct (_ && _).
Qed.

(** *** A buffer of no capacity *)

Lemma size_kept w ev :
  is_setConfig ev = false -> size (this (fst (step w ev))) = size (this w).
Proof.
  intros C. destruct ev; try discriminate.
  - cbn [step]. unfold setFilters. destruct (same_filters _ f); [done|].
    unfold cancel. cbn [default].
    match goal with |- context [fill ?x] =>
      destruct (fill_launches x) as [new L]; destruct (fill x) end.
    cbn [fst] in *. by rewrite (l_size _ _ _ _ L).
  - by apply steady_config.
  - by apply steady_config.
  - cbn [step]. unfold cancel. cbn [fst]. by destruct (default false clearQueue).
  - by apply steady_config.
  - by apply steady_config.
  - by apply steady_config.
  - by apply steady_config.
  - by apply steady_config.
Qed.

Lemma no_call_calls o : (forall c f, ObsCall c f ∉ o) -> calls o = 0%nat.
Proof.
  induction o as [|x o IH]; intros H; [done|].
  assert (H' : forall c f, ObsCall c f ∉ o).
  { intros c f Hin. apply (H c f). apply elem_of_cons. by right. }
  destruct x; cbn; auto. exfalso. apply (H c f). apply elem_of_cons. by left.
Qed.

Lemma step_no_room w ev :
  size (this (fst (step w ev))) <= 0 -> calls (snd (step w ev)) = 0%nat.
Proof.
  intros S0. apply no_call_calls. intros c f Hin.
  apply step_call_room in Hin. unfold queue_length in Hin. lia.
Qed.

Lemma step_idle w ev :
  tasks w = [] -> calls (snd (step w ev)) = 0%nat ->
  tasks (fst (step w ev)) = [] /\ queued_items (snd (step w ev)) = [].
Proof.
  assert (F : forall x, tasks x = [] -> calls (snd (fill x)) = 0%nat ->
               tasks (fst (fill x)) = [] /\ queued_items (snd (fill x)) = []).
  { intros x Tx Cx. destruct (fill_launches x) as [new L]. pose proof (fill_obs x) as O.
    destruct (calls_only _ O) as (Q & _). destruct (calls_only_more _ O) as (_ & _ & Cl).
    split; [|exact Q]. rewrite (l_tasks _ _ _ _ L), Tx, app_nil_r.
    rewrite Cx in Cl. rewrite (l_obs _ _ _ _ L), length_fmap, length_reverse in Cl.
    by destruct new. }
  assert (N : forall k st tmo now x, tasks x = [] ->
               calls (snd (next_loop k st tmo now x)) = 0%nat ->
               tasks (fst (next_loop k st tmo now x)) = [] /\
               queued_items (snd (next_loop k st tmo now x)) = []).
  { intros k st tmo now x Tx. unfold next_loop. destruct (now - st <? tmo); [|done].
    destruct (queue (this x)); [done|].
    match goal with |- context [fill ?y] => pose proof (F y Tx) as Fy; destruct (fill y) end.
    cbn [fst snd] in *. rewrite calls_app, queued_items_app. cbn. rewrite Nat.add_0_r, app_nil_r.
    exact Fy. }
  intros T. destruct ev; cbn [step].
  - unfold setConfig. apply F.
    destruct (opt_size opts) as [n|], (opt_concurrency opts) as [n'|];
      repeat match goal with |- context [if ?b then _ else _] => destruct b end; exact T.
  - unfold setFilters. destruct (same_filters _ f); [done|].
    unfold cancel. cbn [default].
    match goal with |- context [fill ?y] => pose proof (F y T) as Fy; destruct (fill y) end.
    match goal with |- context [ObsAbort <$> ?cs] =>
      destruct (aborts_only cs) as (A1 & _ & _ & A4) end.
    cbn [fst snd] in *. rewrite !calls_app, !queued_items_app, A1, A4. cbn.
    rewrite Nat.add_0_r, app_nil_r. exact Fy.
  - by apply F.
  - unfold next. cbn [this set_nextCall]. destruct (queue (this w)).
    + match goal with |- context [fill ?y] =>
        pose proof (F y T) as Fy; destruct (fill y) as [w1 o1] end.
      pose proof (N (nextCall w) t0 (default 8000 timeout) t1 w1) as Ny.
      destruct (next_loop _ _ _ _ w1) as [w2 o2]. cbn [fst snd] in *.
      rewrite calls_app, queued_items_app. intros C.
      destruct Fy as [F1 F2]; [lia|]. destruct Ny as [N1 N2]; [exact F1|lia|].
      by rewrite F2, N2.
    + match goal with |- context [fill ?y] => pose proof (F y T) as Fy; destruct (fill y) end.
      cbn [fst snd] in *. rewrite calls_app, queued_items_app. cbn.
      rewrite Nat.add_0_r, app_nil_r. exact Fy.
  - unfold cancel. cbn [fst snd]. intros _.
    destruct (aborts_only (elements (inFlight (this w)))) as (A1 & _).
    split; [by destruct (default false clearQueue)|exact A1].
  - done.
  - by rewrite T.
  - by rewrite T.
  - destruct (find_waiter k (waiters w)); [|done]. by apply N.
  - destruct (timers w); [done|]. by apply F.
Qed.

Lemma step_empty w ev :
  is_setConfig ev = false ->
  size (this w) <= 0 -> tasks w = [] -> queue (this w) = [] ->
  size (this (fst (step w ev))) <= 0 /\ tasks (fst (step w ev)) = [] /\
  queue (this (fst (step w ev))) = [] /\
  calls (snd (step w ev)) = 0%nat /\ queued_items (snd (step w ev)) = [] /\
  served_items (snd (step w ev)) = [].
Proof.
  intros C S0 T Q.
  pose proof (size_kept w ev C) as E.
  assert (S1 : size (this (fst (step w ev))) <= 0) by lia.
  pose proof (step_no_room w ev S1) as N.
  destruct (step_idle w ev T N) as [T1 P].
  split; [exact S1|]. split; [exact T1|].
  assert (K : queue (this (fst (step w ev))) = [] /\ served_items (snd (step w ev)) = []).
  { destruct (match ev with
              | EvSetFilters f => same_filters (filters (this w)) f
              | EvCancel (Some true) => false
              | _ => true
              end) eqn:K.
    - pose proof (step_conserves w ev K) as Cv. unfold conserves in Cv.
      rewrite Q, P in Cv. cbn in Cv. symmetry in Cv. by apply app_eq_nil in Cv as [? ?].
    - destruct ev; try discriminate.
      + cbn [step]. unfold setFilters. rewrite K. unfold cancel. cbn [default].
        match goal with |- context [fill ?x] =>
          destruct (fill_queue x) as [Q1 _]; pose proof (fill_obs x) as O;
          destruct (fill x) end.
        cbn [fst snd] in *. destruct (calls_only_more _ O) as (S2 & _).
        match goal with |- context [ObsAbort <$> ?cs] =>
          destruct (aborts_only cs) as (_ & A2 & _) end.
        rewrite Q1, !served_items_app, A2, S2. done.
      + destruct clearQueue as [[]|]; try discriminate.
        cbn [step]. unfold cancel. cbn.
        by destruct (aborts_only (elements (inFlight (this w)))) as (_ & A2 & _). }
  destruct K as [K1 K2]. done.
Qed.

(** X6. A buffer whose [size] is not positive never fetches.  The
    constructor takes [opts.size] as it is when it is given ([??]), zero or
    negative included, where [setConfig] would ignore it.  From such an
    instance, as long as [setConfig] is not called, no Supplier call is
    ever started and nothing is ever pushed: the queue stays empty and
    [next] never returns an item. *)
Theorem no_capacity_never_fetches (n : Z) (c0 : option Z) (ls_size ls_concurrency : option Z)
    (evs : list Event) :
  n <= 0 ->
  forallb (fun ev => negb (is_setConfig ev)) evs = true ->
  let w0 := boot (constructor (mkOpts (Some n) c0) ls_size ls_concurrency) in
  size (this w0) = n /\
  calls (trace w0 evs) = 0%nat /\
  queued_items (trace w0 evs) = [] /\
  served_items (trace w0 evs) = [] /\
  queue (this (final w0 evs)) = [].
Proof.
  intros Hn C w0. split; [reflexivity|].
  assert (S0 : size (this w0) <= 0) by exact Hn.
  assert (T0 : tasks w0 = []) by reflexivity.
  assert (Q0 : queue (this w0) = []) by reflexivity.
  clearbody w0. revert w0 S0 T0 Q0.
  induction evs as [|ev evs IH]; intros w S0 T Q; [done|].
  cbn [forallb] in C. apply andb_true_iff in C as [C1 C2]. apply negb_true_iff in C1.
  destruct (step_empty w ev C1 S0 T Q) as (S1 & T1 & Q1 & N1 & P1 & R1).
  destruct (IH C2 _ S1 T1 Q1) as (I1 & I2 & I3 & I4).
  rewrite final_cons, trace_cons, calls_app, queued_items_app, served_items_app.
  by rewrite N1, P1, R1, I1, I2, I3, I4.
Qed.

(** [new PrefetchQueue({ size: 0 })]: fill, a call of [next] that times
    out, a filter change. *)
Lemma no_capacity_never_fetches_witness :
  let w0 := boot (constructor (mkOpts (Some 0) None) None None) in
  let evs := [EvFill; EvNext (Some 100) 0 0; EvPoll 0 200;
              EvSetFilters (mkFilters (Some 1990) None None); EvFill] in
  returns (trace w0 evs) = [(0%nat, None)] /\
  calls (trace w0 evs) = 0%nat.
Proof.
  cbv zeta. split; [vm_compute; reflexivity|].
  exact (proj1 (proj2 (no_capacity_never_fetches 0 None None None
    [EvFill; EvNext (Some 100) 0 0; EvPoll 0 200;
     EvSetFilters (mkFilters (Some 1990) None None); EvFill]
    ltac:(lia) eq_refl))).
Defined.

(** *** A wake-up with an item in the queue *)

(** X7. What a waiting [next] does when it wakes up and the queue holds
    items.  Before its deadline it takes the front item, counts it as
    served after wait (not as a timeout) and starts a fill cycle: in a
    well-formed world the buffer is saturated afterwards, and if the queue
    without the item is below [size] and the in-flight set below
    [concurrency], a new attempt is launched and calls the Supplier.  At or
    past its deadline the time test comes first: it returns [null] and
    counts a timeout although an item is there; the item stays at the front
    of the queue for the next call, and no fill cycle is started. *)
Theorem wake_up_with_item (w : World) (k : nat) (n : NextTask) (now : Z)
    (item : MovieResult) (rest : list MovieResult) :
  find_waiter k (waiters w) = Some n ->
  queue (this w) = item :: rest ->
  let w' := fst (step w (EvPoll k now)) in
  let o := snd (step w (EvPoll k now)) in
  (now - start n < timeoutMs n ->
   returns o = [(k, Some item)] /\ queue (this w') = rest /\
   servedAfterWait (stats (this w')) = servedAfterWait (stats (this w)) + 1 /\
   timeouts (stats (this w')) = timeouts (stats (this w)) /\
   find_waiter k (waiters w') = None /\
   (wf w ->
    wants_more (this w') = false /\
    (Z.of_nat (length rest) < size (this w) ->
     Z.of_nat (base.size (inFlight (this w))) < concurrency (this w) ->
     find_task (nextController w) (tasks w')
       = Some (mkFill (nextController w) 1 AwaitSupplier) /\
     calls_of (nextController w) o = 1%nat /\
     (nextController w < nextController w')%nat))) /\
  (timeoutMs n <= now - start n ->
   returns o = [(k, None)] /\ queue (this w') = item :: rest /\
   servedAfterWait (stats (this w')) = servedAfterWait (stats (this w)) /\
   timeouts (stats (this w')) = timeouts (stats (this w)) + 1 /\
   find_waiter k (waiters w') = None /\
   calls o = 0%nat /\ tasks w' = tasks w /\ nextController w' = nextController w).
Proof.
  intros F Q w' o.
  assert (D : find_waiter k (drop_waiter k (waiters w)) = None).
  { unfold find_waiter, drop_waiter. destruct (List.find _ _) as [x|] eqn:E; [|done].
    apply List.find_some in E as [E1 E2]. apply List.filter_In in E1 as [_ E1].
    by rewrite E2 in E1. }
  split; intros T.
  - subst w' o. cbn [step]. rewrite F. unfold next_loop. cbn [this set_waiters].
    rewrite Q. apply Z.ltb_lt in T. rewrite T.
    match goal with |- context [fill ?x] => set (x0 := x) end.
    destruct (fill_launches x0) as [new L]. pose proof (fill_obs x0) as O.
    pose proof (fill_done x0) as Dn. pose proof (fill_first x0) as Fi.
    destruct (fill x0) as [w1 o1]. cbn [fst snd] in *.
    destruct (calls_only _ O) as (_ & R & _).
    destruct (l_stats _ _ _ _ L) as (_ & _ & S3 & S4 & _).
    rewrite returns_app, R, (l_queue _ _ _ _ L), (l_waiters _ _ _ _ L), S3, S4.
    split; [done|]. split; [done|]. split; [done|]. split; [done|]. split; [done|].
    intros H.
    assert (H0 : wf x0) by (subst x0; wf_frame H).
    split; [apply Dn; [by apply wf_allocated|apply (wf_filling _ H0)]|].
    intros R1 R2.
    assert (M : wants_more (this x0) = true).
    { unfold wants_more, queue_length. subst x0. cbn.
      apply andb_true_iff. split; by apply Z.ltb_lt. }
    destruct (Fi H0 M) as [F1 F2]. change (nextController x0) with (nextController w) in F1, F2.
    split; [exact F1|]. split.
    + rewrite calls_of_app, F2. cbn. lia.
    + apply find_task_Some in F1 as [F1 _]. rewrite (l_tasks _ _ _ _ L) in F1.
      apply elem_of_app in F1 as [F1|F1].
      * pose proof (l_new _ _ _ _ L) as Fn. rewrite Forall_forall in Fn.
        destruct (Fn _ F1) as [Fn1 _]. cbn in Fn1. lia.
      * exfalso. change (tasks x0) with (tasks w) in F1.
        pose proof (wf_alloc _ H) as A. rewrite Forall_forall in A.
        specialize (A _ F1). cbn in A. lia.
  - subst w' o. rewrite (poll_late w k n now F T). cbn. by rewrite Q.
Qed.

(** The shared instance: a [next] waits, its first attempt is answered
    with film 1, which leaves one call in flight.  Woken in time, the
    [next] returns the film and the fill cycle launches the attempt 2;
    woken too late, it returns [null] and the film stays. *)
Lemma wake_up_with_item_witness :
  let w := final (boot prefetchQueue)
             [EvNext (Some 100) 1000 1000; EvSupplier 0 (Candidate (film 1))] in
  returns (snd (step w (EvPoll 0 1050))) = [(0%nat, Some (film 1))] /\
  calls_of (nextController w) (snd (step w (EvPoll 0 1050))) = 1%nat /\
  nextController w = 2%nat /\
  returns (snd (step w (EvPoll 0 1100))) = [(0%nat, None)] /\
  queue (this (fst (step w (EvPoll 0 1100)))) = [film 1] /\
  calls (snd (step w (EvPoll 0 1100))) = 0%nat.
Proof.
  cbv zeta.
  pose proof (wake_up_with_item
    (final (boot prefetchQueue) [EvNext (Some 100) 1000 1000; EvSupplier 0 (Candidate (film 1))])
    0 (mkNext 0 1000 100) 1050 (film 1) [] eq_refl eq_refl) as H1.
  pose proof (wake_up_with_item
    (final (boot prefetchQueue) [EvNext (Some 100) 1000 1000; EvSupplier 0 (Candidate (film 1))])
    0 (mkNext 0 1000 100) 1100 (film 1) [] eq_refl eq_refl) as H2.
  cbv zeta in H1, H2. destruct H1 as [H1 _]. destruct H2 as [_ H2].
  destruct H1 as (A & _ & _ & _ & _ & A'); [cbn; lia|].
  destruct H2 as (B & C & _ & _ & _ & E & _); [cbn; lia|].
  destruct A' as [_ A'].
  { apply run_wf. exact (proj1 (constructor_capped (mkOpts (Some 3) (Some 2)) None None)). }
  destruct A' as (_ & A' & _); [by vm_compute|by vm_compute|].
  split; [exact A|]. split; [exact A'|]. split; [vm_compute; reflexivity|].
  split; [exact B|]. split; [exact C|exact E].
Defined.

(** *** Cancelled attempts *)

Lemma drop_task_again c a ph ts :
  drop_task c (mkFill c a ph :: drop_task c ts) = drop_task c ts.
Proof.
  unfold drop_task at 1. cbn [List.filter controller]. rewrite Nat.eqb_refl. cbn [negb].
  apply List.forallb_filter_id, List.forallb_forall. intros x Hx.
  unfold drop_task in Hx. by apply List.filter_In in Hx as [_ Hx].
Qed.

(** An attempt that is answered [null] again and again: it sleeps a
    back-off after each answer, the sixth included, and calls again until
    its attempts are used up. *)
Lemma nulls_exhaust c : forall n a w,
  find_task c (tasks w) = Some (mkFill c a AwaitSupplier) ->
  (a + n = S maxAttempts)%nat -> (1 <= n)%nat ->
  queue_length (this w) < size (this w) ->
  calls_of c (trace w (null_answers c n)) = (maxAttempts - a)%nat /\
  queued_items (trace w (null_answers c n)) = [] /\
  find_task c (tasks (final w (null_answers c n))) = None /\
  (c ∉ inFlight (this (final w (null_answers c n)))) /\
  aborted (final w (null_answers c n)) = aborted w /\
  find_task c (tasks (final w (null_answers c (Nat.pred n) ++ [EvSupplier c NoCandidate])))
    = Some (mkFill c maxAttempts AwaitBackoff).
Proof.
  unfold maxAttempts.
  induction n as [|n IH]; intros a w Hf Ha Hn Hq; [lia|].
  cbn [null_answers Nat.pred]. rewrite !final_cons, !trace_cons.
  assert (S1 : step w (EvSupplier c NoCandidate)
               = (set_tasks (mkFill c a AwaitBackoff :: drop_task c (tasks w)) w, [])).
  { cbn [step]. by rewrite Hf. }
  rewrite S1. cbn [fst snd].
  set (w1 := set_tasks (mkFill c a AwaitBackoff :: drop_task c (tasks w)) w).
  assert (F1 : find_task c (tasks w1) = Some (mkFill c a AwaitBackoff)).
  { subst w1. unfold find_task. cbn. by rewrite Nat.eqb_refl. }
  assert (D : drop_task c (tasks w1) = drop_task c (tasks w)).
  { subst w1. cbn [tasks set_tasks]. apply drop_task_again. }
  cbn [step]. rewrite F1. cbn [phase attempt]. rewrite D.
  unfold fillOne_loop, maxAttempts. cbn [this set_tasks w1]. apply Z.ltb_lt in Hq. rewrite Hq.
  destruct (Nat.ltb_spec a 6) as [Hlt|Hge]; cbn [andb fst snd].
  - destruct n as [|n]; [lia|].
    match goal with |- context [final ?x (null_answers c (S n))] => set (w2 := x) end.
    destruct (IH (S a) w2) as (I1 & I2 & I3 & I4 & I5 & I6); try lia.
    { subst w2. unfold find_task. cbn. by rewrite Nat.eqb_refl. }
    { subst w2. cbn. by apply Z.ltb_lt. }
    cbn [app calls_of queued_items]. rewrite Nat.eqb_refl, I1, I2, I3, I5.
    cbn [Nat.pred] in I6.
    split; [lia|]. split; [done|]. split; [done|]. split; [exact I4|]. split; [done|].
    cbn [null_answers app]. rewrite !final_cons, S1. cbn [fst step]. fold w1. rewrite F1.
    cbn [phase attempt].
    rewrite D. unfold fillOne_loop, maxAttempts. cbn [this set_tasks w1]. rewrite Hq.
    destruct (Nat.ltb_spec a 6); [|lia]. cbn [andb fst]. exact I6.
  - assert (n = 0%nat) as -> by lia. assert (a = 6%nat) as -> by lia.
    assert (L6 : find_task c (tasks (final w (null_answers c 0 ++ [EvSupplier c NoCandidate])))
                 = Some (mkFill c 6 AwaitBackoff)).
    { cbn [null_answers app]. rewrite final_cons, S1. exact F1. }
    unfold final, trace in L6 |- *. cbn [null_answers run fst snd app] in L6 |- *.
    split; [done|]. split; [done|]. split; [apply find_task_drop_eq|].
    split; [cbn; set_solver|]. split; [done|exact L6].
Qed.

(** X8. [cancel] does not end the retry loops.  An attempt that is waiting
    for the Supplier when [cancel] is called has its controller aborted
    and its handle taken out of the in-flight set, but it stays suspended;
    if the Supplier answers [null] from then on (as the Supplier of
    src/api/tmdb.ts does for an aborted request) and the queue stays below
    capacity, the attempt goes on calling the Supplier, with its aborted
    signal, until its six attempts are used up, sleeping a back-off after
    every answer, the last included.  Meanwhile its handle is not in the
    in-flight set, so it is not counted against [concurrency]. *)
Theorem cancel_keeps_retrying (w : World) (c a : nat) (clearQueue : option bool) :
  find_task c (tasks w) = Some (mkFill c a AwaitSupplier) ->
  c ∈ inFlight (this w) ->
  (1 <= a <= 6)%nat ->
  queue_length (this w) < size (this w) ->
  let w1 := fst (step w (EvCancel clearQueue)) in
  let evs := null_answers c (7 - a) in
  c ∈ aborted w1 /\ (c ∉ inFlight (this w1)) /\
  find_task c (tasks w1) = Some (mkFill c a AwaitSupplier) /\
  calls_of c (trace w1 evs) = (6 - a)%nat /\
  queued_items (trace w1 evs) = [] /\
  find_task c (tasks (final w1 evs)) = None /\
  find_task c (tasks (final w1 (null_answers c (6 - a) ++ [EvSupplier c NoCandidate])))
    = Some (mkFill c 6 AwaitBackoff).
Proof.
  intros Hf Hin Ha Hq w1 evs.
  assert (E : tasks w1 = tasks w /\ size (this w1) = size (this w) /\
              (length (queue (this w1)) <= length (queue (this w)))%nat /\
              inFlight (this w1) = ∅ /\ aborted w1 = aborted w ∪ inFlight (this w)).
  { subst w1. cbn [step]. unfold cancel. cbn [fst].
    destruct (default false clearQueue); cbn; repeat split; lia. }
  destruct E as (E1 & E2 & E3 & E4 & E5).
  destruct (nulls_exhaust c (7 - a) a w1) as (N1 & N2 & N3 & _ & _ & N6);
    try (unfold maxAttempts; lia).
  { by rewrite E1. }
  { unfold queue_length in *. lia. }
  replace (Nat.pred (7 - a)) with (6 - a)%nat in N6 by lia.
  split; [rewrite E5; set_solver|]. split; [rewrite E4; set_solver|].
  split; [by rewrite E1|]. split; [exact N1|]. split; [exact N2|]. split; [exact N3|exact N6].
Qed.

(** The shared instance: two attempts in flight, [cancel()], then the
    first is answered [null] six times. *)
Lemma cancel_keeps_retrying_witness :
  let w := final (boot prefetchQueue) [EvFill] in
  let w1 := fst (step w (EvCancel None)) in
  calls_of 0 (trace w1 (null_answers 0 6)) = 5%nat /\
  base.size (inFlight (this (final w1 (null_answers 0 3)))) = 0%nat.
Proof.
  cbv zeta. split; [|vm_compute; reflexivity].
  pose proof (cancel_keeps_retrying (final (boot prefetchQueue) [EvFill]) 0 1 None) as H.
  cbv zeta in H. destruct H as (_ & _ & _ & H & _).
  - vm_compute. reflexivity.
  - vm_compute. set_solver.
  - lia.
  - vm_compute. reflexivity.
  - exact H.
Defined.

(** *** A new epoch *)

Lemma remembers_silent w w' o :
  seenIds (this w') = seenIds (this w) -> queued_items o = [] -> remembers w w' o.
Proof.
  intros E Q. unfold remembers, queued_ids. rewrite E, Q. cbn. by rewrite union_empty_r_L.
Qed.

Lemma fill_remembers w : remembers w (fst (fill w)) (snd (fill w)).
Proof.
  destruct (fill_launches w) as [new L]. apply remembers_silent; [apply L|apply fill_silent].
Qed.

Lemma remembers_after w w1 w2 o1 o2 :
  seenIds (this w1) = seenIds (this w) -> queued_items o1 = [] ->
  remembers w1 w2 o2 -> remembers w w2 (o1 ++ o2).
Proof.
  unfold remembers, queued_ids. intros E Q ->. by rewrite queued_items_app, Q, E.
Qed.

Lemma remembers_before w w1 w2 o1 o2 :
  remembers w w1 o1 -> seenIds (this w2) = seenIds (this w1) -> queued_items o2 = [] ->
  remembers w w2 (o1 ++ o2).
Proof.
  unfold remembers, queued_ids. intros R E Q.
  by rewrite queued_items_app, Q, app_nil_r, E.
Qed.

Lemma fillOne_loop_remembers c a w :
  remembers w (fst (fillOne_loop c a w)) (snd (fillOne_loop c a w)).
Proof. unfold fillOne_loop. destruct (_ && _); by apply remembers_silent. Qed.

Lemma fillOne_resume_remembers t r w :
  remembers w (fst (fillOne_resume t r w)) (snd (fillOne_resume t r w)).
Proof.
  unfold fillOne_resume. destruct r as [m| |]; try by apply remembers_silent.
  case_bool_decide; [apply fillOne_loop_remembers|].
  unfold remembers, queued_ids. cbn. set_solver.
Qed.

Lemma next_loop_remembers k st tmo now w :
  remembers w (fst (next_loop k st tmo now w)) (snd (next_loop k st tmo now w)).
Proof.
  unfold next_loop. destruct (now - st <? tmo); [|by apply remembers_silent].
  destruct (queue (this w)); [by apply remembers_silent|].
  match goal with |- context [fill ?x] =>
    pose proof (fill_remembers x) as F; destruct (fill x) as [w1 o1] end.
  cbn [fst snd] in *. by apply (remembers_before _ w1).
Qed.

(** A step that does not change the filters adds to the history the
    identifiers of what it pushes. *)
Lemma step_remembers w ev :
  match ev with
  | EvSetFilters f => same_filters (filters (this w)) f
  | _ => true
  end = true ->
  remembers w (fst (step w ev)) (snd (step w ev)).
Proof.
  intros K. destruct ev; cbn [step].
  - unfold setConfig.
    match goal with |- context [fill ?x] => pose proof (fill_remembers x) as F end.
    unfold remembers in *. rewrite F.
    destruct (opt_size opts) as [n|], (opt_concurrency opts) as [n'|];
      repeat match goal with |- context [if ?b then _ else _] => destruct b end; done.
  - unfold setFilters. rewrite K. by apply remembers_silent.
  - apply fill_remembers.
  - unfold next. cbn [this set_nextCall]. destruct (queue (this w)).
    + match goal with |- context [fill ?x] =>
        destruct (fill_launches x) as [new L]; pose proof (fill_silent x) as (Q & _);
        destruct (fill x) as [w1 o1] end.
      pose proof (next_loop_remembers (nextCall w) t0 (default 8000 timeout) t1 w1) as N.
      destruct (next_loop _ _ _ _ w1) as [w2 o2]. cbn [fst snd] in *.
      apply (remembers_after _ w1); [apply L|exact Q|exact N].
    + match goal with |- context [fill ?x] =>
        pose proof (fill_remembers x) as F; destruct (fill x) as [w1 o1] end.
      cbn [fst snd] in *. by apply (remembers_before _ w1).
  - unfold cancel. cbn [fst snd]. apply remembers_silent.
    + by destruct (default false clearQueue).
    + by induction (elements (inFlight (this w))).
  - by apply remembers_silent.
  - destruct (find_task c (tasks w)) as [t|]; [|by apply remembers_silent].
    destruct (phase t); [|by apply remembers_silent].
    match goal with |- context [fillOne_resume ?a ?b ?x] =>
      exact (fillOne_resume_remembers a b x) end.
  - destruct (find_task c (tasks w)) as [t|]; [|by apply remembers_silent].
    destruct (phase t); [by apply remembers_silent|].
    match goal with |- context [fillOne_loop ?a ?b ?x] =>
      exact (fillOne_loop_remembers a b x) end.
  - destruct (find_waiter k (waiters w)) as [n|]; [|by apply remembers_silent].
    match goal with |- context [next_loop ?a ?b ?c ?d ?x] =>
      exact (next_loop_remembers a b c d x) end.
  - destruct (timers w); [by apply remembers_silent|].
    match goal with |- context [fill ?x] => exact (fill_remembers x) end.
Qed.

(** Within an epoch the history is what it was at the start and what was
    pushed since. *)
Lemma run_remembers evs : forall w,
  one_epoch w evs = true -> remembers w (final w evs) (trace w evs).
Proof.
  induction evs as [|ev evs IH]; intros w K.
  { by apply remembers_silent. }
  cbn [one_epoch] in K. apply andb_true_iff in K as [K1 K2].
  rewrite final_cons, trace_cons.
  pose proof (step_remembers w ev K1) as S1. specialize (IH _ K2).
  unfold remembers, queued_ids in *. rewrite IH, S1, queued_items_app, fmap_app.
  rewrite list_to_set_app_L. set_solver.
Qed.

(** X9. A change of filters starts the dedup history afresh.  When
    [setFilters] changes the filters of a reachable instance, the queue and
    the history are empty after the call, and (with [size] and
    [concurrency] positive) the fill cycle that ends the call has launched
    an attempt whose Supplier call carries the new filters.  From then on,
    at every point of the epoch, whatever was answered and in whatever
    order, the history holds exactly the identifiers of the items queued
    since the change.  So a candidate answered to an attempt that waits for
    the Supplier is queued if no item of its identifier was queued since
    the change, even if its identifier was in the history before the
    change, and is not queued otherwise. *)
Theorem new_epoch_requeues (opts : ConfigOpts) (ls_size ls_concurrency : option Z)
    (evs : list Event) (f : PrefetchFilters) (evs' : list Event) :
  let w := final (boot (constructor opts ls_size ls_concurrency)) evs in
  same_filters (filters (this w)) f = false ->
  let w1 := fst (step w (EvSetFilters f)) in
  one_epoch w1 evs' = true ->
  let w2 := final w1 evs' in
  queue (this w1) = [] /\ seenIds (this w1) = ∅ /\
  (0 < size (this w) -> 0 < concurrency (this w) ->
   ObsCall (nextController w) f ∈ snd (step w (EvSetFilters f)) /\
   find_task (nextController w) (tasks w1)
     = Some (mkFill (nextController w) 1 AwaitSupplier)) /\
  (forall x, x ∈ seenIds (this w2) <-> x ∈ queued_ids (trace w1 evs')) /\
  (forall c t m,
     find_task c (tasks w2) = Some t -> phase t = AwaitSupplier ->
     let w3 := fst (step w2 (EvSupplier c (Candidate m))) in
     let o3 := snd (step w2 (EvSupplier c (Candidate m))) in
     (movie_id m ∉ queued_ids (trace w1 evs') ->
      o3 = [ObsQueued c m] /\ queue (this w3) = queue (this w2) ++ [m] /\
      seenIds (this w3) = seenIds (this w2) ∪ {[movie_id m]}) /\
     (movie_id m ∈ queued_ids (trace w1 evs') ->
      queued_items o3 = [] /\ queue (this w3) = queue (this w2) /\
      seenIds (this w3) = seenIds (this w2))).
Proof.
  intros w E w1 K w2.
  assert (H : wf w).
  { apply run_wf. by destruct (constructor_capped opts ls_size ls_concurrency). }
  set (w0 := on_this (set_inFlight ∅)
               (set_aborted (aborted w ∪ inFlight (this w))
                  (on_this (set_queue [])
                     (on_this (set_seenIds ∅) (on_this (set_filters f) w))))).
  assert (E1 : step w (EvSetFilters f)
               = (fst (fill w0),
                  (ObsAbort <$> elements (inFlight (this w))) ++ snd (fill w0)
                  ++ [ObsSetFilters (filters (this (fst (fill w0))))])).
  { cbn [step]. unfold setFilters. rewrite E. unfold cancel. cbn [default].
    change (fill _) with (fill w0). by destruct (fill w0). }
  assert (H0 : wf w0) by (subst w0; wf_frame H).
  destruct (fill_launches w0) as [new L].
  assert (Q1 : queue (this w1) = []).
  { subst w1. rewrite E1. cbn [fst]. by rewrite (l_queue _ _ _ _ L). }
  assert (S1 : seenIds (this w1) = ∅).
  { subst w1. rewrite E1. cbn [fst]. by rewrite (l_seenIds _ _ _ _ L). }
  assert (S2 : forall x, x ∈ seenIds (this w2) <-> x ∈ queued_ids (trace w1 evs')).
  { intros x. pose proof (run_remembers evs' w1 K) as R. unfold remembers in R.
    fold w2 in R. rewrite R, S1. set_solver. }
  split; [exact Q1|]. split; [exact S1|]. split; [|split; [exact S2|]].
  - intros Hs Hc.
    assert (M0 : wants_more (this w0) = true).
    { unfold wants_more, queue_length. subst w0. cbn. rewrite size_empty.
      apply andb_true_iff. split; apply Z.ltb_lt; cbn; lia. }
    destruct (fill_first w0 H0 M0) as [F1 F2].
    change (nextController w0) with (nextController w) in F1, F2.
    subst w1. rewrite E1. cbn [fst snd]. split; [|exact F1].
    apply elem_of_app; right; apply elem_of_app; left.
    rewrite (l_obs _ _ _ _ L). change (filters (this w0)) with f.
    apply find_task_Some in F1 as [F1 _]. rewrite (l_tasks _ _ _ _ L) in F1.
    apply elem_of_app in F1 as [F1|F1].
    + apply list_elem_of_fmap. exists (mkFill (nextController w) 1 AwaitSupplier).
      split; [done|]. by apply elem_of_reverse.
    + exfalso. change (tasks w0) with (tasks w) in F1.
      pose proof (wf_alloc _ H) as A. rewrite Forall_forall in A.
      specialize (A _ F1). cbn in A. lia.
  - intros c t m Hf Hp w3 o3. subst w3 o3. cbn [step]. rewrite Hf, Hp.
    pose proof (find_task_Some _ _ _ Hf) as [_ Hc].
    unfold fillOne_resume. cbn [this set_tasks]. rewrite Hc. split; intros Hm.
    + rewrite bool_decide_eq_false_2 by (by rewrite S2). by cbn.
    + rewrite bool_decide_eq_true_2 by (by rewrite S2).
      unfold fillOne_loop. by destruct (_ && _).
Qed.

(** Film 1 is queued and seen; the years change; of the two attempts of
    the new epoch the second is answered first, with film 5, then the first
    with film 1, which is queued again behind it; a third answer with
    film 1 is not queued. *)
Lemma new_epoch_requeues_witness :
  let w := final (boot (constructor (mkOpts (Some 3) (Some 2)) None None))
             [EvFill; EvSupplier 0 (Candidate (film 1))] in
  let f := mkFilters (Some 1990) (Some 2000) None in
  let w1 := fst (step w (EvSetFilters f)) in
  let w2 := final w1 [EvSupplier 3 (Candidate (film 5))] in
  1 ∈ seenIds (this w) /\
  queue (this w2) = [film 5] /\
  queue (this (fst (step w2 (EvSupplier 2 (Candidate (film 1)))))) = queue (this w2) ++ [film 1] /\
  queued_items (snd (step w2 (EvSupplier 2 (Candidate (film 5))))) = [].
Proof.
  cbv zeta. split; [vm_compute; set_solver|]. split; [vm_compute; reflexivity|].
  assert (E : same_filters
                (filters (this (final (boot (constructor (mkOpts (Some 3) (Some 2)) None None))
                                  [EvFill; EvSupplier 0 (Candidate (film 1))])))
                (mkFilters (Some 1990) (Some 2000) None) = false) by (vm_compute; reflexivity).
  assert (K : one_epoch
                (fst (step (final (boot (constructor (mkOpts (Some 3) (Some 2)) None None))
                              [EvFill; EvSupplier 0 (Candidate (film 1))])
                        (EvSetFilters (mkFilters (Some 1990) (Some 2000) None))))
                [EvSupplier 3 (Candidate (film 5))] = true) by (vm_compute; reflexivity).
  pose proof (new_epoch_requeues (mkOpts (Some 3) (Some 2)) None None
    [EvFill; EvSupplier 0 (Candidate (film 1))] (mkFilters (Some 1990) (Some 2000) None)
    [EvSupplier 3 (Candidate (film 5))] E K) as H.
  cbv zeta in H. destruct H as (_ & _ & _ & _ & H).
  split.
  - destruct (H 2%nat (mkFill 2 1 AwaitSupplier) (film 1)) as [H1 _];
      [vm_compute; reflexivity|reflexivity|].
    destruct H1 as (_ & H1 & _); [|exact H1].
    match goal with |- _ ∉ ?l => replace l with [5] by (vm_compute; reflexivity) end.
    cbn. by intros [?|?%elem_of_nil]%elem_of_cons.
  - destruct (H 2%nat (mkFill 2 1 AwaitSupplier) (film 5)) as [_ H2];
      [vm_compute; reflexivity|reflexivity|].
    destruct H2 as (H2 & _); [|exact H2].
    match goal with |- _ ∈ ?l => replace l with [5] by (vm_compute; reflexivity) end.
    cbn. apply elem_of_cons. by left.
Defined.

(** *** Reconfiguration *)

(** X10. [setConfig] takes a value only if it is positive and otherwise
    keeps the present one, without an error; it drops no queued item, even
    when the new [size] is below the queue length, and cancels nothing,
    even when the new [concurrency] is below the number of calls in
    flight; it then fills, so that afterwards, for a reachable instance,
    either the queue has reached the new [size] or the in-flight set has
    reached the new [concurrency]. *)
Theorem setConfig_effect (opts0 : ConfigOpts) (ls_size ls_concurrency : option Z)
    (evs : list Event) (opts : ConfigOpts) :
  let w := final (boot (constructor opts0 ls_size ls_concurrency)) evs in
  let w' := fst (step w (EvSetConfig opts)) in
  size (this w') = match opt_size opts with
                   | Some n => if 0 <? n then n else size (this w)
                   | None => size (this w)
                   end /\
  concurrency (this w') = match opt_concurrency opts with
                          | Some n => if 0 <? n then n else concurrency (this w)
                          | None => concurrency (this w)
                          end /\
  queue (this w') = queue (this w) /\
  seenIds (this w') = seenIds (this w) /\
  filters (this w') = filters (this w) /\
  aborted w' = aborted w /\
  inFlight (this w) ⊆ inFlight (this w') /\
  (exists new, tasks w' = new ++ tasks w) /\
  (size (this w') <= queue_length (this w') \/
   concurrency (this w') <= Z.of_nat (base.size (inFlight (this w')))).
Proof.
  intros w w'.
  assert (H : wf w).
  { apply run_wf. by destruct (constructor_capped opts0 ls_size ls_concurrency). }
  subst w'. cbn [step]. unfold setConfig, queue_length.
  match goal with |- context [fill ?x] => set (w0 := x) end.
  assert (H0 : wf w0).
  { subst w0. destruct (opt_size opts) as [n|], (opt_concurrency opts) as [n'|];
      repeat match goal with |- context [if ?b then _ else _] => destruct b end;
      first [exact H | wf_frame H]. }
  destruct (fill_launches w0) as [new L].
  destruct (fill_done w0 (wf_allocated _ H0) (wf_filling _ H0)) as [M _].
  rewrite (l_size _ _ _ _ L), (l_concurrency _ _ _ _ L), (l_queue _ _ _ _ L),
    (l_seenIds _ _ _ _ L), (l_filters _ _ _ _ L), (l_aborted _ _ _ _ L),
    (l_inFlight _ _ _ _ L), (l_tasks _ _ _ _ L).
  assert (E : size (this w0) = match opt_size opts with
                   | Some n => if 0 <? n then n else size (this w)
                   | None => size (this w)
                   end /\
              concurrency (this w0) = match opt_concurrency opts with
                          | Some n => if 0 <? n then n else concurrency (this w)
                          | None => concurrency (this w)
                          end /\
              queue (this w0) = queue (this w) /\ seenIds (this w0) = seenIds (this w) /\
              filters (this w0) = filters (this w) /\ aborted w0 = aborted w /\
              inFlight (this w0) = inFlight (this w) /\ tasks w0 = tasks w).
  { subst w0. destruct (opt_size opts) as [n|], (opt_concurrency opts) as [n'|];
      repeat match goal with |- context [if ?b then _ else _] => destruct b end; done. }
  destruct E as (E1 & E2 & E3 & E4 & E5 & E6 & E7 & E8).
  rewrite E1, E2, E3, E4, E5, E6, E7, E8.
  do 6 (split; [reflexivity|]). split; [set_solver|]. split; [eauto|].
  unfold wants_more, queue_length in M.
  rewrite (l_size _ _ _ _ L), (l_concurrency _ _ _ _ L), (l_queue _ _ _ _ L),
    (l_inFlight _ _ _ _ L), E1, E2, E3, E7 in M.
  apply andb_false_iff in M as [M|M]; apply Z.ltb_ge in M; auto.
Qed.

(** ** The rate limiter *)

Lemma check_other id config now m k :
  k <> id -> snd (checkRateLimit id config now m) !! k = m !! k.
Proof.
  intros Hk. unfold checkRateLimit.
  destruct (m !! id) as [e|]; cbn; [|by rewrite lookup_insert_ne].
  destruct (resetAt e <? now); cbn; [by rewrite lookup_insert_ne|].
  destruct (maxRequests config <=? count e); cbn; [done|by rewrite lookup_insert_ne].
Qed.

(** A request of a client with no entry, or whose window is over, opens a
    window. *)
Lemma check_over id config t now m :
  t <= now -> over_at t (m !! id) ->
  checkRateLimit id config now m
  = (mkResult true (maxRequests config) (maxRequests config - 1) (now + interval config),
     <[id := mkEntry 1 (now + interval config)]> m).
Proof.
  intros Ht O. unfold checkRateLimit. destruct (m !! id) as [e|]; [|done]. cbn in O.
  destruct (Z.ltb_spec (resetAt e) now); [done|lia].
Qed.

(** The answer, and the entry left for the identifier, depend on the entry
    of the identifier alone, and not even on it once its window is over. *)
Lemma check_alike id config t now m1 m2 :
  t <= now ->
  m1 !! id = m2 !! id \/ (over_at t (m1 !! id) /\ over_at t (m2 !! id)) ->
  fst (checkRateLimit id config now m1) = fst (checkRateLimit id config now m2) /\
  snd (checkRateLimit id config now m1) !! id = snd (checkRateLimit id config now m2) !! id.
Proof.
  intros Ht [E|[O1 O2]].
  - unfold checkRateLimit. rewrite E. destruct (m2 !! id) as [e|] eqn:E2; cbn; [|by rewrite !lookup_insert_eq].
    destruct (resetAt e <? now); cbn; [by rewrite !lookup_insert_eq|].
    destruct (maxRequests config <=? count e); cbn; [|by rewrite !lookup_insert_eq].
    split; [done|congruence].
  - fold (checkRateLimit id config now m1). fold (checkRateLimit id config now m2).
    rewrite (check_over id config t now m1), (check_over id config t now m2) by done.
    cbn. by rewrite !lookup_insert_eq.
Qed.

(** *** One client, one window *)

Lemma serve_window id config t0 : forall ts i m,
  (1 <= i)%nat ->
  m !! id = Some (mkEntry (Z.min (Z.of_nat i) (Z.max 1 (maxRequests config)))
                          (t0 + interval config)) ->
  Forall (fun t => t <= t0 + interval config) ts ->
  fst (serve ((fun t => Request id config t) <$> ts) m)
  = (fun j => (id, window_answer config t0 j)) <$> seq i (length ts).
Proof.
  induction ts as [|t ts IH]; intros i m Hi Hm Ht; [done|].
  apply Forall_cons in Ht as [Ht1 Ht2]. cbn [fmap list_fmap serve length seq].
  unfold checkRateLimit at 1. rewrite Hm. cbn [resetAt count].
  destruct (Z.ltb_spec (t0 + interval config) t) as [?|_]; [lia|].
  unfold window_answer at 1.
  destruct (Z.leb_spec (maxRequests config)
              (Z.min (Z.of_nat i) (Z.max 1 (maxRequests config)))) as [Hd|Hd].
  - destruct (Z.ltb_spec (Z.of_nat i) (Z.max 1 (maxRequests config))); [lia|].
    specialize (IH (S i) m). destruct (serve _ m) as [rs m'] eqn:Es. cbn [fst] in *.
    rewrite IH; [done|lia| |done]. rewrite Hm. do 2 f_equal. lia.
  - destruct (Z.ltb_spec (Z.of_nat i) (Z.max 1 (maxRequests config))); [|lia].
    match goal with |- context [serve _ ?x] => specialize (IH (S i) x) end.
    destruct (serve _ _) as [rs m'] eqn:Es. cbn [fst] in *.
    rewrite IH; [|lia| |done].
    + do 3 f_equal. lia.
    + rewrite lookup_insert_eq. do 2 f_equal. lia.
Qed.

Lemma serve_opened (id : string) (config : RateLimitConfig) (t0 : Z) (ts : list Z)
    (m : gmap string RateLimitEntry) :
  over_at t0 (m !! id) ->
  Forall (fun t => t <= t0 + interval config) ts ->
  fst (serve ((fun t => Request id config t) <$> (t0 :: ts)) m)
  = (fun i => (id, window_answer config t0 i)) <$> seq 0 (S (length ts)).
Proof.
  intros O Ht. cbn [fmap list_fmap serve seq].
  rewrite (check_over id config t0 t0 m) by (done || lia).
  pose proof (serve_window id config t0 ts 1
                (<[id := mkEntry 1 (t0 + interval config)]> m)) as W.
  destruct (serve _ _) as [rs m']. cbn [fst] in *.
  rewrite W; [|lia| |done].
  - f_equal. unfold window_answer. change (Z.of_nat 0) with 0.
    destruct (Z.ltb_spec 0 (Z.max 1 (maxRequests config))); [|lia]. done.
  - rewrite lookup_insert_eq. do 2 f_equal. lia.
Qed.

(** X11. The quota of a window.  A client whose first request opens a
    window at [t0] (it has no entry, or its window is over) and whose next
    requests all come before the window is over ([now <= t0 + interval]),
    with one configuration: request number [i] (from 0) is allowed if and
    only if [i < max(1, maxRequests)], with [remaining = maxRequests - (i +
    1)]; the others are refused with [remaining = 0]; all carry [reset = t0
    + interval].  So at most [max(1, maxRequests)] requests pass per
    window, and the first request of a window passes even if [maxRequests]
    is zero or negative, [remaining] being then negative. *)
Theorem window_quota (id : string) (config : RateLimitConfig) (t0 : Z) (ts : list Z)
    (m : gmap string RateLimitEntry) :
  over_at t0 (m !! id) ->
  Forall (fun t => t <= t0 + interval config) ts ->
  fst (serve ((fun t => Request id config t) <$> (t0 :: ts)) m)
  = (fun i => (id, window_answer config t0 i)) <$> seq 0 (S (length ts)).
Proof. apply serve_opened. Qed.

(** Four requests in one window with a quota of two, then the default
    quota of 30 met by 31 requests. *)
Lemma window_quota_witness :
  (success ∘ snd) <$> fst (serve ((fun t => Request "1.2.3.4" (mkConfig 1000 2) t)
                                   <$> (5000 :: [5001; 5500; 6000])) ∅)
  = [true; true; false; false].
Proof.
  rewrite (window_quota "1.2.3.4" (mkConfig 1000 2) 5000 [5001; 5500; 6000] ∅).
  - reflexivity.
  - exact I.
  - repeat constructor; cbn; lia.
Defined.

(** *** Clients do not affect each other *)

Lemma serve_isolated a : forall es m1 m2,
  Forall (fun e => is_request e = true) es ->
  m1 !! a = m2 !! a ->
  filter (fun r => r.1 = a) (fst (serve es m1))
  = fst (serve (filter (fun e => request_of a e = true) es) m2).
Proof.
  induction es as [|e es IH]; intros m1 m2 Hr Hm; [done|].
  apply Forall_cons in Hr as [He Hr]. destruct e as [id config now|now]; [|done].
  cbn [serve]. destruct (decide (id = a)) as [->|Hne].
  - rewrite filter_cons_True by (cbn; by rewrite bool_decide_eq_true). cbn [serve].
    destruct (check_alike a config now now m1 m2) as [E1 E2]; [lia|by left|].
    specialize (IH (snd (checkRateLimit a config now m1))
                   (snd (checkRateLimit a config now m2)) Hr E2).
    destruct (checkRateLimit a config now m1) as [r1 n1].
    destruct (checkRateLimit a config now m2) as [r2 n2]. cbn [fst snd] in *. subst r2.
    destruct (serve es n1) as [rs1 k1]. destruct (serve _ n2) as [rs2 k2].
    cbn [fst] in *. rewrite filter_cons_True by done. by rewrite IH.
  - rewrite filter_cons_False by (cbn; by rewrite bool_decide_eq_true).
    specialize (IH (snd (checkRateLimit id config now m1)) m2 Hr).
    rewrite check_other in IH by done. specialize (IH Hm).
    destruct (checkRateLimit id config now m1) as [r1 n1]. cbn [snd] in IH.
    destruct (serve es n1) as [rs1 k1]. cbn [fst] in *.
    by rewrite filter_cons_False.
Qed.

(** X12. Clients are limited independently.  In any sequence of requests
    (any identifiers, configurations and clock readings), the answers to
    one identifier are the answers it would get if the requests of all
    other identifiers were left out. *)
Theorem clients_isolated (a : string) (es : list LimiterEvent)
    (m : gmap string RateLimitEntry) :
  Forall (fun e => is_request e = true) es ->
  filter (fun r => r.1 = a) (fst (serve es m))
  = fst (serve (filter (fun e => request_of a e = true) es) m).
Proof. intros Hr. by apply serve_isolated. Qed.

Lemma clients_isolated_witness :
  filter (fun r => r.1 = "a")
    (fst (serve [Request "a" (mkConfig 1000 1) 10; Request "b" (mkConfig 1000 1) 11;
                 Request "b" (mkConfig 1000 1) 12; Request "a" (mkConfig 1000 1) 13] ∅))
  = fst (serve (filter (fun e => request_of "a" e = true)
                  [Request "a" (mkConfig 1000 1) 10; Request "b" (mkConfig 1000 1) 11;
                   Request "b" (mkConfig 1000 1) 12; Request "a" (mkConfig 1000 1) 13]) ∅).
Proof.
  refine (clients_isolated "a" _ ∅ _). repeat constructor.
Defined.

(** *** The cleanup is not observable *)

Lemma over_at_mono t t' e : t <= t' -> over_at t e -> over_at t' e.
Proof. destruct e; cbn; [lia|done]. Qed.

Lemma alike_mono t t' m1 m2 : t <= t' -> alike t m1 m2 -> alike t' m1 m2.
Proof.
  intros Ht A k. destruct (A k) as [?|[? ?]]; [by left|right].
  split; by eapply over_at_mono.
Qed.

Lemma alike_refl t m : alike t m m.
Proof. intros k. by left. Qed.

Lemma check_keeps_alike id config t now m1 m2 :
  t <= now -> alike t m1 m2 ->
  fst (checkRateLimit id config now m1) = fst (checkRateLimit id config now m2) /\
  alike now (snd (checkRateLimit id config now m1)) (snd (checkRateLimit id config now m2)).
Proof.
  intros Ht A. destruct (check_alike id config t now m1 m2 Ht (A id)) as [E1 E2].
  split; [done|]. intros k. destruct (decide (k = id)) as [->|Hne]; [by left|].
  rewrite !check_other by done. by apply (alike_mono t).
Qed.

Lemma cleanup_alike t now m1 m2 :
  t <= now -> alike t m1 m2 -> alike now (cleanup now m1) m2.
Proof.
  intros Ht A k. unfold cleanup.
  destruct (m1 !! k) as [e|] eqn:E1.
  - destruct (decide (resetAt e < now)) as [Hx|Hx].
    + right. rewrite (map_lookup_filter_None_2 _ m1 k)
        by (right; intros e' E'; cbn; naive_solver).
      split; [done|]. destruct (A k) as [E|[_ O2]].
      * rewrite <- E, E1. done.
      * by apply (over_at_mono t).
    + rewrite (map_lookup_filter_Some_2 _ _ k e) by done. rewrite <- E1.
      by apply (alike_mono t).
  - rewrite (map_lookup_filter_None_2 _ m1 k) by (by left). rewrite <- E1.
    by apply (alike_mono t).
Qed.

Lemma serve_alike : forall es t m1 m2,
  ascending t es -> alike t m1 m2 ->
  fst (serve es m1) = fst (serve (filter (fun e => is_request e = true) es) m2).
Proof.
  induction es as [|e es IH]; intros t m1 m2 Hs A; [done|].
  destruct Hs as [Ht Hs]. destruct e as [id config now|now]; cbn [event_time] in *.
  - rewrite filter_cons_True by done. cbn [serve].
    destruct (check_keeps_alike id config t now m1 m2 Ht A) as [E1 E2].
    specialize (IH now _ _ Hs E2).
    destruct (checkRateLimit id config now m1) as [r1 n1].
    destruct (checkRateLimit id config now m2) as [r2 n2]. cbn [fst snd] in *. subst r2.
    destruct (serve es n1) as [rs1 k1]. destruct (serve _ n2) as [rs2 k2].
    cbn [fst] in *. by rewrite IH.
  - rewrite filter_cons_False by done. cbn [serve].
    apply (IH now); [done|]. by apply (cleanup_alike t).
Qed.

(** X13. The periodic cleanup changes no answer.  As long as the clock
    readings of the requests and of the cleanup runs do not go back, the
    requests get the answers they would get if the cleanup never ran. *)
Theorem cleanup_unobservable (t : Z) (es : list LimiterEvent)
    (m : gmap string RateLimitEntry) :
  ascending t es ->
  fst (serve es m) = fst (serve (filter (fun e => is_request e = true) es) m).
Proof. intros Hs. apply (serve_alike es t); [done|apply alike_refl]. Qed.

Lemma cleanup_unobservable_witness :
  fst (serve [Request "a" (mkConfig 100 1) 10; Cleanup 60000;
              Request "a" (mkConfig 100 1) 60000; Cleanup 120000;
              Request "a" (mkConfig 100 1) 120050] ∅)
  = fst (serve (filter (fun e => is_request e = true)
                  [Request "a" (mkConfig 100 1) 10; Cleanup 60000;
                   Request "a" (mkConfig 100 1) 60000; Cleanup 120000;
                   Request "a" (mkConfig 100 1) 120050]) ∅).
Proof.
  refine (cleanup_unobservable 0 _ ∅ _). cbn. lia.
Defined.

(** *** The counters *)

Lemma check_counts M id config now m :
  1 <= M -> maxRequests config = M -> counts_within M m ->
  counts_within M (snd (checkRateLimit id config now m)) /\
  limit (fst (checkRateLimit id config now m)) = M /\
  0 <= remaining (fst (checkRateLimit id config now m)) < M /\
  (success (fst (checkRateLimit id config now m)) = false ->
   remaining (fst (checkRateLimit id config now m)) = 0).
Proof.
  intros HM Hc Hm. unfold checkRateLimit.
  assert (Hset : forall e, 1 <= count e <= M -> counts_within M (<[id := e]> m)).
  { intros e He k e'. destruct (decide (k = id)) as [->|Hne].
    - rewrite lookup_insert_eq. by intros [= <-].
    - rewrite lookup_insert_ne by done. apply Hm. }
  destruct (m !! id) as [e|] eqn:E; cbn [fst snd].
  2: { cbn. rewrite Hc. split; [apply Hset; cbn; lia|]. split; [done|]. split; [lia|done]. }
  destruct (resetAt e <? now); cbn [fst snd].
  { cbn. rewrite Hc. split; [apply Hset; cbn; lia|]. split; [done|]. split; [lia|done]. }
  pose proof (Hm id e E) as He.
  destruct (Z.leb_spec (maxRequests config) (count e)); cbn; rewrite Hc.
  - split; [done|]. split; [done|]. split; [lia|done].
  - split; [apply Hset; cbn; lia|]. split; [done|]. split; [lia|done].
Qed.

Lemma cleanup_counts M now m : counts_within M m -> counts_within M (cleanup now m).
Proof.
  intros Hm k e He. apply map_lookup_filter_Some in He as [He _]. by apply (Hm k).
Qed.

Lemma serve_counts M : forall es m,
  1 <= M -> Forall (limit_is M) es -> counts_within M m ->
  Forall (fun r => limit r.2 = M /\ 0 <= remaining r.2 < M /\
                   (success r.2 = false -> remaining r.2 = 0)) (fst (serve es m)) /\
  counts_within M (snd (serve es m)).
Proof.
  induction es as [|e es IH]; intros m HM Hl Hm; [by split|].
  apply Forall_cons in Hl as [He Hl]. destruct e as [id config now|now]; cbn [serve].
  - destruct (check_counts M id config now m HM He Hm) as (C1 & C2 & C3 & C4).
    destruct (checkRateLimit id config now m) as [r n]. cbn [fst snd] in *.
    destruct (IH n HM Hl C1) as [I1 I2]. destruct (serve es n) as [rs k].
    cbn [fst snd] in *. split; [|done]. by constructor.
  - apply IH; [done..|]. by apply cleanup_counts.
Qed.

(** X14. What the answers report.  From the empty map of the module, under
    any sequence of requests and cleanup runs whose requests all use the
    limit [M >= 1] (any identifiers, intervals and clock readings): every
    answer carries [limit = M] and [0 <= remaining < M], a refusal carries
    [remaining = 0], and every counter left in the map is between 1 and
    [M]. *)
Theorem remaining_in_range (M : Z) (es : list LimiterEvent) :
  1 <= M -> Forall (limit_is M) es ->
  Forall (fun r => limit r.2 = M /\ 0 <= remaining r.2 < M /\
                   (success r.2 = false -> remaining r.2 = 0)) (fst (serve es ∅)) /\
  counts_within M (snd (serve es ∅)).
Proof. intros HM Hl. apply serve_counts; [done..|]. intros k e. by rewrite lookup_empty. Qed.

Lemma remaining_in_range_witness :
  Forall (fun r => limit r.2 = 2 /\ 0 <= remaining r.2 < 2 /\
                   (success r.2 = false -> remaining r.2 = 0))
    (fst (serve [Request "a" (mkConfig 100 2) 10; Request "a" (mkConfig 50 2) 20;
                 Cleanup 30; Request "a" (mkConfig 100 2) 40] ∅)) /\
  counts_within 2
    (snd (serve [Request "a" (mkConfig 100 2) 10; Request "a" (mkConfig 50 2) 20;
                 Cleanup 30; Request "a" (mkConfig 100 2) 40] ∅)).
Proof.
  refine (remaining_in_range 2 _ _ _); [lia|repeat constructor].
Defined.

(** *** New identifiers *)

(** X15. A request under an identifier that has no entry is always
    allowed, whatever the limit.  So a sequence of requests that never uses
    an identifier twice is never refused: the limit binds a client only as
    long as it keeps its identifier. *)
Theorem new_identifier_allowed (es : list LimiterEvent) (m : gmap string RateLimitEntry) :
  NoDup (identifiers es) ->
  (forall id, id ∈ identifiers es -> m !! id = None) ->
  Forall (fun r => success r.2 = true) (fst (serve es m)) /\
  fst <$> fst (serve es m) = identifiers es.
Proof.
  revert m. induction es as [|e es IH]; intros m Hn Hm; [by split|].
  destruct e as [id config now|now]; cbn [serve identifiers omap list_omap] in *.
  - apply NoDup_cons in Hn as [Hid Hn].
    assert (O : over_at now (m !! id)) by (rewrite Hm; [done|left]).
    rewrite (check_over id config now now m) by (done || lia).
    destruct (IH (<[id := mkEntry 1 (now + interval config)]> m) Hn) as [I1 I2].
    { intros k Hk. rewrite lookup_insert_ne by (intros ->; done).
      apply Hm. by right. }
    destruct (serve es _) as [rs k]. cbn [fst] in *. split; [by constructor|].
    cbn. by rewrite I2.
  - apply IH; [done|]. intros k Hk. unfold cleanup.
    apply map_lookup_filter_None_2. left. by apply Hm.
Qed.

Lemma new_identifier_allowed_witness :
  Forall (fun r => success r.2 = true)
    (fst (serve [Request "1.1.1.1" (mkConfig 60000 0) 10;
                 Request "1.1.1.2" (mkConfig 60000 0) 11;
                 Request "1.1.1.3" (mkConfig 60000 0) 12] ∅)) /\
  fst <$> fst (serve [Request "1.1.1.1" (mkConfig 60000 0) 10;
                      Request "1.1.1.2" (mkConfig 60000 0) 11;
                      Request "1.1.1.3" (mkConfig 60000 0) 12] ∅)
  = identifiers [Request "1.1.1.1" (mkConfig 60000 0) 10;
                 Request "1.1.1.2" (mkConfig 60000 0) 11;
                 Request "1.1.1.3" (mkConfig 60000 0) 12].
Proof.
  refine (new_identifier_allowed _ ∅ _ _).
  - cbn. repeat (apply NoDup_cons; split; [set_solver|]). apply NoDup_nil_2.
  - intros id _. apply lookup_empty.
Defined.

(** *** The bound over a period *)

Lemma allowed_cons_other a id r rs : id <> a -> allowed a ((id, r) :: rs) = allowed a rs.
Proof. intros Hne. unfold allowed. rewrite filter_cons_False; [done|]. cbn. naive_solver. Qed.

Lemma allowed_cons_refused a r rs :
  success r = false -> allowed a ((a, r) :: rs) = allowed a rs.
Proof.
  intros Hr. unfold allowed. rewrite filter_cons_False; [done|]. cbn. rewrite Hr.
  naive_solver.
Qed.

Lemma allowed_cons_allowed a r rs :
  success r = true -> allowed a ((a, r) :: rs) = 1 + allowed a rs.
Proof.
  intros Hr. unfold allowed. rewrite filter_cons_True by (cbn; by rewrite Hr).
  cbn [length]. lia.
Qed.

Lemma cleanup_lookup now m k :
  cleanup now m !! k = m !! k \/
  (cleanup now m !! k = None /\ exists e, m !! k = Some e /\ resetAt e < now).
Proof.
  unfold cleanup. destruct (m !! k) as [e|] eqn:E.
  - destruct (decide (resetAt e < now)) as [Hx|Hx].
    + right. split; [|by exists e].
      apply map_lookup_filter_None_2. right. intros e' E'. cbn. naive_solver.
    + left. by apply map_lookup_filter_Some_2.
  - left. apply map_lookup_filter_None_2. by left.
Qed.

Lemma serve_budget a M I u : forall es m,
  1 <= M -> counted (m !! a) ->
  Forall (fun e => u <= event_time e <= u + I) es ->
  Forall (config_of a (mkConfig I M)) es ->
  allowed a (fst (serve es m)) <= budget M I u (m !! a).
Proof.
  induction es as [|e es IH]; intros m HM Hc Ht Hk.
  { change (allowed a (serve [] m).1) with 0. unfold budget, counted in *.
    destruct (m !! a) as [e|]; [|lia]. destruct (u + I <=? resetAt e); lia. }
  apply Forall_cons in Ht as [Ht1 Ht]. apply Forall_cons in Hk as [Hk1 Hk].
  destruct e as [id config now|now]; cbn [serve event_time config_of] in *.
  - destruct (decide (id = a)) as [->|Hne].
    + rewrite (Hk1 eq_refl). clear Hk1.
      specialize (IH (snd (checkRateLimit a (mkConfig I M) now m)) HM).
      revert IH. unfold checkRateLimit. cbn [interval maxRequests].
      destruct (m !! a) as [e|] eqn:E; cbn [fst snd counted budget] in *.
      2: { rewrite lookup_insert_eq. cbn [counted budget count resetAt]. intros IH.
           specialize (IH ltac:(lia) Ht Hk). destruct (serve es _) as [rs k]. cbn [fst] in *.
           rewrite allowed_cons_allowed by done.
           destruct (Z.leb_spec (u + I) (now + I)); lia. }
      destruct (Z.ltb_spec (resetAt e) now) as [Hx|Hx]; cbn [fst snd].
      { rewrite lookup_insert_eq. cbn [counted budget count resetAt]. intros IH.
        specialize (IH ltac:(lia) Ht Hk). destruct (serve es _) as [rs k]. cbn [fst] in *.
        rewrite allowed_cons_allowed by done.
        destruct (Z.leb_spec (u + I) (now + I)); [|lia].
        destruct (Z.leb_spec (u + I) (resetAt e)); lia. }
      destruct (Z.leb_spec M (count e)) as [Hd|Hd]; cbn [fst snd].
      * rewrite E. cbn [counted budget]. intros IH. specialize (IH Hc Ht Hk).
        destruct (serve es _) as [rs k]. cbn [fst] in *.
        by rewrite allowed_cons_refused.
      * rewrite lookup_insert_eq. cbn [counted budget count resetAt]. intros IH.
        specialize (IH ltac:(lia) Ht Hk). destruct (serve es _) as [rs k]. cbn [fst] in *.
        rewrite allowed_cons_allowed by done.
        destruct (Z.leb_spec (u + I) (resetAt e)); lia.
    + specialize (IH (snd (checkRateLimit id config now m)) HM).
      rewrite check_other in IH by done. specialize (IH Hc Ht Hk).
      destruct (checkRateLimit id config now m) as [r n]. cbn [snd] in IH.
      destruct (serve es n) as [rs k]. cbn [fst] in *.
      by rewrite allowed_cons_other.
  - specialize (IH (cleanup now m) HM).
    destruct (cleanup_lookup now m a) as [E|[E (e & E1 & E2)]]; rewrite E in IH.
    + by apply IH.
    + specialize (IH Logic.I Ht Hk). rewrite E1. cbn [budget] in *.
      destruct (Z.leb_spec (u + I) (resetAt e)); lia.
Qed.

(** X16. What the limit guarantees over a period.  Fix a client [a] whose
    requests all use the limit [M >= 1] and the interval [I], and a period
    from [u] to [u + I], at the start of which the entry of [a], if there
    is one, has a counter of at least 1 (as every entry that the limiter
    writes).  Whatever happens in that period (requests of [a]
    and of other clients, cleanup runs, the clock readings in any order
    within the period), fewer than [2 * M] requests of [a] are allowed in
    it; if [a] has no entry at the start, at most [M].  The windows are
    fixed, not sliding: the end of one window and the start of the next can
    fall into one period. *)
Theorem burst_bound (a : string) (M I u : Z) (es : list LimiterEvent)
    (m : gmap string RateLimitEntry) :
  1 <= M -> counted (m !! a) ->
  Forall (fun e => u <= event_time e <= u + I) es ->
  Forall (config_of a (mkConfig I M)) es ->
  allowed a (fst (serve es m)) <= 2 * M - 1 /\
  (m !! a = None -> allowed a (fst (serve es m)) <= M).
Proof.
  intros HM Hc Ht Hk. pose proof (serve_budget a M I u es m HM Hc Ht Hk) as B.
  split.
  - unfold budget, counted in *. destruct (m !! a) as [e|]; [|lia].
    destruct (u + I <=? resetAt e); lia.
  - intros E. by rewrite E in B.
Qed.

(** A window opened at 0 with one request; the period from 50 to 150 then
    sees the second request of that window and two of the next: [2 * 2 - 1]
    allowed requests, so the bound is met. *)
Lemma burst_bound_witness :
  allowed "a" (fst (serve [Request "a" (mkConfig 100 2) 60; Request "a" (mkConfig 100 2) 101;
                           Request "a" (mkConfig 100 2) 102; Request "a" (mkConfig 100 2) 103]
                          (snd (serve [Request "a" (mkConfig 100 2) 0] ∅))))
  <= 2 * 2 - 1 /\
  allowed "a" (fst (serve [Request "a" (mkConfig 100 2) 60; Request "a" (mkConfig 100 2) 101;
                           Request "a" (mkConfig 100 2) 102; Request "a" (mkConfig 100 2) 103]
                          (snd (serve [Request "a" (mkConfig 100 2) 0] ∅))))
  = 3.
Proof.
  split; [|by vm_compute].
  refine (proj1 (burst_bound "a" 2 100 50 _ _ _ _ _ _)).
  - lia.
  - by vm_compute.
  - repeat constructor; cbn; lia.
  - repeat constructor.
Defined.

(** ** The identifier of a client *)

Lemma split_head_app f g :
  comma_free f = true -> split_head (f +:+ "," +:+ g) = f.
Proof.
  induction f as [|c f IH]; [done|].
  change (String c f +:+ "," +:+ g) with (String c (f +:+ "," +:+ g)). cbn.
  intros [Hc Hf]%andb_true_iff. destruct (Ascii.eqb c ","); [done|].
  by rewrite IH.
Qed.

Lemma split_head_free f : comma_free f = true -> split_head f = f.
Proof.
  induction f as [|c f IH]; cbn; [done|].
  intros [Hc Hf]%andb_true_iff. destruct (Ascii.eqb c ","); [done|].
  by rewrite IH.
Qed.

Lemma truthy_app f g : truthy (Some (f +:+ "," +:+ g)) = true.
Proof. by destruct f. Qed.

(** X17. The identifier is the first entry of [X-Forwarded-For], trimmed.
    When the header is a list [f,g] whose first entry [f] holds no comma,
    the identifier is [f] without the white space around it, whatever the
    rest [g] of the list and whatever [X-Real-IP]; the same holds for a
    header that is the single entry [f], if it is not empty. *)
Theorem forwarded_first_hop (headers : gmap string string) (f : string) :
  comma_free f = true ->
  (forall g, headers !! "x-forwarded-for" = Some (f +:+ "," +:+ g) ->
             getClientIdentifier headers = trim f) /\
  (f <> "" -> headers !! "x-forwarded-for" = Some f ->
   getClientIdentifier headers = trim f).
Proof.
  intros Hf. split.
  - intros g Hh. unfold getClientIdentifier. rewrite Hh, truthy_app. cbn [default]. unfold id.
    by rewrite split_head_app.
  - intros Hne Hh. unfold getClientIdentifier. rewrite Hh. cbn [default truthy].
    destruct (String.eqb_spec f ""); [done|]. cbn [negb]. unfold id.
    by rewrite split_head_free.
Qed.

Lemma forwarded_first_hop_witness :
  getClientIdentifier {[ "x-forwarded-for" := " 203.0.113.7" +:+ "," +:+ " 10.0.0.1, 10.0.0.2";
                         "x-real-ip" := "10.0.0.2" ]}
  = "203.0.113.7".
Proof.
  pose proof (forwarded_first_hop
                {[ "x-forwarded-for" := " 203.0.113.7" +:+ "," +:+ " 10.0.0.1, 10.0.0.2";
                   "x-real-ip" := "10.0.0.2" ]} " 203.0.113.7" eq_refl) as [H _].
  rewrite (H " 10.0.0.1, 10.0.0.2"); [reflexivity|]. by vm_compute.
Defined.

(** ** The environment *)

Lemma validateEnv_configured env : isValid (validateEnv env) = configured env.
Proof.
  unfold validateEnv, configured.
  destruct (truthy (env TMDB_TOKEN)), (truthy (env TMDB_API_KEY)),
    (truthy (env OMDB_API_KEY)); cbn [negb andb orb];
    repeat match goal with |- context [if ?b then _ else _] => destruct b end; done.
Qed.

Lemma validateEnv_errors env : isValid (validateEnv env) = true <-> errors (validateEnv env) = [].
Proof.
  unfold validateEnv.
  destruct (truthy (env TMDB_TOKEN)), (truthy (env TMDB_API_KEY)),
    (truthy (env OMDB_API_KEY)); cbn [negb andb orb];
    repeat match goal with |- context [if ?b then _ else _] => destruct b end; done.
Qed.

Lemma getEnvVar_truthy env key :
  (exists v, getEnvVar env key = inl v) <-> truthy (env key) = true.
Proof.
  unfold getEnvVar. destruct (truthy (env key)); cbn; split; try done.
  - by eexists.
  - by intros [v ?].
Qed.

(** X18. The three readers of the environment agree.  [validateEnv]
    reports a valid environment exactly when [getEnvVar] finds
    [OMDB_API_KEY] and [getEnvWithFallback] finds one of [TMDB_TOKEN],
    [TMDB_API_KEY], a variable set to the empty string counting as
    missing; and it reports valid exactly when it lists no error, whatever
    warnings it lists. *)
Theorem env_valid_iff (env : ProcessEnv) :
  (isValid (validateEnv env) = true <->
   (exists v, getEnvWithFallback env [TMDB_TOKEN; TMDB_API_KEY] = Some v) /\
   (exists v, getEnvVar env OMDB_API_KEY = inl v)) /\
  (isValid (validateEnv env) = true <-> errors (validateEnv env) = []).
Proof.
  split; [|apply validateEnv_errors].
  rewrite validateEnv_configured, getEnvVar_truthy. unfold configured. cbn.
  destruct (env TMDB_TOKEN) as [t|] eqn:Et, (env TMDB_API_KEY) as [k|] eqn:Ek; cbn;
    try destruct (String.eqb t ""); try destruct (String.eqb k ""); cbn;
    destruct (truthy (env OMDB_API_KEY)); cbn; split; try done;
    try (by intros [[v ?] ?]); try (intros _; split; [by eexists|done]).
Qed.

(** X19. [getEnvWithFallback] returns the value of the first of its keys
    that [getEnvVar] accepts: it returns [v] exactly when [getEnvVar]
    throws for some first keys and returns [v] for the next, and it
    returns [undefined] exactly when [getEnvVar] throws for every key.  It
    never returns the empty string. *)
Theorem fallback_first (env : ProcessEnv) (keys : list EnvKey) :
  (forall v, getEnvWithFallback env keys = Some v <->
     exists pre key post, keys = pre ++ key :: post /\
       Forall (fun k => exists msg, getEnvVar env k = inr msg) pre /\
       getEnvVar env key = inl v) /\
  (getEnvWithFallback env keys = None <->
     Forall (fun k => exists msg, getEnvVar env k = inr msg) keys) /\
  getEnvWithFallback env keys <> Some "".
Proof.
  assert (Hv : forall k, (exists msg, getEnvVar env k = inr msg) <-> truthy (env k) = false).
  { intros k. unfold getEnvVar. destruct (truthy (env k)); cbn; split; try done.
    - by intros [? ?].
    - by eexists. }
  assert (Hi : forall k v, getEnvVar env k = inl v <-> truthy (env k) = true /\ env k = Some v).
  { intros k v. unfold getEnvVar. destruct (env k) as [x|]; cbn; [|naive_solver].
    destruct (String.eqb x ""); cbn; naive_solver. }
  induction keys as [|k keys (IH1 & IH2 & IH3)].
  { cbn. split; [|split]; try done. intros v. split; [done|].
    intros (pre & key & post & E & _). by destruct pre. }
  cbn [getEnvWithFallback]. destruct (truthy (env k)) eqn:Ek.
  - split; [|split].
    + intros v. split.
      * intros E. exists [], k, keys. split; [done|]. split; [done|]. by apply Hi.
      * intros (pre & key & post & E & Hpre & Hkey). destruct pre as [|p pre].
        -- injection E as -> _. by apply Hi in Hkey as [_ ?].
        -- injection E as -> _. apply Forall_cons in Hpre as [Hp _].
           apply Hv in Hp. congruence.
    + split.
      * intros E. rewrite E in Ek. done.
      * intros [Hk _]%Forall_cons. apply Hv in Hk. congruence.
    + intros E. rewrite E in Ek. done.
  - split; [|split]; [| |done].
    2: { rewrite IH2, Forall_cons. split; [|by intros [_ ?]].
         intros Hk. split; [by apply Hv|done]. }
    intros v. rewrite IH1. split.
    + intros (pre & key & post & -> & Hpre & Hkey). exists (k :: pre), key, post.
      split; [done|]. split; [|done]. constructor; [by apply Hv|done].
    + intros (pre & key & post & E & Hpre & Hkey). destruct pre as [|p pre].
      * injection E as -> _. apply Hi in Hkey as [? _]. congruence.
      * injection E as -> ->. apply Forall_cons in Hpre as [_ Hpre].
        by exists pre, key, post.
Qed.

(** ** The route *)

Lemma server_eta s : mkServer (envValidated s) (limitMap s) = s.
Proof. by destruct s. Qed.

Lemma GET_unconfigured q s :
  configured (req_env q) = false -> envValidated s = false ->
  GET q s = (Unexpected, s).
Proof.
  intros Hc Hs. unfold GET, ensureEnvValid. rewrite Hs, validateEnv_configured, Hc.
  cbn. by rewrite <- Hs, server_eta.
Qed.

Lemma GET_configured q s :
  configured (req_env q) = true ->
  refused (fst (GET q s))
  = negb (success (fst (checkRateLimit (getClientIdentifier (req_headers q))
                          (mkConfig 60000 30) (req_now q) (limitMap s)))) /\
  searching (fst (GET q s))
  = success (fst (checkRateLimit (getClientIdentifier (req_headers q))
                    (mkConfig 60000 30) (req_now q) (limitMap s))) /\
  snd (GET q s)
  = mkServer true (snd (checkRateLimit (getClientIdentifier (req_headers q))
                          (mkConfig 60000 30) (req_now q) (limitMap s))).
Proof.
  intros Hc. unfold GET, ensureEnvValid. rewrite validateEnv_configured, Hc.
  assert (E : (if negb (envValidated s)
               then if negb true then (Some ("Environment validation failed:" +:+ nl +:+
                                              String.concat nl (errors (validateEnv (req_env q)))),
                                       envValidated s)
                    else (None, true)
               else (None, envValidated s)) = (None (A:=string), true)).
  { by destruct (envValidated s). }
  rewrite E. clear E.
  destruct (checkRateLimit _ _ _ _) as [r m]. cbn [fst snd].
  destruct (success r); cbn [negb]; [|done].
  unfold configured in Hc.
  destruct (truthy (req_env q TMDB_TOKEN)), (truthy (req_env q TMDB_API_KEY)),
    (truthy (req_env q OMDB_API_KEY)); done.
Qed.

Lemma GETs_serve : forall qs s,
  Forall (fun q => configured (req_env q) = true) qs ->
  refused <$> fst (GETs qs s)
  = (fun r => negb (success r.2)) <$> fst (serve (limiter_event <$> qs) (limitMap s)) /\
  searching <$> fst (GETs qs s)
  = (fun r => success r.2) <$> fst (serve (limiter_event <$> qs) (limitMap s)) /\
  limitMap (snd (GETs qs s)) = snd (serve (limiter_event <$> qs) (limitMap s)).
Proof.
  induction qs as [|q qs IH]; intros s Hq; [done|].
  apply Forall_cons in Hq as [Hq1 Hq]. cbn [GETs fmap list_fmap serve limiter_event].
  destruct (GET_configured q s Hq1) as (G1 & G2 & G3).
  specialize (IH (snd (GET q s)) Hq). rewrite G3 in IH. cbn [limitMap] in IH.
  destruct (GET q s) as [r s']. cbn [fst snd] in *. subst s'.
  destruct (checkRateLimit _ _ _ _) as [c m]. cbn [fst snd] in *.
  destruct IH as (I1 & I2 & I3).
  destruct (GETs qs _) as [rs s'']. destruct (serve _ m) as [cs m'].
  cbn [fst snd fmap list_fmap] in *. by rewrite G1, G2, I1, I2.
Qed.

(** X20. With one environment for all requests, the answer that the
    server is not configured is never given.  If the environment is
    configured (a TMDB credential and the OMDB key are set and not empty),
    every request is either refused by the rate limiter or goes on to the
    search.  If it is not, every request gets the answer of the [catch],
    `Unexpected error', before the rate limiter is asked: the limit map
    stays empty and the validation runs again at each request. *)
Theorem not_configured_unreachable (env : ProcessEnv) (qs : list Req) :
  Forall (fun q => req_env q = env) qs ->
  (configured env = true ->
   Forall (fun r => refused r || searching r = true) (fst (GETs qs started))) /\
  (configured env = false ->
   Forall (fun r => r = Unexpected) (fst (GETs qs started)) /\
   snd (GETs qs started) = started).
Proof.
  intros Hq. split; intros Hc.
  - generalize started. induction qs as [|q qs IH]; intros s; [by constructor|].
    apply Forall_cons in Hq as [Hq1 Hq]. cbn [GETs].
    assert (Hc' : configured (req_env q) = true) by by rewrite Hq1.
    destruct (GET_configured q s Hc') as (G1 & G2 & _).
    specialize (IH Hq (snd (GET q s))). destruct (GET q s) as [r s']. cbn [fst snd] in *.
    destruct (GETs qs s') as [rs s'']. cbn [fst] in *. constructor; [|done].
    rewrite G1, G2. by destruct (success _).
  - assert (Hs : envValidated started = false) by done. revert Hs. generalize started.
    induction qs as [|q qs IH]; intros s Hs; [by split|].
    apply Forall_cons in Hq as [Hq1 Hq]. cbn [GETs].
    rewrite GET_unconfigured by (done || by rewrite Hq1).
    destruct (IH Hq s Hs) as [I1 I2]. destruct (GETs qs s) as [rs s'].
    cbn [fst snd] in *. split; [by constructor|done].
Qed.

Lemma not_configured_unreachable_witness :
  Forall (fun r => r = Unexpected)
    (fst (GETs [mkReq (fun _ => Some "") ∅ 10 "2026" None None None;
                mkReq (fun _ => Some "") ∅ 20 "2026" None None None] started)) /\
  snd (GETs [mkReq (fun _ => Some "") ∅ 10 "2026" None None None;
             mkReq (fun _ => Some "") ∅ 20 "2026" None None None] started) = started.
Proof.
  refine (proj2 (not_configured_unreachable (fun _ => Some "") _ _) eq_refl).
  repeat constructor.
Defined.

(** X21. The quota of the route.  With a configured environment, take
    requests that carry one client identifier [a]; the first comes when
    [a] has no entry or its window is over, the others within 60000 ms of
    it.  Then the first 30 go on to the search and all later ones are
    answered 429.  The requests without [X-Forwarded-For] and [X-Real-IP]
    all carry the identifier [unknown], so they share this one quota. *)
Theorem GET_quota (a : string) (q0 : Req) (qs : list Req) (s : Server) :
  Forall (fun q => configured (req_env q) = true /\
                   getClientIdentifier (req_headers q) = a) (q0 :: qs) ->
  over_at (req_now q0) (limitMap s !! a) ->
  Forall (fun q => req_now q <= req_now q0 + 60000) qs ->
  searching <$> fst (GETs (q0 :: qs) s)
  = (fun i => bool_decide (i < 30)%nat) <$> seq 0 (S (length qs)) /\
  refused <$> fst (GETs (q0 :: qs) s)
  = (fun i => bool_decide (30 <= i)%nat) <$> seq 0 (S (length qs)).
Proof.
  intros Hq Ho Ht.
  destruct (GETs_serve (q0 :: qs) s) as (G1 & G2 & _).
  { eapply Forall_impl; [exact Hq|]. by intros q [? _]. }
  assert (E : limiter_event <$> (q0 :: qs)
              = (fun t => Request a (mkConfig 60000 30) t) <$> (req_now q0 :: (req_now <$> qs))).
  { rewrite <- (fmap_cons req_now), <- list_fmap_compose. apply Forall_fmap_ext_1.
    eapply Forall_impl; [exact Hq|]. intros q [_ Ha]. unfold limiter_event. cbn.
    by rewrite Ha. }
  rewrite E in G1, G2.
  rewrite (serve_opened a (mkConfig 60000 30) (req_now q0) (req_now <$> qs) (limitMap s))
    in G1, G2 by (done || by apply Forall_fmap).
  rewrite length_fmap in G1, G2. rewrite G1, G2, <- !list_fmap_compose.
  split; apply Forall_fmap_ext_1, Forall_forall; intros i _; cbn;
    unfold window_answer; cbn [maxRequests];
    destruct (Z.ltb_spec (Z.of_nat i) (Z.max 1 30)); cbn;
    symmetry; (apply bool_decide_eq_true || apply bool_decide_eq_false); lia.
Qed.

Lemma GET_quota_witness :
  searching <$> fst (GETs (mkReq (fun _ => Some "eyJhbGciOi") ∅ 1000 "2026" None None None
                             :: replicate 31 (mkReq (fun _ => Some "eyJhbGciOi") ∅ 2000 "2026"
                                                    None None None)) started)
  = (fun i => bool_decide (i < 30)%nat)
      <$> seq 0 (S (length (replicate 31 (mkReq (fun _ => Some "eyJhbGciOi") ∅ 2000 "2026"
                                                None None None)))) /\
  refused <$> fst (GETs (mkReq (fun _ => Some "eyJhbGciOi") ∅ 1000 "2026" None None None
                           :: replicate 31 (mkReq (fun _ => Some "eyJhbGciOi") ∅ 2000 "2026"
                                                  None None None)) started)
  = (fun i => bool_decide (30 <= i)%nat)
      <$> seq 0 (S (length (replicate 31 (mkReq (fun _ => Some "eyJhbGciOi") ∅ 2000 "2026"
                                                None None None)))).
Proof.
  refine (GET_quota "unknown" _ _ started _ _ _).
  - cbn [replicate]. repeat (constructor; [by vm_compute|]). constructor.
  - exact I.
  - cbn [replicate]. repeat (constructor; [cbn; lia|]). constructor.
Defined.

(** ** The filters, from the client to the search *)

Lemma year_text z :
  1900 <= z <= 2100 ->
  date_re (pretty z +:+ "-01-01") = true /\ date_re (pretty z +:+ "-12-31") = true.
Proof.
  intros Hz.
  assert (A : forallb (fun z => date_re (pretty z +:+ "-01-01")
                                && date_re (pretty z +:+ "-12-31")) (seqZ 1900 201) = true)
    by (vm_compute; reflexivity).
  rewrite forallb_forall in A. specialize (A z).
  apply andb_true_iff, A, list_elem_of_In, elem_of_seqZ. lia.
Qed.

Lemma date_re_truthy s : date_re s = true -> String.eqb s "" = false.
Proof. by destruct s. Qed.

Lemma language_re_truthy s : language_re s = true -> String.eqb s "" = false.
Proof. by destruct s. Qed.

Lemma normalizeYear_clamp y boundary :
  normalizeYear (Some y) boundary
  = Some (pretty (clamp_year (trunc y)) +:+ suffix_of boundary).
Proof.
  unfold normalizeYear, clamp_year.
  destruct (Z.ltb_spec (trunc y) 1900).
  { replace (Z.max 1900 (Z.min 2100 (trunc y))) with 1900 by lia. by destruct boundary. }
  destruct (Z.ltb_spec 2100 (trunc y)).
  { replace (Z.max 1900 (Z.min 2100 (trunc y))) with 2100 by lia. by destruct boundary. }
  replace (Z.max 1900 (Z.min 2100 (trunc y))) with (trunc y) by lia. by destruct boundary.
Qed.

Lemma date_param_kept s d :
  date_re s = true -> (if date_re (or_else (Some s) d) then or_else (Some s) d else d) = s.
Proof. intros Hs. cbn. by rewrite (date_re_truthy s Hs), Hs. Qed.

Lemma date_param_default d : (if date_re (or_else None d) then or_else None d else d) = d.
Proof. cbn. by destruct (date_re d). Qed.

Lemma lower_not_white c : is_lower c = true -> is_white c = false.
Proof. destruct c as [[] [] [] [] [] [] [] []]; by vm_compute. Qed.

Lemma upper_not_white c : is_upper c = true -> is_white c = false.
Proof. destruct c as [[] [] [] [] [] [] [] []]; by vm_compute. Qed.

Lemma language_re_trim s : language_re s = true -> trim s = s.
Proof.
  unfold language_re.
  destruct s as [|c1 [|c2 [|c3 [|c4 [|c5 [|c6 [|c7 s]]]]]]];
    cbn [String.list_ascii_of_string]; try done.
  - rewrite !andb_true_iff. intros H. destruct_and!.
    unfold trim, trimEnd. cbn [trimStart].
    rewrite (lower_not_white c1) by done. cbn [String.rev String.rev_app trimStart].
    by rewrite (upper_not_white c5).
  - rewrite !andb_true_iff. intros H. destruct_and!.
    unfold trim, trimEnd. cbn [trimStart].
    rewrite (lower_not_white c1) by done. cbn [String.rev String.rev_app trimStart].
    by rewrite (upper_not_white c6).
Qed.

(** X22. What the client makes of a language tag.  [normalizeLanguage]
    returns only tags of the form [ll-CC] or [lll-CC]; it accepts such a
    tag with white space around it and returns it bare; and it returns its
    own results unchanged. *)
Theorem normalizeLanguage_sound (language : option string) (t : string) :
  normalizeLanguage language = Some t ->
  language_re t = true /\
  t = trim (default "" language) /\
  normalizeLanguage (Some t) = Some t.
Proof.
  unfold normalizeLanguage at 1. destruct (truthy language); cbn [negb]; [|done].
  destruct (language_re (trim (default "" language))) eqn:E; [|done].
  intros [= <-]. split; [done|]. split; [done|].
  unfold normalizeLanguage. cbn [truthy default].
  rewrite (language_re_truthy _ E). cbn [negb]. unfold id in *.
  by rewrite (language_re_trim _ E), E.
Qed.

Lemma normalizeLanguage_sound_witness :
  language_re "pt-BR" = true /\
  "pt-BR" = trim (default "" (Some "  pt-BR ")) /\
  normalizeLanguage (Some "pt-BR") = Some "pt-BR".
Proof. exact (normalizeLanguage_sound (Some "  pt-BR ") "pt-BR" eq_refl). Defined.

(** X23. The filters of the client reach the search unchanged.  When the
    parameters of a request are what the client computes from its options
    ([normalizeYear] of the two years, [normalizeLanguage] of the tag) and
    the route goes on to the search, the search uses: as start date the
    year cut to an integer and brought between 1900 and 2100, followed by
    [-01-01]; as end date the same with [-12-31]; as language the
    normalised tag; and the defaults of the route ([1990-01-01], the
    current year with [-12-31], [en-US]) where the client sends nothing.
    The route replaces nothing that the client sends. *)
Theorem client_filters_reach_search (q : Req) (s : Server)
    (startYear endYear : option Q) (language : option string)
    (r : RateLimitResult) (sy ey lang : string) (auth key : option string) :
  req_startYear q = normalizeYear startYear YearStart ->
  req_endYear q = normalizeYear endYear YearEnd ->
  req_language q = normalizeLanguage language ->
  fst (GET q s) = Proceed r sy ey lang auth key ->
  sy = from_option (fun y => pretty (clamp_year (trunc y)) +:+ "-01-01") "1990-01-01" startYear /\
  ey = from_option (fun y => pretty (clamp_year (trunc y)) +:+ "-12-31")
                   (req_year q +:+ "-12-31") endYear /\
  lang = default "en-US" (normalizeLanguage language).
Proof.
  intros Hs He Hl. unfold GET.
  destruct (ensureEnvValid _ _) as [[msg|] v]; [done|].
  destruct (checkRateLimit _ _ _ _) as [c m].
  destruct (negb (success c)); [done|].
  destruct (_ || _); [done|]. cbn [fst]. intros [= _ <- <- <- _ _].
  rewrite Hs, He, Hl. split; [|split].
  - destruct startYear as [y|]; cbn [from_option]; [|apply date_param_default].
    rewrite normalizeYear_clamp. apply date_param_kept, year_text. unfold clamp_year. lia.
  - destruct endYear as [y|]; cbn [from_option]; [|apply date_param_default].
    rewrite normalizeYear_clamp. apply date_param_kept, year_text. unfold clamp_year. lia.
  - destruct (normalizeLanguage language) as [t|] eqn:E; cbn [default]; [|done].
    unfold normalizeLanguage in E. destruct (negb (truthy language)); [done|].
    destruct (language_re (trim (default "" language))) eqn:Et; [|done].
    injection E as <-. cbn [or_else]. by rewrite (language_re_truthy _ Et), Et.
Qed.

Lemma client_filters_reach_search_witness :
  "1987-01-01"
  = from_option (fun y => pretty (clamp_year (trunc y)) +:+ "-01-01") "1990-01-01"
                (Some (39755 # 20)) /\
  "2100-12-31"
  = from_option (fun y => pretty (clamp_year (trunc y)) +:+ "-12-31")
                (req_year (mkReq (fun _ => Some "eyJhbGciOi") ∅ 1000 "2026"
                                 (Some "1987-01-01") (Some "2100-12-31") None)
                 +:+ "-12-31") (Some (2500 # 1)) /\
  "en-US" = default "en-US" (normalizeLanguage (Some "english")).
Proof.
  exact (client_filters_reach_search
           (mkReq (fun _ => Some "eyJhbGciOi") ∅ 1000 "2026"
                  (Some "1987-01-01") (Some "2100-12-31") None) started
           (Some (39755 # 20)) (Some (2500 # 1)) (Some "english")
           (mkResult true 30 29 61000) "1987-01-01" "2100-12-31" "en-US"
           (Some "Bearer eyJhbGciOi") (Some "eyJhbGciOi")
           eq_refl eq_refl eq_refl eq_refl).
Defined.

(** ** The address the client asks *)

Lemma encode_year z boundary :
  1900 <= z <= 2100 ->
  form_encode (pretty z +:+ suffix_of boundary) = pretty z +:+ suffix_of boundary.
Proof.
  intros Hz.
  assert (A : forallb (fun z => String.eqb (form_encode (pretty z +:+ "-01-01"))
                                           (pretty z +:+ "-01-01")
                                && String.eqb (form_encode (pretty z +:+ "-12-31"))
                                              (pretty z +:+ "-12-31"))
                      (seqZ 1900 201) = true)
    by (vm_compute; reflexivity).
  rewrite forallb_forall in A. specialize (A z).
  destruct (proj1 (andb_true_iff _ _) (A ltac:(apply list_elem_of_In, elem_of_seqZ; lia)))
    as [A1 A2].
  apply String.eqb_eq in A1, A2. by destruct boundary.
Qed.

Lemma year_truthy z boundary :
  1900 <= z <= 2100 -> String.eqb (pretty z +:+ suffix_of boundary) "" = false.
Proof.
  intros Hz. destruct (year_text z Hz) as [A1 A2].
  destruct boundary; by apply date_re_truthy.
Qed.

Lemma lower_safe c : is_lower c = true -> form_encode_unit c = String c "".
Proof. destruct c as [[] [] [] [] [] [] [] []]; by vm_compute. Qed.

Lemma upper_safe c : is_upper c = true -> form_encode_unit c = String c "".
Proof. destruct c as [[] [] [] [] [] [] [] []]; by vm_compute. Qed.

Lemma dash_safe c : is_dash c = true -> form_encode_unit c = String c "".
Proof. destruct c as [[] [] [] [] [] [] [] []]; by vm_compute. Qed.

Lemma encode_language s : language_re s = true -> form_encode s = s.
Proof.
  unfold language_re.
  destruct s as [|c1 [|c2 [|c3 [|c4 [|c5 [|c6 [|c7 s]]]]]]];
    cbn [String.list_ascii_of_string]; try done.
  - rewrite !andb_true_iff. intros H. destruct_and!. cbn [form_encode].
    by rewrite (lower_safe c1), (lower_safe c2), (dash_safe c3), (upper_safe c4),
      (upper_safe c5) by done.
  - rewrite !andb_true_iff. intros H. destruct_and!. cbn [form_encode].
    by rewrite (lower_safe c1), (lower_safe c2), (lower_safe c3), (dash_safe c4),
      (upper_safe c5), (upper_safe c6) by done.
Qed.

(** X24. The address holds the filters without escapes, and nothing else.
    [buildRandomMovieUrl] returns [/api/random-movie], followed, if any
    filter is left after normalisation, by [?] and the filters that are
    left, in the order [startYear], [endYear], [language], joined by [&],
    each as [name=value] with the normalised value as it is: the
    serializer of the parameters escapes nothing in them. *)
Theorem url_in_clear (opts : FetchOptions) :
  buildRandomMovieUrl opts
  = match omap id [in_clear "startYear" (normalizeYear (opts_startYear opts) YearStart);
                   in_clear "endYear" (normalizeYear (opts_endYear opts) YearEnd);
                   in_clear "language" (normalizeLanguage (opts_language opts))] with
    | [] => "/api/random-movie"
    | ps => "/api/random-movie?" +:+ String.concat "&" ps
    end.
Proof.
  unfold buildRandomMovieUrl.
  assert (Hy : forall y b, exists v,
             normalizeYear y b = v /\
             match v with
             | Some s => String.eqb s "" = false /\ form_encode s = s
             | None => True
             end).
  { intros [y|] b; [|by exists None]. eexists. split; [apply normalizeYear_clamp|].
    split; [apply year_truthy|apply encode_year]; unfold clamp_year; lia. }
  assert (Hl : exists v, normalizeLanguage (opts_language opts) = v /\
             match v with
             | Some s => String.eqb s "" = false /\ form_encode s = s
             | None => True
             end).
  { destruct (normalizeLanguage (opts_language opts)) as [t|] eqn:E; [|by exists None].
    exists (Some t). split; [done|]. unfold normalizeLanguage in E.
    destruct (negb (truthy (opts_language opts))); [done|].
    destruct (language_re (trim (default "" (opts_language opts)))) eqn:Et; [|done].
    injection E as <-. split; [by apply language_re_truthy|by apply encode_language]. }
  destruct (Hy (opts_startYear opts) YearStart) as (s & -> & Hs).
  destruct (Hy (opts_endYear opts) YearEnd) as (e & -> & He).
  destruct Hl as (l & -> & Hl).
  destruct s as [s|], e as [e|], l as [l|]; cbn [truthy];
    repeat match goal with H : _ /\ _ |- _ => destruct H as [? ?] end;
    repeat match goal with H : String.eqb _ "" = false |- _ => rewrite H; clear H end;
    unfold params_toString, in_clear;
    cbn [negb default from_option params_set String.eqb Ascii.eqb Bool.eqb id
         fmap list_fmap fst snd omap list_omap option_fmap option_map mbind option_bind];
    unfold id;
    repeat match goal with H : form_encode _ = _ |- _ => rewrite H; clear H end;
    reflexivity.
Qed.
